(** * The scan-and-round engine of [ScannerSystem] (src/scanner.ts)

    A shallow embedding of the per-frame [update] method of the
    scanner system and of the helpers it calls ([resetRound],
    [showRoundComplete], [spawnRandomProductAt]), followed by the
    properties of the engine and of its display.

    Modelling conventions.
    - JavaScript numbers are modelled as exact rationals ([Q]); rounding
      of IEEE doubles and of the Float32 component fields is not modelled.
    - The entity sets of the two queries are lists in iteration order; an
      entity is identified by its position in the list.
    - The state of the widgets (countdown text, score text, toast,
      round-complete panel and message, onboarding hint, timer bar) does
      not feed back into the round, the score or the entity store and is
      left out of the engine.  The widgets are modelled as a layer over
      the engine ([HudSystem], [updateH]), which is shown to project onto
      it; placement in space, the scan sound and the pulse animation stay
      out.  Audible notifications of the round and the round-complete
      message are recorded in an effect log.
    - The price table is indexed as the object literal it is: an id that
      names a property of [Object.prototype] reads an inherited value,
      whose [price] is [undefined].  The cart total then becomes [NaN]
      and the label code raises a [TypeError], whether or not the toast
      exists; the exception is part of the engine.  It is recorded as the
      last effect of the tick: it ends the sweep, and the tick flushes
      nothing.  The state such a tick leaves behind counts as
      reachable.
    - [Math.random] and [AssetManager.getGLTF] are inputs of the tick.
    - Between ticks the host may change the scene at will; it cannot
      touch the private round fields. *)

From Stdlib Require Import QArith Qround Lqa ZArith Lia List Bool.
From Stdlib Require Import DecimalString.
From stdpp Require Import gmap strings list.

Local Open Scope Q_scope.

(** ** Numbers *)

Definition Qltb (x y : Q) : bool := negb (Qle_bool y x).
Definition Qgtb (x y : Q) : bool := Qltb y x.
Definition Qgeb (x y : Q) : bool := Qle_bool y x.

(** A JavaScript number that may be [NaN].  Of the numbers of the engine
    only the cart total can become [NaN] (when [undefined] is added to
    it); the others stay finite. *)
Inductive Num := Fin (q : Q) | NaN.

(** [x + y]. *)
Definition numAdd (x y : Num) : Num :=
  match x, y with
  | Fin a, Fin b => Fin (a + b)
  | _, _ => NaN
  end.

(** [x >= y] for a finite [y]: false on [NaN]. *)
Definition numGeb (x : Num) (y : Q) : bool :=
  match x with
  | Fin a => Qgeb a y
  | NaN => false
  end.

(** [x !== y]: [NaN] differs from every number, itself included. *)
Definition numNeq (x y : Num) : bool :=
  match x, y with
  | Fin a, Fin b => negb (Qeq_bool a b)
  | _, _ => true
  end.

(** Equality of values: that of rationals on finite numbers. *)
Definition numEq (x y : Num) : Prop :=
  match x, y with
  | Fin a, Fin b => a == b
  | NaN, NaN => True
  | _, _ => False
  end.

(** [y <= x] as a proposition, false on [NaN]. *)
Definition numGe (x : Num) (y : Q) : Prop :=
  match x with
  | Fin a => y <= a
  | NaN => False
  end.

(** A non-negative integer in decimal. *)
Definition digits (n : Z) : string :=
  NilZero.string_of_uint (N.to_uint (Z.to_N n)).

(** [`${n}`] for an integer-valued number. *)
Definition showInt (n : Z) : string :=
  if (n <? 0)%Z then String.append "-" (digits (- n)) else digits n.

(** [String.prototype.padStart(2, "0")]. *)
Definition padStart2 (s : string) : string :=
  match String.length s with
  | 0%nat => "00"
  | 1%nat => String.append "0" s
  | _ => s
  end.

(** Two decimal digits of [n], for [0 <= n < 100]. *)
Definition pad2 (n : Z) : string := padStart2 (digits n).

(** [Number.prototype.toFixed(2)] below 10^21. *)
Definition toFixed2 (x : Q) : string :=
  let neg := Qltb x 0 in
  let a := if neg then - x else x in
  let n := Qfloor (a * 100 + (1 # 2)) in
  String.append (if neg then "-" else "")
    (String.append (digits (n / 100))
       (String.append "." (pad2 (n mod 100)))).

(** ** Vectors (three.js [Vector3]) *)

Record Vector3 := mkVector3 { vx : Q; vy : Q; vz : Q }.

(** [Vector3.distanceToSquared]. *)
Definition distanceToSquared (a b : Vector3) : Q :=
  let dx := vx a - vx b in
  let dy := vy a - vy b in
  let dz := vz a - vz b in
  dx * dx + dy * dy + dz * dz.

(** ** Components and entities *)

(** The mesh of a scannable entity: its world position, its uniform scale,
    its visibility and the [userData.scannedOut] flag.  Product meshes are created directly
    under the scene root, so [position.set] moves the world position. *)
Record Object3D := mkObject3D {
  position : Vector3;
  meshScale : Q;
  visible : bool;
  scannedOut : bool
}.

(** An entity carrying the [Scannable] component.  A field is [None] when
    [getValue] returns [null]/[undefined] for it (the source guards every
    read with [??]). *)
Record Scannable := mkScannable {
  object3D : option Object3D;
  productId : option string;
  lastScanTime : option Q;
  homeX : option Q;
  homeY : option Q;
  homeZ : option Q
}.

(** An entity carrying the [ScannerZone] component. *)
Record ScannerZone := mkScannerZone {
  zoneObject3D : option Vector3;
  radius : option Q
}.

(** ** Catalog *)

Record ProductDef := mkProductDef {
  defProductId : string;
  assetKey : string;
  scale : Q
}.

Definition productCatalog : list ProductDef :=
  [ mkProductDef "redApple" "redApple" (28 # 100);
    mkProductDef "pear" "pear" (10 # 100);
    mkProductDef "cerealCocoaCritters" "cerealCocoaCritters" (10 # 1000);
    mkProductDef "goldBar" "goldBar" (42 # 100);
    mkProductDef "shoe" "shoe" (13 # 10);
    mkProductDef "industrialShoe" "industrialShoe" (15 # 10);
    mkProductDef "chickenFriedRice" "chickenFriedRice" (13 # 1000);
    mkProductDef "chickenStrips" "chickenStrips" (125 # 100);
    mkProductDef "fleeceJacket" "fleeceJacket" (36 # 100);
    mkProductDef "glasses" "glasses" (2 # 100);
    mkProductDef "presentBox" "presentBox" (18 # 100) ].

Record ProductInfo := mkProductInfo { name : string; price : Q }.

(** The own properties of the [productInfo] object literal. *)
Definition productInfoOwn : gmap string ProductInfo :=
  list_to_map
    [ ("redApple", mkProductInfo "Red Apple" (99 # 100));
      ("pear", mkProductInfo "Fresh Pear" (109 # 100));
      ("cerealCocoaCritters", mkProductInfo "Cocoa Critters Cereal" (499 # 100));
      ("goldBar", mkProductInfo "Gold Bar (Display)" (2999 # 100));
      ("shoe", mkProductInfo "Running Shoe" (5999 # 100));
      ("industrialShoe", mkProductInfo "Industrial Work Boot" (8999 # 100));
      ("chickenFriedRice", mkProductInfo "Frozen Chicken Fried Rice" (749 # 100));
      ("chickenStrips", mkProductInfo "Crispy Chicken Strips" (899 # 100));
      ("fleeceJacket", mkProductInfo "Fleece Jacket" (3999 # 100));
      ("glasses", mkProductInfo "Fashion Glasses" (1999 # 100));
      ("presentBox", mkProductInfo "Gift Box" (599 # 100)) ].

(** The property names every object literal inherits from
    [Object.prototype]: its methods and the [__proto__] accessor. *)
Definition objectPrototypeKeys : list string :=
  [ "constructor"; "hasOwnProperty"; "isPrototypeOf";
    "propertyIsEnumerable"; "toLocaleString"; "toString"; "valueOf";
    "__proto__"; "__defineGetter__"; "__defineSetter__";
    "__lookupGetter__"; "__lookupSetter__" ].

(** What [this.productInfo[id]] can be when it is not [undefined]: an
    entry of the table, or a value inherited from [Object.prototype] (a
    function, or the prototype itself for [__proto__]), which is truthy
    and has neither [name] nor [price] of the table's kind. *)
Inductive InfoValue := Entry (info : ProductInfo) | Inherited.

(** [this.productInfo[id]]: the read goes through the prototype chain;
    [None] is [undefined]. *)
Definition productInfo (pid : string) : option InfoValue :=
  match productInfoOwn !! pid with
  | Some info => Some (Entry info)
  | None =>
      if decide (pid ∈ objectPrototypeKeys) then Some Inherited else None
  end.

(** [info.price] as an operand of [+=]: [undefined] adds as [NaN]. *)
Definition infoPrice (v : InfoValue) : Num :=
  match v with
  | Entry info => Fin (price info)
  | Inherited => NaN
  end.

(** ** System state *)

Definition gameDurationSeconds : Q := 30.
Definition goalCartValue : Q := 150.

(** The round and score fields of the system. *)
Record Round := mkRound {
  timeRemaining : Q;
  timerRunning : bool;
  gameStarted : bool;
  roundEnded : bool;
  roundShown : bool;
  timerWarningPlayed : bool;
  scannedCount : Z;
  totalCartValue : Num
}.

(** [this.config]. *)
Record Config := mkConfig { scanRadius : Q; scanCooldown : Q }.

Record ScannerSystem := mkSystem {
  round : Round;
  config : Config;
  scanners : list ScannerZone;
  scannables : list Scannable
}.

(** What the tick reads from its host: the draws of [Math.random], one per
    call in call order, and which asset keys [AssetManager.getGLTF]
    resolves. *)
Record Host := mkHost {
  random : nat -> Q;
  getGLTF : string -> bool
}.

(** Observable effects of a tick.  [ScanEvent z i p] is the log line of
    an honoured scan of entity [i] with product id [p] at zone [z]
    ([console.log], written once the scan is time-stamped); the beep, the
    pulse and the toast follow it, unless the label code throws:
    [TypeError z i] is the exception [getProductLabel] raises for that
    scan, which leaves [update] uncaught.  [Discarded z i] marks the bare
    [continue] of the round gate and has no counterpart at run time. *)
Inductive Effect :=
| TimerWarningSound
| WinSound
| LoseSound
| RoundMessage (count : Z) (total : Num)
| ScanEvent (zone entity : nat) (pid : string)
| TypeError (zone entity : nat)
| Discarded (zone entity : nat).

(** ** Round helpers *)

Definition with_round (s : ScannerSystem) (r : Round) : ScannerSystem :=
  mkSystem r (config s) (scanners s) (scannables s).

Definition with_scannables (s : ScannerSystem) (l : list Scannable)
  : ScannerSystem :=
  mkSystem (round s) (config s) (scanners s) l.

(** The values [init] and [resetRound] assign to the round fields. *)
Definition freshRound : Round :=
  mkRound gameDurationSeconds false false false false false 0%Z (Fin 0).

(** [resetRound]: every round and score field goes back to its initial
    value; the method reads and writes nothing else. *)
Definition resetRound (s : ScannerSystem) : ScannerSystem :=
  with_round s freshRound.

(** [showRoundComplete]: guarded by [roundShown]; plays the win or the
    lose sound and shows the final tallies ([RoundMessage]; the source
    draws them when the message canvas exists). *)
Definition showRoundComplete (s : ScannerSystem)
  : ScannerSystem * list Effect :=
  let r := round s in
  if roundShown r then (s, [])
  else
    let r' := mkRound (timeRemaining r) (timerRunning r) (gameStarted r)
                true true (timerWarningPlayed r)
                (scannedCount r) (totalCartValue r) in
    let hitGoal := numGeb (totalCartValue r) goalCartValue in
    (with_round s r',
     [ if hitGoal then WinSound else LoseSound;
       RoundMessage (scannedCount r) (totalCartValue r) ]).

(** The block [if (this.timeRemaining <= 0) { ... }] of [update]. *)
Definition zeroCrossing (s : ScannerSystem) : ScannerSystem * list Effect :=
  let r := round s in
  if Qle_bool (timeRemaining r) 0 then
    let r' := mkRound 0 false (gameStarted r) (roundEnded r) (roundShown r)
                (timerWarningPlayed r) (scannedCount r) (totalCartValue r) in
    showRoundComplete (with_round s r')
  else (s, []).

(** The timer part of [update]. *)
Definition advanceTimer (delta : Q) (s : ScannerSystem)
  : ScannerSystem * list Effect :=
  let r := round s in
  if timerRunning r then
    let prevTime := timeRemaining r in
    let t := prevTime - delta in
    let warn := negb (timerWarningPlayed r) && Qgtb prevTime 10
                && Qle_bool t 10 && Qgtb t 0 in
    let r1 := mkRound t true (gameStarted r) (roundEnded r) (roundShown r)
                (if warn then true else timerWarningPlayed r)
                (scannedCount r) (totalCartValue r) in
    let '(s', ended) := zeroCrossing (with_round s r1) in
    (s', (if warn then [TimerWarningSound] else []) ++ ended)
  else (s, []).

(** ** The proximity sweep *)

Record Respawn := mkRespawn {
  rHomeX : Q;
  rHomeY : Q;
  rHomeZ : Q;
  rEntity : nat
}.

(** The loop state of the sweep: the system, the [scannedThisFrame] set,
    the [respawns] array and the effects so far. *)
Record Sweep := mkSweep {
  sys : ScannerSystem;
  scannedThisFrame : gset nat;
  respawns : list Respawn;
  log : list Effect
}.

(** The radius test: [distSq > radiusSq] skips the candidate. *)
Definition zoneRadiusSq (cfg : Config) (z : ScannerZone) : Q :=
  let baseRadius := default (scanRadius cfg) (radius z) in
  let zoneRadius := baseRadius * (11 # 10) in
  zoneRadius * zoneRadius.

Definition inRadius (radiusSq : Q) (scannerPos scannablePos : Vector3) : bool :=
  negb (Qgtb (distanceToSquared scannerPos scannablePos) radiusSq).

(** The cooldown test: [last >= 0 && time - last < cooldown] skips. *)
Definition onCooldown (cooldown time : Q) (e : Scannable) : bool :=
  let last := default (-1) (lastScanTime e) in
  Qgeb last 0 && Qltb (time - last) cooldown.

(** "If the round is over, a scan restarts it": [None] is the bare
    [continue]. *)
Definition roundGate (s : ScannerSystem) : option ScannerSystem :=
  let r := round s in
  if negb (timerRunning r) && Qle_bool (timeRemaining r) 0 then
    if roundEnded r then Some (resetRound s) else None
  else Some s.

(** [if (!this.gameStarted) { ... }]. *)
Definition startRound (s : ScannerSystem) : ScannerSystem :=
  let r := round s in
  if gameStarted r then s
  else with_round s
         (mkRound (timeRemaining r) true true (roundEnded r) (roundShown r)
            (timerWarningPlayed r) (scannedCount r) (totalCartValue r)).

(** "Update score" and "Update cart total": [if (info)] lets every
    truthy value through, also an inherited one, whose [price] is
    [undefined]. *)
Definition recordSale (pid : string) (s : ScannerSystem) : ScannerSystem :=
  let r := round s in
  let total := match productInfo pid with
               | Some info => numAdd (totalCartValue r) (infoPrice info)
               | None => totalCartValue r
               end in
  with_round s
    (mkRound (timeRemaining r) (timerRunning r) (gameStarted r)
       (roundEnded r) (roundShown r) (timerWarningPlayed r)
       (scannedCount r + 1)%Z total).

(** The scanned entity after the scan: time-stamped, hidden, parked at
    [(0, -999, 0)] and marked scanned out. *)
Definition scanOut (time : Q) (scannableObj : Object3D) (e : Scannable)
  : Scannable :=
  mkScannable
    (Some (mkObject3D (mkVector3 0 (-999) 0) (meshScale scannableObj)
             false true))
    (productId e) (Some time) (homeX e) (homeY e) (homeZ e).

(** The scanned entity once [lastScanTime] is written. *)
Definition stamp (time : Q) (e : Scannable) : Scannable :=
  mkScannable (object3D e) (productId e) (Some time)
    (homeX e) (homeY e) (homeZ e).

(** [getProductLabel]; [None] is the [TypeError] of
    [info.price.toFixed] on an inherited value, whose [price] is
    [undefined]. *)
Definition getProductLabel (pid : string) : option string :=
  match productInfo pid with
  | None => Some "Item scanned"
  | Some (Entry info) =>
      Some (String.append (name info)
              (String.append " — $" (toFixed2 (price info))))
  | Some Inherited => None
  end.

(** Whether an uncaught exception has left the loops. *)
Definition isTypeError (ev : Effect) : bool :=
  match ev with TypeError _ _ => true | _ => false end.

Definition threw (l : list Effect) : bool := existsb isTypeError l.

Inductive Flow := Continue (st : Sweep) | Break (st : Sweep).

(** The part of the inner loop body that honours a scan, from
    [if (!this.gameStarted)] down to [respawns.push]; [s1] is the system
    as the round gate leaves it.  When the label code throws, the loop
    body is left there: the scan is time-stamped, logged and counted, and
    the entity is neither retired nor queued for a respawn. *)
Definition honorScan (time : Q) (zi : nat) (scannerPos : Vector3) (i : nat)
    (scannable : Scannable) (scannableObj : Object3D) (s1 : ScannerSystem)
    (st : Sweep) : Sweep :=
  let s2 := startRound s1 in
  let pid := default "" (productId scannable) in
  let s3 := recordSale pid s2 in
  match getProductLabel pid with
  | None =>
      mkSweep
        (with_scannables s3 (<[i := stamp time scannable]> (scannables s3)))
        ({[i]} ∪ scannedThisFrame st) (respawns st)
        (log st ++ [ScanEvent zi i pid; TypeError zi i])
  | Some _ =>
      let hX := default (vx scannerPos) (homeX scannable) in
      let hY := default (vy scannerPos) (homeY scannable) in
      let hZ := default (vz scannerPos) (homeZ scannable) in
      let s4 := with_scannables s3
                  (<[i := scanOut time scannableObj scannable]>
                     (scannables s3)) in
      mkSweep s4 ({[i]} ∪ scannedThisFrame st)
        (respawns st ++ [mkRespawn hX hY hZ i])
        (log st ++ [ScanEvent zi i pid])
  end.

(** The body of the inner loop for candidate [i]. *)
Definition tryScan (time : Q) (zi : nat) (scannerPos : Vector3)
    (radiusSq : Q) (i : nat) (scannable : Scannable) (st : Sweep) : Flow :=
  if decide (i ∈ scannedThisFrame st) then Continue st else
  match object3D scannable with
  | None => Continue st
  | Some scannableObj =>
    if scannedOut scannableObj then Continue st else
    if negb (inRadius radiusSq scannerPos (position scannableObj))
    then Continue st else
    if onCooldown (scanCooldown (config (sys st))) time scannable
    then Continue st else
    match roundGate (sys st) with
    | None =>
        Continue (mkSweep (sys st) (scannedThisFrame st) (respawns st)
                    (log st ++ [Discarded zi i]))
    | Some s1 =>
        Break (honorScan time zi scannerPos i scannable scannableObj s1 st)
    end
  end.

(** The inner loop over the scannable entities.  The store is written
    only on the iteration that breaks, so the loop runs over the entities
    as they are when the zone is entered. *)
Fixpoint scanZone (time : Q) (zi : nat) (scannerPos : Vector3) (radiusSq : Q)
    (cands : list (nat * Scannable)) (st : Sweep) : Sweep :=
  match cands with
  | [] => st
  | (i, e) :: rest =>
      match tryScan time zi scannerPos radiusSq i e st with
      | Continue st' => scanZone time zi scannerPos radiusSq rest st'
      | Break st' => st'
      end
  end.

(** The body of the outer loop for zone [zi]. *)
Definition sweepZone (time : Q) (zi : nat) (scanner : ScannerZone)
    (st : Sweep) : Sweep :=
  match zoneObject3D scanner with
  | None => st
  | Some scannerPos =>
      scanZone time zi scannerPos (zoneRadiusSq (config (sys st)) scanner)
        (imap pair (scannables (sys st))) st
  end.

(** The outer loop; an exception thrown in a zone leaves it. *)
Fixpoint sweepZones (time : Q) (zones : list (nat * ScannerZone))
    (st : Sweep) : Sweep :=
  match zones with
  | [] => st
  | (zi, z) :: rest =>
      let st' := sweepZone time zi z st in
      if threw (log st') then st' else sweepZones time rest st'
  end.

Definition sweep (time : Q) (s : ScannerSystem) : Sweep :=
  sweepZones time (imap pair (scanners s)) (mkSweep s ∅ [] []).

(** ** Respawns *)

(** Three decimal digits of [n], for [0 <= n < 1000]. *)
Definition pad3 (n : Z) : string :=
  let d := NilZero.string_of_uint (N.to_uint (Z.to_N n)) in
  match String.length d with
  | 1%nat => String.append "00" d
  | 2%nat => String.append "0" d
  | _ => d
  end.

(** [Number.prototype.toFixed(3)] below 10^21: the sign is split off and
    the magnitude is rounded to the nearest thousandth, the larger one on
    a tie. *)
Definition toFixed3 (x : Q) : string :=
  let neg := Qltb x 0 in
  let a := if neg then - x else x in
  let n := Qfloor (a * 1000 + (1 # 2)) in
  String.append (if neg then "-" else "")
    (String.append (NilZero.string_of_uint (N.to_uint (Z.to_N (n / 1000))))
       (String.append "." (pad3 (n mod 1000)))).

(** The de-duplication key of a queued respawn. *)
Definition slotKey (r : Respawn) : string :=
  String.append (toFixed3 (rHomeX r))
    (String.append "|"
       (String.append (toFixed3 (rHomeY r))
          (String.append "|" (toFixed3 (rHomeZ r))))).

(** The entity [spawnRandomProductAt] creates for catalog entry [def]. *)
Definition spawned (def : ProductDef) (hX hY hZ : Q) : Scannable :=
  mkScannable
    (Some (mkObject3D (mkVector3 hX hY hZ) (scale def) true false))
    (Some (defProductId def)) (Some (-1)) (Some hX) (Some hY) (Some hZ).

(** The loop state of the flush: the system, the [usedSlots] set and the
    number of [Math.random] calls made so far in this tick. *)
Record Flush := mkFlush {
  fsys : ScannerSystem;
  usedSlots : gset string;
  calls : nat
}.

(** The catalog entry picked by the [k]-th call of [Math.random] in a
    tick: [productCatalog[Math.floor(Math.random() * length)]].  A draw
    outside [[0, 1)], which [Math.random] never returns, indexes past the
    catalog. *)
Definition drawn (h : Host) (k : nat) : option ProductDef :=
  let len := inject_Z (Z.of_nat (length productCatalog)) in
  let idx := Qfloor (random h k * len) in
  if (idx <? 0)%Z then None else productCatalog !! Z.to_nat idx.

(** [spawnRandomProductAt].  Nothing is spawned when the asset of the
    drawn entry is not loaded (or, in the model, when the draw is out of
    range). *)
Definition spawnRandomProductAt (h : Host) (hX hY hZ : Q) (st : Flush)
  : Flush :=
  if Nat.eqb (length productCatalog) 0 then st else
  let st' := mkFlush (fsys st) (usedSlots st) (S (calls st)) in
  match drawn h (calls st) with
  | None => st'
  | Some def =>
      if getGLTF h (assetKey def) then
        mkFlush
          (with_scannables (fsys st)
             (scannables (fsys st) ++ [spawned def hX hY hZ]))
          (usedSlots st) (S (calls st))
      else st'
  end.

(** The loop over the queued respawns. *)
Fixpoint flushRespawns (h : Host) (rs : list Respawn) (st : Flush) : Flush :=
  match rs with
  | [] => st
  | r :: rest =>
      let key := slotKey r in
      if decide (key ∈ usedSlots st) then flushRespawns h rest st
      else
        flushRespawns h rest
          (spawnRandomProductAt h (rHomeX r) (rHomeY r) (rHomeZ r)
             (mkFlush (fsys st) ({[key]} ∪ usedSlots st) (calls st)))
  end.

(** ** The tick *)

(** [update]: the state it leaves and its effects.  When the sweep
    throws, the exception leaves [update] before the flush: the queue is
    lost and the log ends with the [TypeError]. *)
Definition update (h : Host) (delta time : Q) (s : ScannerSystem)
  : ScannerSystem * list Effect :=
  let '(s1, timerLog) := advanceTimer delta s in
  let sw := sweep time s1 in
  let s2 := if threw (log sw) then sys sw else
            match respawns sw with
            | [] => sys sw
            | _ :: _ => fsys (flushRespawns h (respawns sw)
                                (mkFlush (sys sw) ∅ 0%nat))
            end in
  (s2, timerLog ++ log sw).

(** The state [init] leaves behind, for a given configuration and scene. *)
Definition init (cfg : Config) (zones : list ScannerZone)
    (objs : list Scannable) : ScannerSystem :=
  mkSystem freshRound cfg zones objs.


(** ** Phases, tests and reachability *)

(** The three phases of a round, read off the boolean fields. *)
Definition isIdle (r : Round) : Prop := gameStarted r = false.
Definition isRunning (r : Round) : Prop := timerRunning r = true.
Definition isEnded (r : Round) : Prop := roundEnded r = true.

(** The tests a candidate passes before the round gate, apart from the
    [scannedThisFrame] test. *)
Definition qualifies (cooldown time : Q) (scannerPos : Vector3)
    (radiusSq : Q) (e : Scannable) : bool :=
  match object3D e with
  | Some o =>
      negb (scannedOut o) && inRadius radiusSq scannerPos (position o)
      && negb (onCooldown cooldown time e)
  | None => false
  end.

(** Entity [e] passes the tests of zone [z]. *)
Definition eligible (cfg : Config) (time : Q) (z : ScannerZone)
    (e : Scannable) : bool :=
  match zoneObject3D z with
  | Some scannerPos =>
      qualifies (scanCooldown cfg) time scannerPos (zoneRadiusSq cfg z) e
  | None => false
  end.

(** The scan events of a log, as (zone, entity, product id). *)
Definition scanEvents (l : list Effect) : list (nat * nat * string) :=
  omap (fun ev => match ev with
                  | ScanEvent z i p => Some (z, i, p)
                  | _ => None
                  end) l.

Definition isDiscarded (ev : Effect) : bool :=
  match ev with Discarded _ _ => true | _ => false end.

Definition isRoundEnd (ev : Effect) : bool :=
  match ev with WinSound | LoseSound | RoundMessage _ _ => true | _ => false end.

Definition evZone (ev : nat * nat * string) : nat := fst (fst ev).
Definition evEntity (ev : nat * nat * string) : nat := snd (fst ev).
Definition evPid (ev : nat * nat * string) : string := snd ev.

(** What a product id adds to the cart: the price of its entry, [NaN]
    for an inherited value, nothing for an unknown id. *)
Definition priceOf (pid : string) : Num :=
  match productInfo pid with
  | Some info => infoPrice info
  | None => Fin 0
  end.

(** The scan of a product with this id is aborted by the [TypeError] of
    the label code. *)
Definition aborts (pid : string) : bool :=
  match getProductLabel pid with
  | None => true
  | Some _ => false
  end.

(** States reachable from [init] by ticks whose [delta] satisfies [ok]
    and by host steps between ticks; the host may change the scene (move,
    add or remove entities, rewrite their fields) but not the private
    round fields. *)
Inductive reachableBy (ok : Q -> Prop) : ScannerSystem -> Prop :=
| reach_init cfg zones objs : reachableBy ok (init cfg zones objs)
| reach_host s s' :
    reachableBy ok s -> round s' = round s -> reachableBy ok s'
| reach_tick s h delta time :
    reachableBy ok s -> ok delta ->
    reachableBy ok (fst (update h delta time s)).

Definition reachable : ScannerSystem -> Prop :=
  reachableBy (fun delta => 0 <= delta).

(** Consistency of the round booleans. *)
Record flags_inv (r : Round) : Prop := mkFlagsInv {
  fi_shown : roundShown r = roundEnded r;
  fi_gate : timerRunning r = false -> timeRemaining r <= 0 ->
            roundEnded r = true;
  fi_excl : timerRunning r = true -> roundEnded r = false;
  fi_ended : roundEnded r = true -> gameStarted r = true;
  fi_running : timerRunning r = true -> gameStarted r = true;
  fi_zero : roundEnded r = true -> timeRemaining r = 0
}.

(** Bounds and phase facts, for ticks with non-negative [delta]. *)
Record round_inv (r : Round) : Prop := mkRoundInv {
  ri_flags : flags_inv r;
  ri_lo : 0 <= timeRemaining r;
  ri_hi : timeRemaining r <= gameDurationSeconds;
  ri_idle : gameStarted r = false ->
            timerRunning r = false /\ scannedCount r = 0%Z /\
            totalCartValue r = Fin 0 /\
            timeRemaining r = gameDurationSeconds;
  ri_running : timerRunning r = true -> 0 < timeRemaining r;
  ri_phase : gameStarted r = true ->
             timerRunning r = true \/ roundEnded r = true
}.

(** ** Notions used in the statements *)

(** A candidate that stops the inner search: not yet scanned in this
    frame and passing the mesh, retirement, radius and cooldown tests. *)
Definition stops (st : Sweep) (time : Q) (scannerPos : Vector3) (radiusSq : Q)
    (c : nat * Scannable) : Prop :=
  (fst c ∉ scannedThisFrame st) /\
  qualifies (scanCooldown (config (sys st))) time scannerPos radiusSq (snd c)
  = true.

(** One honoured scan, seen from the round: gate, start, record. *)
Definition scoreScan (pid : string) (s : ScannerSystem) : ScannerSystem :=
  recordSale pid (startRound (default s (roundGate s))).

Definition mkEv (ev : nat * nat * string) : Effect :=
  ScanEvent (evZone ev) (evEntity ev) (evPid ev).

(** What a scan leaves in the log: its log line, followed by the
    exception when the label code throws. *)
Definition logOf (ev : nat * nat * string) : list Effect :=
  mkEv ev ::
  (if aborts (evPid ev) then [TypeError (evZone ev) (evEntity ev)] else []).

(** The scans of a list that run to their end. *)
Definition completed (evs : list (nat * nat * string))
  : list (nat * nat * string) :=
  List.filter (fun ev => negb (aborts (evPid ev))) evs.

(** The respawn queued for a scan event, given the scene the sweep
    started from. *)
Definition queuedFor (s0 : ScannerSystem) (r : Respawn)
    (ev : nat * nat * string) : Prop :=
  rEntity r = evEntity ev /\
  exists z zp e,
    scanners s0 !! evZone ev = Some z /\ zoneObject3D z = Some zp /\
    scannables s0 !! evEntity ev = Some e /\
    rHomeX r = default (vx zp) (homeX e) /\
    rHomeY r = default (vy zp) (homeY e) /\
    rHomeZ r = default (vz zp) (homeZ e).

(** What holds of the sweep state once the zones before [k] are done;
    [s0] is the system the sweep started from. *)
Record sweep_inv (time : Q) (s0 : ScannerSystem) (k : nat) (st : Sweep)
  : Prop := mkSweepInv {
  si_flags : flags_inv (round (sys st));
  si_config : config (sys st) = config s0;
  si_len : length (scannables (sys st)) = length (scannables s0);
  si_free : forall i, i ∉ scannedThisFrame st ->
            scannables (sys st) !! i = scannables s0 !! i;
  si_out : forall i, i ∈ scannedThisFrame st ->
           exists e, scannables (sys st) !! i = Some e /\
                     lastScanTime e = Some time;
  si_log : log st = scanEvents (log st) ≫= logOf;
  si_taken : forall i, i ∈ scannedThisFrame st <->
                       i ∈ evEntity <$> scanEvents (log st);
  si_zone_lt : forall ev, ev ∈ scanEvents (log st) -> (evZone ev < k)%nat;
  si_nodup_z : NoDup (evZone <$> scanEvents (log st));
  si_nodup_e : NoDup (evEntity <$> scanEvents (log st));
  si_sound : forall ev, ev ∈ scanEvents (log st) ->
             exists z e, scanners s0 !! evZone ev = Some z /\
                         scannables s0 !! evEntity ev = Some e /\
                         eligible (config s0) time z e = true /\
                         evPid ev = default "" (productId e);
  si_first : forall ev z j e,
             ev ∈ scanEvents (log st) ->
             scanners s0 !! evZone ev = Some z ->
             (j < evEntity ev)%nat -> scannables s0 !! j = Some e ->
             eligible (config s0) time z e = true ->
             exists ev', ev' ∈ scanEvents (log st) /\
                         (evZone ev' < evZone ev)%nat /\ evEntity ev' = j;
  si_complete : forall zi z j e,
             (zi < k)%nat -> scanners s0 !! zi = Some z ->
             scannables s0 !! j = Some e ->
             eligible (config s0) time z e = true ->
             exists ev, ev ∈ scanEvents (log st) /\
                        ((evZone ev = zi /\ (evEntity ev <= j)%nat) \/
                         ((evZone ev < zi)%nat /\ evEntity ev = j) \/
                         ((evZone ev < zi)%nat /\ aborts (evPid ev) = true));
  si_respawns : Forall2 (queuedFor s0) (respawns st)
                  (completed (scanEvents (log st)));
  si_round : round (sys st) =
             round (fold_left (fun s pid => scoreScan pid s)
                      (evPid <$> scanEvents (log st)) s0)
}.

(** The queued respawns that are honoured: an entry is dropped when the
    key of its slot has been seen, either in [seen] or on an earlier
    entry. *)
Fixpoint firstWins (seen : list string) (rs : list Respawn) : list Respawn :=
  match rs with
  | [] => []
  | r :: rest =>
      if decide (slotKey r ∈ seen) then firstWins seen rest
      else r :: firstWins (slotKey r :: seen) rest
  end.

(** What the [k]-th honoured respawn adds to the store. *)
Definition spawnFor (h : Host) (k : nat) (r : Respawn) : option Scannable :=
  match drawn h k with
  | Some def =>
      if getGLTF h (assetKey def)
      then Some (spawned def (rHomeX r) (rHomeY r) (rHomeZ r))
      else None
  | None => None
  end.

Fixpoint spawns (h : Host) (k : nat) (rs : list Respawn) : list Scannable :=
  match rs with
  | [] => []
  | r :: rest => option_list (spawnFor h k r) ++ spawns h (S k) rest
  end.

(** ** A small scene

    One zone of radius 0.25 at the origin and three entities: a gold bar
    and a pear inside the zone, a shoe far away. *)

Definition demoConfig : Config := mkConfig (25 # 100) (75 # 100).

Definition demoZone : ScannerZone :=
  mkScannerZone (Some (mkVector3 0 0 0)) (Some (25 # 100)).

(** A fresh entity of product [pid] at [(x, 0, 0)] whose home slot is
    [(hx, 0, 0)]. *)
Definition demoItem (pid : string) (x hx : Q) : Scannable :=
  mkScannable (Some (mkObject3D (mkVector3 x 0 0) 1 true false))
    (Some pid) (Some (-1)) (Some hx) (Some 0) (Some 0).

Definition demoItems : list Scannable :=
  [ demoItem "goldBar" (1 # 10) 5;
    demoItem "pear" (2 # 10) 6;
    demoItem "shoe" 3 7 ].

Definition demoScene : ScannerSystem := init demoConfig [demoZone] demoItems.

(** Every draw is 0.5 (the sixth catalog entry); every asset is loaded. *)
Definition demoHost : Host := mkHost (fun _ => 1 # 2) (fun _ => true).

(** The same draws with no asset loaded. *)
Definition bareHost : Host := mkHost (fun _ => 1 # 2) (fun _ => false).

(** A scene whose only entity sits in the zone and was scanned at
    [t = 0.5] without being retired. *)
Definition cooledItem : Scannable :=
  mkScannable (Some (mkObject3D (mkVector3 (1 # 10) 0 0) 1 true false))
    (Some "pear") (Some (1 # 2)) (Some 6) (Some 0) (Some 0).

Definition cooledScene : ScannerSystem :=
  init demoConfig [demoZone] [cooledItem].

(** The sum of the prices of a list of product ids. *)
Definition cartSum (pids : list string) : Num :=
  fold_right (fun pid acc => numAdd (priceOf pid) acc) (Fin 0) pids.

(** The product ids honoured so far in the round a tick leaves behind:
    the scans of the tick open a new round when the round was over after
    the tick's timer part, and extend the current round otherwise. *)
Definition scansAfter (ended : bool) (pids new : list string) : list string :=
  match new with
  | [] => pids
  | _ :: _ => if ended then new else pids ++ new
  end.

(** [roundScans s pids]: [s] is reachable and [pids] are the product ids
    of the scans honoured in its current round, oldest first. *)
Inductive roundScans : ScannerSystem -> list string -> Prop :=
| rs_init cfg zones objs : roundScans (init cfg zones objs) []
| rs_host s s' pids :
    roundScans s pids -> round s' = round s -> roundScans s' pids
| rs_tick s pids h delta time :
    roundScans s pids -> 0 <= delta ->
    roundScans (fst (update h delta time s))
      (scansAfter (roundEnded (round (fst (advanceTimer delta s)))) pids
         (evPid <$> scanEvents (snd (update h delta time s)))).

(** The demo scene after a first tick: the gold bar is scanned and the
    round is running. *)
Definition runningScene : ScannerSystem :=
  fst (update demoHost (1 # 60) 1 demoScene).

(** The running scene emptied by the host and ticked past the end of the
    round: the round is over. *)
Definition endedScene : ScannerSystem :=
  fst (update demoHost 31 2 (with_scannables runningScene [])).

(** A scene whose first entity carries a product id that every object
    inherits from [Object.prototype]; both entities are inside the
    zone. *)
Definition protoScene : ScannerSystem :=
  init demoConfig [demoZone]
    [ demoItem "constructor" (1 # 10) 5; demoItem "pear" (2 # 10) 6 ].

(** The ended scene restocked by the host with a pear inside the zone. *)
Definition reopenedScene : ScannerSystem :=
  with_scannables endedScene [demoItem "pear" (1 # 10) 6].

(** The running scene emptied by the host and ticked for five seconds,
    then restocked by the host: 25 seconds are left. *)
Definition restockedScene : ScannerSystem :=
  with_scannables
    (fst (update demoHost 5 6 (with_scannables runningScene [])))
    demoItems.

(** Two zones ten metres apart, each with one entity in reach; the two
    home slots differ by less than a thousandth. *)
Definition twinScene : ScannerSystem :=
  init demoConfig
    [ demoZone; mkScannerZone (Some (mkVector3 10 0 0)) None ]
    [ demoItem "pear" (1 # 10) 0;
      demoItem "glasses" (101 # 10) (4 # 10000) ].

(** Two zones at the same place and one entity within both. *)
Definition sharedScene : ScannerSystem :=
  init demoConfig [demoZone; demoZone] [demoItem "pear" (1 # 10) 0].

(** ** The heads-up display

    The widgets [update] keeps in step with the round: the countdown
    text and bar, the score text, the scan toast, the round-complete panel
    and message, and the onboarding hint.  Placement in space ([position],
    [lookAt]) and the pulse animation of the pad are left out. *)

Definition Qmaxb (x y : Q) : Q := if Qle_bool x y then y else x.
Definition Qminb (x y : Q) : Q := if Qle_bool x y then x else y.

(** The whole seconds [updateTimerTextTexture] shows, as minutes and
    seconds. *)
Definition timerClock (seconds : Q) : Z * Z :=
  let total := Z.max 0 (Qfloor seconds) in
  ((total / 60)%Z, (total mod 60)%Z).

(** The label [updateTimerTextTexture] draws. *)
Definition timerLabel (seconds : Q) : string :=
  let '(mins, secs) := timerClock seconds in
  String.append (showInt mins) (String.append ":" (padStart2 (showInt secs))).

(** [Number.prototype.toFixed(2)] on a number that may be [NaN]. *)
Definition toFixed2Num (x : Num) : string :=
  match x with
  | Fin q => toFixed2 q
  | NaN => "NaN"
  end.

(** [Math.max(0, this.goalCartValue - total)]. *)
Definition remainingToGoal (total : Num) : Num :=
  match total with
  | Fin q => Fin (Qmaxb 0 (goalCartValue - q))
  | NaN => NaN
  end.

(** The two lines [updateScoreTextTexture] draws. *)
Definition scoreLines (count : Z) (total : Num) : list string :=
  let remaining := remainingToGoal total in
  let hitGoal := numGeb total goalCartValue in
  let mainLine :=
    String.append "Scanned: "
      (String.append (showInt count)
         (String.append " | Total: $" (toFixed2Num total))) in
  let statusLine :=
    if hitGoal then "GOAL REACHED!"
    else String.append "Need: $"
           (String.append (toFixed2Num remaining) " more") in
  [ mainLine;
    String.append "Goal: $"
      (String.append (toFixed2 goalCartValue)
         (String.append " — " statusLine)) ].

(** The four lines [updateRoundMessageTexture] draws. *)
Definition roundMessageLines (score : Z) (total : Num) : list string :=
  let hitGoal := numGeb total goalCartValue in
  [ "Time's up!";
    String.append "You scanned "
      (String.append (showInt score)
         (String.append " item"
            (String.append (if (score =? 1)%Z then "" else "s") ".")));
    String.append "Cart total: $"
      (String.append (toFixed2Num total)
         (String.append " (Goal: $"
            (String.append (toFixed2 goalCartValue) ")")));
    if hitGoal then "You win! Start scanning to play again."
    else String.append "You missed the goal. Try again to hit $"
           (String.append (toFixed2 goalCartValue) ".") ].

(** What [updateTimerBarVisual] gives the bar: its horizontal scale, its
    colour and its opacity. *)
Record TimerBar := mkTimerBar {
  barScaleX : Q;
  barColor : Z;
  barOpacity : Q
}.

Definition timerBarVisual (timeLeft : Q) : TimerBar :=
  let ratio :=
    if Qgtb gameDurationSeconds 0 then timeLeft / gameDurationSeconds
    else 0 in
  let clamped := Qmaxb 0 (Qminb 1 ratio) in
  let minScale := 1 # 10 in
  let maxScale := 1 in
  mkTimerBar (minScale + (maxScale - minScale) * clamped)
    (if Qgtb clamped (66 # 100) then 0x00ff66%Z
     else if Qgtb clamped (33 # 100) then 0xffcc33%Z
     else 0xff5555%Z)
    (if Qgtb clamped 0 then 9 # 10 else 0).

(** The countdown text: whether its canvas exists, the whole second it
    was last redrawn for, and the label on it. *)
Record TimerText := mkTimerText {
  hasTimerText : bool;
  lastTimerSeconds : Z;
  timerText : string
}.

(** The score text: whether its canvas exists, the values it was last
    redrawn for, and the lines on it. *)
Record ScoreText := mkScoreText {
  hasScoreText : bool;
  lastScoreValue : Z;
  lastTotalValue : Num;
  scoreText : list string
}.

Record Toast := mkToast {
  hasToast : bool;
  toastTimer : Q;
  toastVisible : bool;
  toastText : string
}.

(** The round-complete panel and the round-complete message. *)
Record RoundOver := mkRoundOver {
  hasRoundPanel : bool;
  roundPanelVisible : bool;
  hasRoundMessage : bool;
  roundMessageVisible : bool;
  roundMessageText : list string
}.

(** The onboarding hint: whether its panel exists, the
    [onboardingVisible] and [onboardingAnchored] fields, and whether the
    panel is shown. *)
Record Onboarding := mkOnboarding {
  hasOnboarding : bool;
  onboardingVisible : bool;
  onboardingAnchored : bool;
  onboardingShown : bool
}.

Record Hud := mkHud {
  timerTextHud : TimerText;
  scoreTextHud : ScoreText;
  toastHud : Toast;
  roundOverHud : RoundOver;
  onboardingHud : Onboarding;
  timerBarHud : TimerBar
}.

(** The system with its display. *)
Record HudSystem := mkHudSystem { core : ScannerSystem; hud : Hud }.

(** The bar [setupTimerBarEntity] builds: a mesh at scale 1 with a green
    material of opacity 0.9. *)
Definition initialTimerBar : TimerBar := mkTimerBar 1 0x00ff66%Z (9 # 10).

(** The display [init] leaves behind.  Each canvas widget exists when
    [document] and its 2D context were available at set-up; the timer bar
    needs no canvas and always exists. *)
Definition initHud (timer score toast panel message onboarding : bool) : Hud :=
  mkHud
    (if timer
     then mkTimerText true (Qceiling gameDurationSeconds)
            (timerLabel gameDurationSeconds)
     else mkTimerText false (-1) "")
    (mkScoreText score 0 (Fin 0)
       (if score then scoreLines 0 (Fin 0) else []))
    (mkToast toast 0 false "")
    (mkRoundOver panel false message false [])
    (mkOnboarding onboarding true false onboarding)
    initialTimerBar.

(** The display part of [resetRound]. *)
Definition resetRoundHud (h : Hud) : Hud :=
  mkHud
    (if hasTimerText (timerTextHud h)
     then mkTimerText true (Qceiling gameDurationSeconds)
            (timerLabel gameDurationSeconds)
     else timerTextHud h)
    (mkScoreText (hasScoreText (scoreTextHud h)) 0 (Fin 0)
       (if hasScoreText (scoreTextHud h) then scoreLines 0 (Fin 0)
        else scoreText (scoreTextHud h)))
    (toastHud h)
    (let o := roundOverHud h in
     mkRoundOver (hasRoundPanel o)
       (if hasRoundPanel o then false else roundPanelVisible o)
       (hasRoundMessage o)
       (if hasRoundMessage o then false else roundMessageVisible o)
       (roundMessageText o))
    (onboardingHud h) (timerBarHud h).

Definition resetRoundH (x : HudSystem) : HudSystem :=
  mkHudSystem (resetRound (core x)) (resetRoundHud (hud x)).

(** The display part of [showRoundComplete], past its guard. *)
Definition showRoundCompleteHud (r : Round) (h : Hud) : Hud :=
  let o := roundOverHud h in
  mkHud (timerTextHud h) (scoreTextHud h) (toastHud h)
    (mkRoundOver (hasRoundPanel o)
       (if hasRoundPanel o then true else roundPanelVisible o)
       (hasRoundMessage o)
       (if hasRoundMessage o then true else roundMessageVisible o)
       (if hasRoundMessage o
        then roundMessageLines (scannedCount r) (totalCartValue r)
        else roundMessageText o))
    (onboardingHud h) (timerBarHud h).

Definition showRoundCompleteH (x : HudSystem) : HudSystem * list Effect :=
  if roundShown (round (core x)) then (x, [])
  else
    let '(s', effects) := showRoundComplete (core x) in
    (mkHudSystem s' (showRoundCompleteHud (round (core x)) (hud x)), effects).

Definition zeroCrossingH (x : HudSystem) : HudSystem * list Effect :=
  let r := round (core x) in
  if Qle_bool (timeRemaining r) 0 then
    let r' := mkRound 0 false (gameStarted r) (roundEnded r) (roundShown r)
                (timerWarningPlayed r) (scannedCount r) (totalCartValue r) in
    showRoundCompleteH (mkHudSystem (with_round (core x) r') (hud x))
  else (x, []).

Definition advanceTimerH (delta : Q) (x : HudSystem)
  : HudSystem * list Effect :=
  let r := round (core x) in
  if timerRunning r then
    let prevTime := timeRemaining r in
    let t := prevTime - delta in
    let warn := negb (timerWarningPlayed r) && Qgtb prevTime 10
                && Qle_bool t 10 && Qgtb t 0 in
    let r1 := mkRound t true (gameStarted r) (roundEnded r) (roundShown r)
                (if warn then true else timerWarningPlayed r)
                (scannedCount r) (totalCartValue r) in
    let '(x', ended) :=
      zeroCrossingH (mkHudSystem (with_round (core x) r1) (hud x)) in
    (x', (if warn then [TimerWarningSound] else []) ++ ended)
  else (x, []).

(** The refresh of the countdown text in [update]. *)
Definition refreshTimerText (timeLeft : Q) (w : TimerText) : TimerText :=
  let currentSeconds := Qceiling timeLeft in
  if hasTimerText w && negb (currentSeconds =? lastTimerSeconds w)%Z
     && (0 <=? currentSeconds)%Z
  then mkTimerText true currentSeconds (timerLabel timeLeft)
  else w.

(** [updateOnboardingVisual]; [camera] tells whether the world has a
    camera with a position. *)
Definition updateOnboardingVisual (camera : bool) (w : Onboarding)
  : Onboarding :=
  if negb (hasOnboarding w) then w
  else if negb (onboardingVisible w)
  then mkOnboarding true (onboardingVisible w) (onboardingAnchored w) false
  else if onboardingAnchored w
  then mkOnboarding true (onboardingVisible w) (onboardingAnchored w) true
  else if negb camera then w
  else mkOnboarding true (onboardingVisible w) true true.

(** [updateToastVisual]. *)
Definition updateToastVisual (delta : Q) (w : Toast) : Toast :=
  if negb (hasToast w) then w
  else if Qgtb (toastTimer w) 0 then
    let t := toastTimer w - delta in
    if Qle_bool t 0 then mkToast true 0 false (toastText w)
    else mkToast true t (toastVisible w) (toastText w)
  else w.

(** [showScanToast]. *)
Definition showScanToast (label : string) (w : Toast) : Toast :=
  if negb (hasToast w) then w else mkToast true (9 # 10) true label.

(** The display part of [if (!this.gameStarted) { ... }]. *)
Definition hideOnboarding (w : Onboarding) : Onboarding :=
  mkOnboarding (hasOnboarding w) false (onboardingAnchored w)
    (if hasOnboarding w then false else onboardingShown w).

(** The refresh of the score text after a sale. *)
Definition refreshScoreText (count : Z) (total : Num) (w : ScoreText)
  : ScoreText :=
  if hasScoreText w
     && (negb (count =? lastScoreValue w)%Z
         || numNeq total (lastTotalValue w))
  then mkScoreText true count total (scoreLines count total)
  else w.

(** The sweep state with the display. *)
Record SweepH := mkSweepH { sweepCore : Sweep; sweepHud : Hud }.

Inductive FlowH := ContinueH (st : SweepH) | BreakH (st : SweepH).

(** The round gate with the display: a reset redraws it. *)
Definition roundGateH (x : HudSystem) : option HudSystem :=
  let r := round (core x) in
  if negb (timerRunning r) && Qle_bool (timeRemaining r) 0 then
    if roundEnded r then Some (resetRoundH x) else None
  else Some x.

(** The honoured scan with the display: the hint goes away on the scan
    that starts a round, the score text follows the sale, the toast shows
    the product label, unless the label code throws. *)
Definition honorScanH (time : Q) (zi : nat) (scannerPos : Vector3) (i : nat)
    (scannable : Scannable) (scannableObj : Object3D) (x1 : HudSystem)
    (st : SweepH) : SweepH :=
  let h1 := hud x1 in
  let onboarding2 :=
    if gameStarted (round (core x1)) then onboardingHud h1
    else hideOnboarding (onboardingHud h1) in
  let sw := honorScan time zi scannerPos i scannable scannableObj (core x1)
              (sweepCore st) in
  let r := round (sys sw) in
  let pid := default "" (productId scannable) in
  mkSweepH sw
    (mkHud (timerTextHud h1)
       (refreshScoreText (scannedCount r) (totalCartValue r) (scoreTextHud h1))
       (match getProductLabel pid with
        | None => toastHud h1
        | Some label => showScanToast label (toastHud h1)
        end)
       (roundOverHud h1) onboarding2 (timerBarHud h1)).

Definition tryScanH (time : Q) (zi : nat) (scannerPos : Vector3)
    (radiusSq : Q) (i : nat) (scannable : Scannable) (st : SweepH) : FlowH :=
  let sw := sweepCore st in
  if decide (i ∈ scannedThisFrame sw) then ContinueH st else
  match object3D scannable with
  | None => ContinueH st
  | Some scannableObj =>
    if scannedOut scannableObj then ContinueH st else
    if negb (inRadius radiusSq scannerPos (position scannableObj))
    then ContinueH st else
    if onCooldown (scanCooldown (config (sys sw))) time scannable
    then ContinueH st else
    match roundGateH (mkHudSystem (sys sw) (sweepHud st)) with
    | None =>
        ContinueH
          (mkSweepH
             (mkSweep (sys sw) (scannedThisFrame sw) (respawns sw)
                (log sw ++ [Discarded zi i]))
             (sweepHud st))
    | Some x1 =>
        BreakH (honorScanH time zi scannerPos i scannable scannableObj x1 st)
    end
  end.

Fixpoint scanZoneH (time : Q) (zi : nat) (scannerPos : Vector3)
    (radiusSq : Q) (cands : list (nat * Scannable)) (st : SweepH) : SweepH :=
  match cands with
  | [] => st
  | (i, e) :: rest =>
      match tryScanH time zi scannerPos radiusSq i e st with
      | ContinueH st' => scanZoneH time zi scannerPos radiusSq rest st'
      | BreakH st' => st'
      end
  end.

(** The body of the outer loop: for a zone with a mesh, the timer bar is
    drawn for the time left on entry and the toast ages, before the
    zone's search. *)
Definition sweepZoneH (delta time : Q) (zi : nat) (scanner : ScannerZone)
    (st : SweepH) : SweepH :=
  match zoneObject3D scanner with
  | None => st
  | Some scannerPos =>
      let h := sweepHud st in
      let st1 :=
        mkSweepH (sweepCore st)
          (mkHud (timerTextHud h) (scoreTextHud h)
             (updateToastVisual delta (toastHud h))
             (roundOverHud h) (onboardingHud h)
             (timerBarVisual (timeRemaining (round (sys (sweepCore st)))))) in
      scanZoneH time zi scannerPos
        (zoneRadiusSq (config (sys (sweepCore st))) scanner)
        (imap pair (scannables (sys (sweepCore st)))) st1
  end.

Fixpoint sweepZonesH (delta time : Q) (zones : list (nat * ScannerZone))
    (st : SweepH) : SweepH :=
  match zones with
  | [] => st
  | (zi, z) :: rest =>
      let st' := sweepZoneH delta time zi z st in
      if threw (log (sweepCore st')) then st'
      else sweepZonesH delta time rest st'
  end.

(** [update] with the display. *)
Definition updateH (h : Host) (camera : bool) (delta time : Q)
    (x : HudSystem) : HudSystem * list Effect :=
  let '(x1, timerLog) := advanceTimerH delta x in
  let h1 := hud x1 in
  let h2 :=
    mkHud (refreshTimerText (timeRemaining (round (core x1))) (timerTextHud h1))
      (scoreTextHud h1) (toastHud h1) (roundOverHud h1)
      (updateOnboardingVisual camera (onboardingHud h1)) (timerBarHud h1) in
  let st := sweepZonesH delta time (imap pair (scanners (core x1)))
              (mkSweepH (mkSweep (core x1) ∅ [] []) h2) in
  let sw := sweepCore st in
  let s2 := if threw (log sw) then sys sw else
            match respawns sw with
            | [] => sys sw
            | _ :: _ => fsys (flushRespawns h (respawns sw)
                                (mkFlush (sys sw) ∅ 0%nat))
            end in
  (mkHudSystem s2 (sweepHud st), timerLog ++ log sw).

Definition initH (cfg : Config) (zones : list ScannerZone)
    (objs : list Scannable)
    (timer score toast panel message onboarding : bool) : HudSystem :=
  mkHudSystem (init cfg zones objs)
    (initHud timer score toast panel message onboarding).

(** States of the system with its display reachable by ticks with
    [0 <= delta] and host steps; the host cannot touch the display
    fields. *)
Inductive reachableH : HudSystem -> Prop :=
| rh_init cfg zones objs timer score toast panel message onboarding :
    reachableH (initH cfg zones objs timer score toast panel message
                  onboarding)
| rh_host x s' :
    reachableH x -> round s' = round (core x) ->
    reachableH (mkHudSystem s' (hud x))
| rh_tick x h camera delta time :
    reachableH x -> 0 <= delta ->
    reachableH (fst (updateH h camera delta time x)).

(** The core of a step of the inner loop with the display. *)
Definition flowCore (f : FlowH) : Flow :=
  match f with
  | ContinueH st => Continue (sweepCore st)
  | BreakH st => Break (sweepCore st)
  end.

(** The label on the countdown text is that of a time whose ceiling is
    the recorded whole second. *)
Definition text_ok (w : TimerText) : Prop :=
  hasTimerText w = true ->
  exists tr, timerText w = timerLabel tr /\ Qceiling tr = lastTimerSeconds w.

(** The label of the countdown text was drawn for a time [tr] with the
    recorded whole second as its ceiling, not before the time [t]. *)
Definition drawn_since (t : Q) (w : TimerText) : Prop :=
  hasTimerText w = true ->
  exists tr, timerText w = timerLabel tr /\
             Qceiling tr = lastTimerSeconds w /\ t <= tr.

(** The recorded whole second is the ceiling of the time left, and the
    label was drawn for a time with that ceiling, not before the time
    left. *)
Definition timer_sync (r : Round) (w : TimerText) : Prop :=
  (hasTimerText w = true ->
   lastTimerSeconds w = Qceiling (timeRemaining r)) /\
  drawn_since (timeRemaining r) w.

(** The score text shows the score and the cart of the round. *)
Definition score_ok (r : Round) (w : ScoreText) : Prop :=
  hasScoreText w = true ->
  lastScoreValue w = scannedCount r /\
  lastTotalValue w = totalCartValue r /\
  scoreText w = scoreLines (scannedCount r) (totalCartValue r).

(** The toast is shown exactly while its timer runs, for at most 0.9
    seconds. *)
Definition toast_ok (w : Toast) : Prop :=
  (toastVisible w = true <-> hasToast w = true /\ 0 < toastTimer w) /\
  0 <= toastTimer w /\ toastTimer w <= 9 # 10.

(** The round-complete panel and message are shown exactly while the
    round is over, the message with the tallies of the round. *)
Definition over_ok (r : Round) (w : RoundOver) : Prop :=
  (hasRoundPanel w = true -> roundPanelVisible w = roundShown r) /\
  (hasRoundMessage w = true ->
   roundMessageVisible w = roundShown r /\
   (roundShown r = true ->
    roundMessageText w
    = roundMessageLines (scannedCount r) (totalCartValue r))).

(** The onboarding hint is off once a round has started, and then its
    panel is hidden. *)
Definition onboarding_ok (r : Round) (w : Onboarding) : Prop :=
  (gameStarted r = true -> onboardingVisible w = false) /\
  (hasOnboarding w = true -> onboardingVisible w = false ->
   onboardingShown w = false).

Record hud_ok (r : Round) (h : Hud) : Prop := mkHudOk {
  ho_text : text_ok (timerTextHud h);
  ho_score : score_ok r (scoreTextHud h);
  ho_toast : toast_ok (toastHud h);
  ho_over : over_ok r (roundOverHud h);
  ho_onboarding : onboarding_ok r (onboardingHud h)
}.

(** The zones of a list that have a mesh. *)
Definition meshed (zones : list ScannerZone) : nat :=
  length (List.filter (fun z => bool_decide (is_Some (zoneObject3D z))) zones).

(** What holds of the display throughout a sweep. *)
Definition sweepH_ok (st : SweepH) : Prop :=
  let r := round (sys (sweepCore st)) in
  flags_inv r /\ hud_ok r (sweepHud st) /\
  timer_sync r (timerTextHud (sweepHud st)).

(** What holds of the display between ticks. *)
Definition display_ok (x : HudSystem) : Prop :=
  hud_ok (round (core x)) (hud x) /\
  timer_sync (round (core x)) (timerTextHud (hud x)).

(** The toast after [n] calls of [updateToastVisual]. *)
Definition ageToast (delta : Q) (n : nat) (w : Toast) : Toast :=
  Nat.iter n (updateToastVisual delta) w.

(** The bar after [n] zones with a mesh have drawn it for the time left
    [t]. *)
Definition drawnBar (n : nat) (t : Q) (b : TimerBar) : TimerBar :=
  match n with O => b | S _ => timerBarVisual t end.

(** The display with its toast and its timer bar replaced. *)
Definition with_toast (h : Hud) (w : Toast) (b : TimerBar) : Hud :=
  mkHud (timerTextHud h) (scoreTextHud h) w (roundOverHud h)
    (onboardingHud h) b.

(** The number of scan events logged so far in a sweep. *)
Definition eventCount (st : SweepH) : nat :=
  length (scanEvents (log (sweepCore st))).

(** The demo scene with every widget present, and after its first tick
    with a camera. *)
Definition demoDisplay : HudSystem :=
  initH demoConfig [demoZone] demoItems true true true true true true.

Definition runningDisplay : HudSystem :=
  fst (updateH demoHost true (1 # 60) 1 demoDisplay).

(** The state a tick's sweep starts from: the timer has advanced, the
    countdown text and the hint are refreshed. *)
Definition sweepStart (camera : bool) (delta : Q) (x : HudSystem) : SweepH :=
  let x1 := fst (advanceTimerH delta x) in
  mkSweepH (mkSweep (core x1) ∅ [] [])
    (mkHud
       (refreshTimerText (timeRemaining (round (core x1)))
          (timerTextHud (hud x1)))
       (scoreTextHud (hud x1)) (toastHud (hud x1)) (roundOverHud (hud x1))
       (updateOnboardingVisual camera (onboardingHud (hud x1)))
       (timerBarHud (hud x1))).

(** The running display with the scene emptied by the host: its ticks
    scan nothing. *)
Definition quietDisplay : HudSystem :=
  mkHudSystem (with_scannables (core runningDisplay) []) (hud runningDisplay).

(** The quiet display ticked past the end of the round. *)
Definition endedDisplay : HudSystem :=
  fst (updateH demoHost true 31 2 quietDisplay).


Definition isWarning (ev : Effect) : bool :=
  match ev with TimerWarningSound => true | _ => false end.

(** The low-time test of [update], on the clock before and after the
    step. *)
Definition warnsAt (delta : Q) (r : Round) : bool :=
  timerRunning r && negb (timerWarningPlayed r) && Qgtb (timeRemaining r) 10
  && Qle_bool (timeRemaining r - delta) 10 && Qgtb (timeRemaining r - delta) 0.

(** The demo scene late in a round: 10.5 seconds left, one sale made. *)
Definition lateScene : ScannerSystem :=
  fst (update demoHost (39 # 2) 2 (with_scannables runningScene [])).


(** Every entity scanned so far in the sweep sits in the store as the
    scan left it: the entity of the scene [s0] the sweep started from,
    retired by [scanOut], or only time-stamped when the label code has
    thrown for its product id. *)
Definition retired_inv (time : Q) (s0 : ScannerSystem) (st : Sweep) : Prop :=
  forall i, i ∈ scannedThisFrame st ->
    exists e o, scannables s0 !! i = Some e /\ object3D e = Some o /\
                scannables (sys st) !! i
                = Some (if aborts (default "" (productId e))
                        then stamp time e else scanOut time o e).


(** A run of ticks, each with its [delta] and [time], as the frame loop
    of the host makes them; the effects are collected in order. *)
Fixpoint ticks (h : Host) (frames : list (Q * Q)) (s : ScannerSystem)
  : ScannerSystem * list Effect :=
  match frames with
  | [] => (s, [])
  | (delta, time) :: rest =>
      let '(s1, l1) := update h delta time s in
      let '(s2, l2) := ticks h rest s1 in
      (s2, l1 ++ l2)
  end.

(** The time that passes in a run of ticks. *)
Definition elapsed (frames : list (Q * Q)) : Q :=
  fold_right (fun f acc => fst f + acc) 0 frames.


(** The toast, where it exists, carries the label of the product of the
    last scan of the sweep so far that ran to its end. *)
Definition toast_names_last (st : SweepH) : Prop :=
  hasToast (toastHud (sweepHud st)) = true ->
  forall ev, last (completed (scanEvents (log (sweepCore st)))) = Some ev ->
  getProductLabel (evPid ev) = Some (toastText (toastHud (sweepHud st))).


(** The phases of the round: a started round has a running clock or is
    over (for ticks of any [delta]). *)
Definition phase_inv (r : Round) : Prop :=
  flags_inv r /\
  (gameStarted r = true -> timerRunning r = true \/ roundEnded r = true).


(** The scene with an entity whose product id names a property of
    [Object.prototype], with every widget present. *)
Definition protoDisplay : HudSystem :=
  initH demoConfig [demoZone]
    [ demoItem "constructor" (1 # 10) 5; demoItem "pear" (2 # 10) 6 ]
    true true true true true true.


(** The ended display restocked by the host with a pear inside the
    zone. *)
Definition reopenedDisplay : HudSystem :=
  mkHudSystem (with_scannables (core endedDisplay) [demoItem "pear" (1 # 10) 6])
    (hud endedDisplay).


(** * Proofs *)

(** Closes a field of an invariant once the record hypotheses are split:
    fires the implications whose premise is at hand, then decides by
    congruence and linear arithmetic. *)
Ltac round_tac :=
  simpl in *; intros;
  repeat match goal with
         | H : ?a = ?b -> _, H' : ?a = ?b |- _ => specialize (H H')
         end;
  unfold gameDurationSeconds in *;
  intuition (try congruence; try lra).

(** ** Comparisons *)

Lemma Qltb_lt x y : Qltb x y = true <-> x < y.
Proof.
  unfold Qltb. rewrite negb_true_iff, <- not_true_iff_false, Qle_bool_iff.
  split; [apply Qnot_le_lt | apply Qlt_not_le].
Qed.

Lemma Qltb_ge x y : Qltb x y = false <-> y <= x.
Proof.
  unfold Qltb. rewrite negb_false_iff. apply Qle_bool_iff.
Qed.

Lemma Qle_bool_gt x y : Qle_bool x y = false <-> y < x.
Proof.
  rewrite <- not_true_iff_false, Qle_bool_iff.
  split; [apply Qnot_le_lt | apply Qlt_not_le].
Qed.

(** ** Numbers that may be [NaN] *)

#[global] Instance numEq_equiv : Equivalence numEq.
Proof.
  split.
  - intros x. destruct x as [a|]; simpl; [apply Qeq_refl|exact I].
  - intros x y. destruct x as [a|], y as [b|]; simpl;
      first [apply Qeq_sym | done].
  - intros x y z. destruct x as [a|], y as [b|], z as [c|]; simpl;
      first [apply Qeq_trans | done].
Qed.

#[global] Instance numAdd_proper : Proper (numEq ==> numEq ==> numEq) numAdd.
Proof.
  intros [a|] [b|] H1 [c|] [d|] H2; simpl in *; try done.
  by rewrite H1, H2.
Qed.

Lemma numAdd_0_r x : numEq (numAdd x (Fin 0)) x.
Proof. destruct x as [a|]; simpl; [lra|done]. Qed.

Lemma numAdd_0_l x : numEq (numAdd (Fin 0) x) x.
Proof. destruct x as [a|]; simpl; [lra|done]. Qed.

Lemma numAdd_assoc x y z :
  numEq (numAdd x (numAdd y z)) (numAdd (numAdd x y) z).
Proof. destruct x, y, z; simpl; try done. lra. Qed.

Lemma numGeb_ge x y : numGeb x y = true <-> numGe x y.
Proof. destruct x as [a|]; simpl; [apply Qle_bool_iff|done]. Qed.

(** ** The catalog *)

Lemma productInfo_own pid info :
  productInfoOwn !! pid = Some info -> productInfo pid = Some (Entry info).
Proof. unfold productInfo. by intros ->. Qed.

(** The label code throws exactly on the ids inherited from
    [Object.prototype]. *)
Lemma aborts_inherited pid :
  aborts pid = true <-> productInfo pid = Some Inherited.
Proof.
  unfold aborts, getProductLabel.
  by destruct (productInfo pid) as [[info|]|].
Qed.

Lemma aborts_priceOf pid : aborts pid = true -> priceOf pid = NaN.
Proof.
  intros H%aborts_inherited. unfold priceOf. by rewrite H.
Qed.

Lemma priceOf_finite pid :
  aborts pid = false -> exists q, priceOf pid = Fin q /\ 0 <= q.
Proof.
  unfold aborts, getProductLabel, priceOf, productInfo.
  destruct (productInfoOwn !! pid) as [info|] eqn:Hown.
  - intros _. exists (price info). split; [done|].
    apply (map_Forall_lookup_1 (fun _ info => 0 <= price info)
             productInfoOwn pid info); [|done].
    apply map_Forall_to_list. unfold productInfoOwn.
    rewrite map_to_list_to_map by (vm_compute; repeat constructor;
      rewrite ?elem_of_cons, ?elem_of_nil; intuition discriminate).
    repeat constructor; by vm_compute.
  - destruct (decide _); [done|]. intros _. exists 0. split; [done|lra].
Qed.

(** ** The round helpers *)

Lemma flags_inv_fresh : flags_inv freshRound.
Proof. split; simpl; intros; done. Qed.

Lemma round_inv_fresh : round_inv freshRound.
Proof.
  split; simpl; try done; try apply flags_inv_fresh;
    unfold gameDurationSeconds; lra.
Qed.

Lemma roundGate_flags s :
  flags_inv (round s) ->
  (roundGate s = Some s /\
   (timerRunning (round s) = true \/ 0 < timeRemaining (round s))) \/
  (roundGate s = Some (resetRound s) /\ roundEnded (round s) = true /\
   timerRunning (round s) = false /\ timeRemaining (round s) <= 0).
Proof.
  intros F. unfold roundGate.
  destruct (timerRunning (round s)) eqn:Hrun; simpl.
  - left. auto.
  - destruct (Qle_bool (timeRemaining (round s)) 0) eqn:Hle.
    + apply Qle_bool_iff in Hle. rewrite (fi_gate _ F Hrun Hle).
      right. auto.
    + apply Qle_bool_gt in Hle. left. auto.
Qed.

Lemma roundGate_is_Some s :
  flags_inv (round s) -> exists s1, roundGate s = Some s1 /\
    flags_inv (round s1) /\ config s1 = config s /\
    scanners s1 = scanners s /\ scannables s1 = scannables s.
Proof.
  intros F. destruct (roundGate_flags s F) as [[-> _]|[-> _]].
  - exists s. auto.
  - exists (resetRound s). split; [done|]. split; [apply flags_inv_fresh|done].
Qed.

Lemma flags_inv_startRound s :
  flags_inv (round s) -> flags_inv (round (startRound s)).
Proof.
  intros F. unfold startRound.
  destruct (gameStarted (round s)) eqn:Hg; [done|].
  destruct F as [F1 F2 F3 F4 F5 F6]. split; simpl; try done.
  intros _. destruct (roundEnded (round s)); [|done].
  rewrite F4 in Hg; done.
Qed.

Lemma flags_inv_recordSale pid s :
  flags_inv (round s) -> flags_inv (round (recordSale pid s)).
Proof. intros [F1 F2 F3 F4 F5 F6]. split; simpl; auto. Qed.

(** The timer part of a tick, when the clock runs out. *)
Lemma advanceTimer_expired delta s :
  flags_inv (round s) -> timerRunning (round s) = true ->
  timeRemaining (round s) - delta <= 0 ->
  advanceTimer delta s =
    (with_round s
       (mkRound 0 false (gameStarted (round s)) true true
          (timerWarningPlayed (round s))
          (scannedCount (round s)) (totalCartValue (round s))),
     [ if numGeb (totalCartValue (round s)) goalCartValue
       then WinSound else LoseSound;
       RoundMessage (scannedCount (round s)) (totalCartValue (round s)) ]).
Proof.
  intros F Hrun Hle. unfold advanceTimer. rewrite Hrun.
  assert (Hgt : Qgtb (timeRemaining (round s) - delta) 0 = false).
  { unfold Qgtb. by apply Qltb_ge. }
  rewrite Hgt, andb_false_r.
  unfold zeroCrossing. simpl.
  apply Qle_bool_iff in Hle. rewrite Hle.
  unfold showRoundComplete. simpl.
  rewrite (fi_shown _ F), (fi_excl _ F Hrun). reflexivity.
Qed.

(** The timer part of a tick, when time is left. *)
Lemma advanceTimer_running delta s :
  timerRunning (round s) = true ->
  0 < timeRemaining (round s) - delta ->
  exists w,
    advanceTimer delta s =
      (with_round s
         (mkRound (timeRemaining (round s) - delta) true
            (gameStarted (round s)) (roundEnded (round s))
            (roundShown (round s)) w
            (scannedCount (round s)) (totalCartValue (round s))),
       if negb (timerWarningPlayed (round s))
          && Qgtb (timeRemaining (round s)) 10
          && Qle_bool (timeRemaining (round s) - delta) 10
          && Qgtb (timeRemaining (round s) - delta) 0
       then [TimerWarningSound] else []).
Proof.
  intros Hrun Hgt. unfold advanceTimer. rewrite Hrun.
  unfold zeroCrossing. simpl.
  apply Qle_bool_gt in Hgt. rewrite Hgt.
  eexists. rewrite app_nil_r. reflexivity.
Qed.

Lemma advanceTimer_stopped delta s :
  timerRunning (round s) = false -> advanceTimer delta s = (s, []).
Proof. intros Hrun. unfold advanceTimer. by rewrite Hrun. Qed.

Lemma advanceTimer_frame delta s :
  config (fst (advanceTimer delta s)) = config s /\
  scanners (fst (advanceTimer delta s)) = scanners s /\
  scannables (fst (advanceTimer delta s)) = scannables s.
Proof.
  unfold advanceTimer, zeroCrossing, showRoundComplete.
  destruct (timerRunning (round s)); [|done]. simpl.
  destruct (Qle_bool _ 0); simpl; [|done].
  destruct (roundShown (round s)); done.
Qed.

Lemma flags_inv_advanceTimer delta s :
  flags_inv (round s) -> flags_inv (round (fst (advanceTimer delta s))).
Proof.
  intros F. destruct (timerRunning (round s)) eqn:Hrun.
  - destruct (Qlt_le_dec 0 (timeRemaining (round s) - delta)) as [Hgt|Hle].
    + destruct (advanceTimer_running delta s Hrun Hgt) as [w ->].
      destruct F as [F1 F2 F3 F4 F5 F6]. split; round_tac.
    + rewrite (advanceTimer_expired delta s F Hrun Hle).
      destruct F as [F1 F2 F3 F4 F5 F6]. split; round_tac.
  - by rewrite advanceTimer_stopped.
Qed.

(** ** The inner loop *)

Lemma tryScan_skip time zi zp rsq i e st :
  ~ stops st time zp rsq (i, e) ->
  tryScan time zi zp rsq i e st = Continue st.
Proof.
  unfold stops, qualifies, tryScan. simpl. intros H.
  destruct (decide (i ∈ scannedThisFrame st)) as [|Hi]; [done|].
  destruct (object3D e) as [o|]; [|done].
  destruct (scannedOut o); [done|].
  destruct (inRadius rsq zp (position o)); [|done]. simpl in *.
  destruct (onCooldown _ time e); [done|]. simpl in H. tauto.
Qed.

Lemma tryScan_hit time zi zp rsq i e st :
  stops st time zp rsq (i, e) ->
  exists o, object3D e = Some o /\
    tryScan time zi zp rsq i e st =
      match roundGate (sys st) with
      | None => Continue (mkSweep (sys st) (scannedThisFrame st)
                            (respawns st) (log st ++ [Discarded zi i]))
      | Some s1 => Break (honorScan time zi zp i e o s1 st)
      end.
Proof.
  unfold stops, qualifies, tryScan. simpl. intros [Hi H].
  destruct (decide (i ∈ scannedThisFrame st)); [done|].
  destruct (object3D e) as [o|]; [|done]. exists o. split; [done|].
  destruct (scannedOut o); [done|].
  destruct (inRadius rsq zp (position o)); [|done]. simpl in *.
  destruct (onCooldown _ time e); done.
Qed.

Lemma stops_dec st time zp rsq c :
  {stops st time zp rsq c} + {~ stops st time zp rsq c}.
Proof.
  unfold stops.
  destruct (decide (fst c ∈ scannedThisFrame st)); [right; tauto|].
  destruct (qualifies _ time zp rsq (snd c)); [left|right]; intuition congruence.
Qed.

(** The inner search either leaves the sweep untouched, no candidate
    stopping it, or honours exactly its first stopping candidate. *)
Lemma scanZone_cases time zi zp rsq cands st :
  flags_inv (round (sys st)) ->
  (Forall (fun c => ~ stops st time zp rsq c) cands /\
   scanZone time zi zp rsq cands st = st) \/
  (exists l1 i e o l2 s1,
     cands = l1 ++ (i, e) :: l2 /\
     Forall (fun c => ~ stops st time zp rsq c) l1 /\
     stops st time zp rsq (i, e) /\ object3D e = Some o /\
     roundGate (sys st) = Some s1 /\
     scanZone time zi zp rsq cands st = honorScan time zi zp i e o s1 st).
Proof.
  intros F. induction cands as [|[i e] rest IH].
  - left. split; [constructor | reflexivity].
  - destruct (stops_dec st time zp rsq (i, e)) as [Hs|Hn].
    + right. destruct (tryScan_hit time zi zp rsq i e st Hs) as (o & Ho & Ht).
      destruct (roundGate_is_Some (sys st) F) as (s1 & Hg & _).
      exists [], i, e, o, rest, s1. simpl. rewrite Ht, Hg.
      repeat split; try done; try apply Hs.
    + simpl. rewrite (tryScan_skip _ _ _ _ _ _ _ Hn).
      destruct IH as [[Hall Heq]|(l1 & j & e' & o & l2 & s1 & Hc & Hall & R)].
      * left. split; [by constructor | done].
      * right. exists ((i, e) :: l1), j, e', o, l2, s1. subst rest.
        split; [done|]. split; [by constructor | exact R].
Qed.

(** The same, for the candidates of a zone, by position in the store. *)
Lemma scanZone_store time zi zp rsq st :
  flags_inv (round (sys st)) ->
  let l := scannables (sys st) in
  ((forall j e, l !! j = Some e -> ~ stops st time zp rsq (j, e)) /\
   scanZone time zi zp rsq (imap pair l) st = st) \/
  (exists i e o s1,
     l !! i = Some e /\
     (forall j e', (j < i)%nat -> l !! j = Some e' ->
                   ~ stops st time zp rsq (j, e')) /\
     stops st time zp rsq (i, e) /\ object3D e = Some o /\
     roundGate (sys st) = Some s1 /\
     scanZone time zi zp rsq (imap pair l) st
     = honorScan time zi zp i e o s1 st).
Proof.
  intros F l.
  destruct (scanZone_cases time zi zp rsq (imap pair l) st F)
    as [[Hall Heq]|(l1 & i & e & o & l2 & s1 & Hc & Hall & Hs & Ho & Hg & Heq)].
  - left. split; [|done]. intros j e Hj.
    rewrite Forall_forall in Hall. apply Hall.
    apply list_elem_of_lookup. exists j.
    by rewrite list_lookup_imap, Hj.
  - right. exists i, e, o, s1.
    assert (Hi : imap pair l !! length l1 = Some (i, e)).
    { rewrite Hc. by apply list_lookup_middle. }
    rewrite list_lookup_imap in Hi.
    destruct (l !! length l1) as [x|] eqn:Hx; [|done].
    simpl in Hi. injection Hi as <- ->.
    repeat split; try done; try apply Hs.
    intros j e' Hlt Hj. rewrite Forall_forall in Hall. apply Hall.
    apply list_elem_of_lookup. exists j.
    assert (Hj' : imap pair l !! j = Some (j, e')).
    { by rewrite list_lookup_imap, Hj. }
    rewrite Hc, lookup_app_l in Hj'; done.
Qed.

(** ** The sweep *)

Lemma scanEvents_app l1 l2 :
  scanEvents (l1 ++ l2) = scanEvents l1 ++ scanEvents l2.
Proof. apply omap_app. Qed.

Lemma startRound_frame s :
  config (startRound s) = config s /\ scanners (startRound s) = scanners s /\
  scannables (startRound s) = scannables s.
Proof. unfold startRound. by destruct (gameStarted (round s)). Qed.

Lemma scoreScan_round pid s s' :
  round s = round s' -> round (scoreScan pid s) = round (scoreScan pid s').
Proof.
  intros H. unfold scoreScan, roundGate. rewrite H.
  destruct (negb (timerRunning (round s')) && _); simpl.
  - destruct (roundEnded (round s')); simpl.
    + reflexivity.
    + unfold recordSale, startRound. rewrite H.
      destruct (gameStarted (round s')); simpl; by rewrite ?H.
  - unfold recordSale, startRound. rewrite H.
    destruct (gameStarted (round s')); simpl; by rewrite ?H.
Qed.

(** The two ways [honorScan] ends, in one form. *)
Lemma honorScan_eq time zi zp i e o s1 st :
  let pid := default "" (productId e) in
  let s3 := recordSale pid (startRound s1) in
  honorScan time zi zp i e o s1 st =
  mkSweep
    (with_scannables s3
       (<[i := if aborts pid then stamp time e else scanOut time o e]>
          (scannables s3)))
    ({[i]} ∪ scannedThisFrame st)
    (respawns st ++
     if aborts pid then []
     else [mkRespawn (default (vx zp) (homeX e)) (default (vy zp) (homeY e))
             (default (vz zp) (homeZ e)) i])
    (log st ++ logOf (zi, i, pid)).
Proof.
  unfold honorScan, aborts, logOf, aborts. simpl.
  destruct (getProductLabel _); simpl; by rewrite ?app_nil_r.
Qed.

Lemma scanEvents_logOf ev : scanEvents (logOf ev) = [ev].
Proof.
  destruct ev as [[z i] p]. unfold logOf. simpl.
  by destruct (aborts _).
Qed.

Lemma threw_app l1 l2 : threw (l1 ++ l2) = threw l1 || threw l2.
Proof. apply existsb_app. Qed.

Lemma threw_logOf ev : threw (logOf ev) = aborts (evPid ev).
Proof. unfold logOf, threw. simpl. by destruct (aborts _). Qed.

(** A log of scans has an exception exactly when one of them aborts. *)
Lemma threw_bind evs :
  threw (evs ≫= logOf) = existsb (fun ev => aborts (evPid ev)) evs.
Proof.
  induction evs as [|ev evs IH]; [done|].
  rewrite bind_cons, threw_app, threw_logOf, IH. reflexivity.
Qed.

Lemma threw_aborted evs :
  threw (evs ≫= logOf) = true ->
  exists ev, ev ∈ evs /\ aborts (evPid ev) = true.
Proof.
  rewrite threw_bind. intros (ev & Hin & Ha)%existsb_exists.
  exists ev. split; [|done]. by apply list_elem_of_In.
Qed.

Lemma completed_app l1 l2 : completed (l1 ++ l2) = completed l1 ++ completed l2.
Proof. apply List.filter_app. Qed.

(** With no exception, every scan ran to its end. *)
Lemma completed_all evs :
  threw (evs ≫= logOf) = false -> completed evs = evs.
Proof.
  rewrite threw_bind. induction evs as [|ev evs IH]; [done|].
  simpl. intros [Ha Hr]%orb_false_iff. rewrite Ha. simpl. by rewrite IH.
Qed.

Lemma sweep_inv_init time s0 :
  flags_inv (round s0) -> sweep_inv time s0 0 (mkSweep s0 ∅ [] []).
Proof.
  intros F. split; simpl; try done; try constructor;
    try (intros; set_solver); intros; lia.
Qed.

Lemma eligible_stops time s0 k st z zp j e :
  sweep_inv time s0 k st -> zoneObject3D z = Some zp ->
  j ∉ scannedThisFrame st ->
  eligible (config s0) time z e = true ->
  stops st time zp (zoneRadiusSq (config (sys st)) z) (j, e).
Proof.
  intros I Hz Hj He. unfold eligible in He. rewrite Hz in He.
  split; [done|]. simpl. by rewrite (si_config _ _ _ _ I).
Qed.

Lemma stops_eligible time s0 k st z zp j e :
  sweep_inv time s0 k st -> zoneObject3D z = Some zp ->
  stops st time zp (zoneRadiusSq (config (sys st)) z) (j, e) ->
  eligible (config s0) time z e = true.
Proof.
  intros I Hz [_ Hs]. unfold eligible. rewrite Hz.
  simpl in Hs. by rewrite (si_config _ _ _ _ I) in Hs.
Qed.

(** A zone whose search honours entity [i] keeps the invariant. *)
Lemma sweep_inv_hit time s0 k z zp st i e o s1 :
  sweep_inv time s0 k st ->
  scanners s0 !! k = Some z -> zoneObject3D z = Some zp ->
  scannables (sys st) !! i = Some e ->
  (forall j e', (j < i)%nat -> scannables (sys st) !! j = Some e' ->
     ~ stops st time zp (zoneRadiusSq (config (sys st)) z) (j, e')) ->
  stops st time zp (zoneRadiusSq (config (sys st)) z) (i, e) ->
  object3D e = Some o ->
  roundGate (sys st) = Some s1 ->
  sweep_inv time s0 (S k) (honorScan time k zp i e o s1 st).
Proof.
  intros I Hk Hz Hi Hbefore Hs Ho Hg.
  assert (Hfree : i ∉ scannedThisFrame st) by apply Hs.
  assert (Hi0 : scannables s0 !! i = Some e).
  { by rewrite <- (si_free _ _ _ _ I i Hfree). }
  assert (Hel : eligible (config s0) time z e = true).
  { by eapply stops_eligible. }
  destruct (roundGate_is_Some (sys st) (si_flags _ _ _ _ I))
    as (s1' & Hg' & F1 & C1 & Z1 & S1).
  rewrite Hg in Hg'. injection Hg' as <-.
  destruct (startRound_frame s1) as (C2 & Z2 & S2).
  set (pid := default "" (productId e)).
  set (new := (k, i, pid)).
  rewrite honorScan_eq. cbv zeta. fold pid. fold new.
  match goal with |- sweep_inv _ _ _ ?st' =>
    assert (Hlog : scanEvents (log st') = scanEvents (log st) ++ [new]) end.
  { simpl. by rewrite scanEvents_app, scanEvents_logOf. }
  assert (Hnotin : i ∉ evEntity <$> scanEvents (log st)).
  { by rewrite <- (si_taken _ _ _ _ I). }
  assert (Htaken : forall j, j ∈ scannedThisFrame st ->
            exists ev', ev' ∈ scanEvents (log st) /\
                        (evZone ev' < k)%nat /\ evEntity ev' = j).
  { intros j Hj. apply (si_taken _ _ _ _ I) in Hj.
    apply list_elem_of_fmap_1 in Hj as (ev' & -> & Hev').
    exists ev'. split; [done|]. split; [|done].
    by apply (si_zone_lt _ _ _ _ I). }
  assert (Hearlier : forall j ej, (j < i)%nat ->
            scannables s0 !! j = Some ej ->
            eligible (config s0) time z ej = true ->
            j ∈ scannedThisFrame st).
  { intros j ej Hlt Hj Hej.
    destruct (decide (j ∈ scannedThisFrame st)) as [|Hn]; [done|].
    exfalso. apply (Hbefore j ej Hlt).
    - by rewrite (si_free _ _ _ _ I j Hn).
    - by eapply eligible_stops. }
  split; rewrite ?Hlog.
  - simpl. by apply flags_inv_recordSale, flags_inv_startRound.
  - simpl. rewrite C2, C1. apply (si_config _ _ _ _ I).
  - simpl. rewrite length_insert, S2, S1. apply (si_len _ _ _ _ I).
  - simpl. intros j Hj. rewrite S2, S1.
    assert (i ≠ j) by (intros ->; apply Hj; set_solver).
    rewrite list_lookup_insert_ne by done.
    apply (si_free _ _ _ _ I). set_solver.
  - simpl. intros j Hj. rewrite S2, S1.
    destruct (decide (j = i)) as [->|Hne].
    + rewrite list_lookup_insert_eq by (by eapply lookup_lt_Some).
      eexists. split; [reflexivity|]. by destruct (aborts pid).
    + rewrite list_lookup_insert_ne by done.
      apply (si_out _ _ _ _ I).
      apply elem_of_union in Hj as [Hj|Hj]; [|done].
      by apply elem_of_singleton in Hj.
  - cbn [log]. rewrite bind_app, <- (si_log _ _ _ _ I).
    change ([new] ≫= logOf) with (logOf new ++ []).
    by rewrite app_nil_r.
  - simpl. intros j. rewrite fmap_app, elem_of_app, elem_of_union.
    rewrite <- (si_taken _ _ _ _ I j), elem_of_singleton.
    simpl. rewrite list_elem_of_singleton. unfold evEntity, new. simpl. tauto.
  - intros ev [Hev|Hev]%elem_of_app.
    + apply (si_zone_lt _ _ _ _ I) in Hev. lia.
    + apply list_elem_of_singleton in Hev as ->. unfold new, evZone. simpl. lia.
  - rewrite fmap_app. apply NoDup_app. split; [apply (si_nodup_z _ _ _ _ I)|].
    split; [|apply NoDup_singleton].
    intros x Hx Hx'. apply list_elem_of_singleton in Hx' as ->.
    apply list_elem_of_fmap_1 in Hx as (ev & Hev & Hin).
    apply (si_zone_lt _ _ _ _ I) in Hin. unfold new, evZone in *.
    simpl in *. lia.
  - rewrite fmap_app. apply NoDup_app. split; [apply (si_nodup_e _ _ _ _ I)|].
    split; [|apply NoDup_singleton].
    intros x Hx Hx'. apply list_elem_of_singleton in Hx' as ->.
    by apply Hnotin.
  - intros ev [Hev|Hev]%elem_of_app.
    + by apply (si_sound _ _ _ _ I).
    + apply list_elem_of_singleton in Hev as ->. exists z, e. by simpl.
  - intros ev z' j ej [Hev|Hev]%elem_of_app Hz' Hlt Hj Hej.
    + destruct (si_first _ _ _ _ I ev z' j ej Hev Hz' Hlt Hj Hej)
        as (ev' & Hin & R).
      exists ev'. split; [|done]. apply elem_of_app. by left.
    + apply list_elem_of_singleton in Hev as ->.
      unfold new, evZone, evEntity in Hz', Hlt. simpl in Hz', Hlt.
      rewrite Hk in Hz'. injection Hz' as <-.
      destruct (Htaken j (Hearlier j ej Hlt Hj Hej)) as (ev' & Hin & R).
      exists ev'. split; [|done]. apply elem_of_app. by left.
  - intros zi z' j ej Hzi Hz' Hj Hej.
    destruct (decide (zi = k)) as [->|Hne].
    + rewrite Hk in Hz'. injection Hz' as <-.
      destruct (decide (j ∈ scannedThisFrame st)) as [Hin|Hn].
      * destruct (Htaken j Hin) as (ev' & Hin' & R).
        exists ev'. split; [apply elem_of_app; by left|]. right. by left.
      * exists new. split; [apply elem_of_app; right; by constructor|].
        left. split; [done|]. unfold new, evEntity. simpl.
        destruct (decide (j < i)%nat) as [Hlt|]; [|lia].
        exfalso. apply Hn. by eapply Hearlier.
    + destruct (si_complete _ _ _ _ I zi z' j ej) as (ev & Hin & R);
        try done; [lia|].
      exists ev. split; [|done]. apply elem_of_app. by left.
  - cbn [respawns]. rewrite completed_app.
    apply Forall2_app; [apply (si_respawns _ _ _ _ I)|].
    unfold completed, new. simpl. destruct (aborts pid); simpl; [constructor|].
    constructor; [|constructor].
    split; [done|]. exists z, zp, e. by simpl.
  - rewrite fmap_app, fold_left_app.
    transitivity (round (scoreScan pid (sys st))).
    { unfold scoreScan. rewrite Hg. reflexivity. }
    apply (scoreScan_round pid (sys st) _ (si_round _ _ _ _ I)).
Qed.

(** A zone whose search stops at no candidate keeps the invariant. *)
Lemma sweep_inv_miss time s0 k z st :
  sweep_inv time s0 k st -> scanners s0 !! k = Some z ->
  (forall zp, zoneObject3D z = Some zp ->
     forall j e, scannables (sys st) !! j = Some e ->
       ~ stops st time zp (zoneRadiusSq (config (sys st)) z) (j, e)) ->
  sweep_inv time s0 (S k) st.
Proof.
  intros I Hk Hnone.
  destruct I as [F C L Fr O Lg T Zl Nz Ne So Fi Co Re Ro]. split; try done.
  - intros ev Hev. specialize (Zl ev Hev). lia.
  - intros zi z' j ej Hzi Hz' Hj Hej.
    destruct (decide (zi = k)) as [->|Hne].
    + rewrite Hk in Hz'. injection Hz' as <-.
      destruct (decide (j ∈ scannedThisFrame st)) as [Hin|Hn].
      * apply T in Hin.
        apply list_elem_of_fmap_1 in Hin as (ev' & -> & Hev').
        exists ev'. split; [done|]. right. left. split; [|done].
        by apply Zl.
      * exfalso. unfold eligible in Hej.
        destruct (zoneObject3D z) as [zp|] eqn:Hzp; [|done].
        apply (Hnone zp eq_refl j ej).
        -- by rewrite Fr.
        -- split; [done|]. simpl. by rewrite C.
    + apply (Co zi z' j ej); try done. lia.
Qed.

Lemma sweep_inv_zone time s0 k z st :
  sweep_inv time s0 k st -> scanners s0 !! k = Some z ->
  sweep_inv time s0 (S k) (sweepZone time k z st).
Proof.
  intros I Hk. unfold sweepZone.
  destruct (zoneObject3D z) as [zp|] eqn:Hz.
  - destruct (scanZone_store time k zp (zoneRadiusSq (config (sys st)) z) st
                (si_flags _ _ _ _ I))
      as [[Hnone ->]|(i & e & o & s1 & Hi & Hb & Hs & Ho & Hg & ->)].
    + eapply sweep_inv_miss; try done.
      intros zp' Hz'. rewrite Hz in Hz'. injection Hz' as <-. apply Hnone.
    + by eapply sweep_inv_hit.
  - eapply sweep_inv_miss; try done. intros zp' Hz'. congruence.
Qed.

(** Once an exception has left the loops, the zones not entered add
    nothing. *)
Lemma sweep_inv_threw time s0 k k' st :
  sweep_inv time s0 k st -> threw (log st) = true -> (k <= k')%nat ->
  sweep_inv time s0 k' st.
Proof.
  intros I Ht Hle.
  destruct I as [F C L Fr O Lg T Zl Nz Ne So Fi Co Re Ro]. split; try done.
  - intros ev Hev. specialize (Zl ev Hev). lia.
  - intros zi z' j ej Hzi Hz' Hj Hej.
    destruct (decide (zi < k)%nat) as [Hlt|Hge]; [by eapply Co|].
    rewrite Lg in Ht. apply threw_aborted in Ht as (ev & Hin & Ha).
    exists ev. split; [done|]. right. right. split; [|done].
    specialize (Zl ev Hin). lia.
Qed.

Lemma sweep_inv_zones time s0 zs : forall k st,
  (forall n zi z, zs !! n = Some (zi, z) ->
     zi = (k + n)%nat /\ scanners s0 !! zi = Some z) ->
  sweep_inv time s0 k st ->
  sweep_inv time s0 (k + length zs) (sweepZones time zs st).
Proof.
  induction zs as [|[zi z] zs IH]; intros k st Hzs I; simpl.
  - by rewrite Nat.add_0_r.
  - destruct (Hzs 0%nat zi z eq_refl) as [-> Hz].
    rewrite Nat.add_0_r in *.
    pose proof (sweep_inv_zone time s0 k z st I Hz) as I1.
    destruct (threw (log (sweepZone time k z st))) eqn:Ht.
    + eapply sweep_inv_threw; [exact I1|exact Ht|lia].
    + replace (k + S (length zs))%nat with (S k + length zs)%nat by lia.
      apply IH; [|exact I1].
      intros n zi' z' Hn. destruct (Hzs (S n) zi' z' Hn) as [-> Hz'].
      split; [lia|done].
Qed.

Lemma sweep_inv_sweep time s0 :
  flags_inv (round s0) ->
  sweep_inv time s0 (length (scanners s0)) (sweep time s0).
Proof.
  intros F. unfold sweep.
  rewrite <- (length_imap pair (scanners s0)).
  apply (sweep_inv_zones time s0 _ 0%nat).
  - intros n zi z Hn. rewrite list_lookup_imap in Hn.
    destruct (scanners s0 !! n) as [z'|] eqn:Hz; [|done].
    simpl in Hn. injection Hn as <- <-. done.
  - by apply sweep_inv_init.
Qed.

(** ** The flush *)

Lemma spawnRandomProductAt_spec h r st :
  spawnRandomProductAt h (rHomeX r) (rHomeY r) (rHomeZ r) st =
  mkFlush
    (with_scannables (fsys st)
       (scannables (fsys st) ++ option_list (spawnFor h (calls st) r)))
    (usedSlots st) (S (calls st)).
Proof.
  unfold spawnRandomProductAt, spawnFor. simpl.
  destruct (drawn h (calls st)) as [def|]; simpl.
  - destruct (getGLTF h (assetKey def)); simpl; [done|].
    rewrite app_nil_r. by destruct st as [[] ? ?].
  - rewrite app_nil_r. by destruct st as [[] ? ?].
Qed.

Lemma flushRespawns_spec h rs : forall seen s c,
  fsys (flushRespawns h rs (mkFlush s (list_to_set seen) c)) =
  with_scannables s (scannables s ++ spawns h c (firstWins seen rs)).
Proof.
  induction rs as [|r rs IH]; intros seen s c; simpl.
  - rewrite app_nil_r. by destruct s.
  - destruct (decide (slotKey r ∈ seen)) as [Hin|Hn].
    + rewrite decide_True by set_solver. apply IH.
    + rewrite decide_False by set_solver.
      rewrite spawnRandomProductAt_spec. simpl.
      change ({[slotKey r]} ∪ list_to_set seen : gset string)
        with (list_to_set (slotKey r :: seen) : gset string).
      rewrite IH. simpl. by rewrite <- app_assoc.
Qed.

(** The whole flush of a tick, from an empty [usedSlots]. *)
Lemma update_flush h delta time s :
  let sw := sweep time (fst (advanceTimer delta s)) in
  threw (log sw) = false ->
  update h delta time s =
  (with_scannables (sys sw)
     (scannables (sys sw) ++ spawns h 0 (firstWins [] (respawns sw))),
   snd (advanceTimer delta s) ++ log sw).
Proof.
  intros sw Hno. unfold update.
  destruct (advanceTimer delta s) as [s1 timerLog] eqn:Ht. simpl in sw.
  fold sw. rewrite Hno. f_equal.
  destruct (respawns sw) as [|r rs] eqn:Hr.
  - simpl. rewrite app_nil_r. by destruct (sys sw).
  - change (∅ : gset string) with (list_to_set [] : gset string).
    by rewrite flushRespawns_spec.
Qed.

(** A tick whose sweep throws ends there: no flush. *)
Lemma update_threw h delta time s :
  let sw := sweep time (fst (advanceTimer delta s)) in
  threw (log sw) = true ->
  update h delta time s = (sys sw, snd (advanceTimer delta s) ++ log sw).
Proof.
  intros sw Hyes. unfold update.
  destruct (advanceTimer delta s) as [s1 timerLog] eqn:Ht. simpl in sw.
  fold sw. by rewrite Hyes.
Qed.

(** ** Invariants of the tick *)

Lemma update_round h delta time s :
  round (fst (update h delta time s))
  = round (sys (sweep time (fst (advanceTimer delta s)))).
Proof.
  destruct (threw (log (sweep time (fst (advanceTimer delta s))))) eqn:Ht.
  - by rewrite update_threw.
  - by rewrite update_flush.
Qed.

Lemma update_log h delta time s :
  snd (update h delta time s)
  = snd (advanceTimer delta s) ++ log (sweep time (fst (advanceTimer delta s))).
Proof.
  destruct (threw (log (sweep time (fst (advanceTimer delta s))))) eqn:Ht.
  - by rewrite update_threw.
  - by rewrite update_flush.
Qed.

Lemma flags_inv_update h delta time s :
  flags_inv (round s) -> flags_inv (round (fst (update h delta time s))).
Proof.
  intros F. rewrite update_round.
  eapply si_flags, sweep_inv_sweep. by apply flags_inv_advanceTimer.
Qed.

Lemma reachableBy_flags ok s : reachableBy ok s -> flags_inv (round s).
Proof.
  induction 1 as [cfg zones objs|s s' _ IH Heq|s h delta time _ IH _].
  - apply flags_inv_fresh.
  - by rewrite Heq.
  - by apply flags_inv_update.
Qed.

Lemma round_inv_scoreScan pid s :
  round_inv (round s) -> round_inv (round (scoreScan pid s)).
Proof.
  intros R. unfold scoreScan.
  destruct (roundGate_flags s (ri_flags _ R)) as [[-> Hlive]|[-> _]]; simpl.
  - unfold startRound. destruct (gameStarted (round s)) eqn:Hg.
    + destruct R as [[F1 F2 F3 F4 F5 F6] R1 R2 R3 R4 R5].
      split; [split|..]; simpl; auto; congruence.
    + destruct R as [[F1 F2 F3 F4 F5 F6] R1 R2 R3 R4 R5].
      destruct (R3 Hg) as (Hrun & _ & _ & Ht).
      assert (He : roundEnded (round s) = false).
      { destruct (roundEnded (round s)); [|done]. rewrite F4 in Hg; done. }
      split; [split|..]; simpl; auto; try congruence.
      intros _. rewrite Ht. done.
  - split; [split|..]; simpl; auto; try done.
Qed.

Lemma round_inv_fold pids : forall s,
  round_inv (round s) ->
  round_inv (round (fold_left (fun s pid => scoreScan pid s) pids s)).
Proof.
  induction pids as [|pid pids IH]; intros s R; simpl; [done|].
  by apply IH, round_inv_scoreScan.
Qed.

Lemma round_inv_advanceTimer delta s :
  0 <= delta -> round_inv (round s) ->
  round_inv (round (fst (advanceTimer delta s))).
Proof.
  intros Hd R. destruct (timerRunning (round s)) eqn:Hrun.
  - destruct (Qlt_le_dec 0 (timeRemaining (round s) - delta)) as [Hgt|Hle].
    + destruct (advanceTimer_running delta s Hrun Hgt) as [w ->].
      destruct R as [[F1 F2 F3 F4 F5 F6] R1 R2 R3 R4 R5].
      split; [split|..]; round_tac.
    + rewrite (advanceTimer_expired delta s (ri_flags _ R) Hrun Hle).
      destruct R as [[F1 F2 F3 F4 F5 F6] R1 R2 R3 R4 R5].
      split; [split|..]; round_tac.
  - by rewrite advanceTimer_stopped.
Qed.

Lemma round_inv_update h delta time s :
  0 <= delta -> round_inv (round s) ->
  round_inv (round (fst (update h delta time s))).
Proof.
  intros Hd R. rewrite update_round.
  pose proof (round_inv_advanceTimer delta s Hd R) as R1.
  rewrite (si_round _ _ _ _ (sweep_inv_sweep time _ (ri_flags _ R1))).
  by apply round_inv_fold.
Qed.

Lemma reachable_round_inv s : reachable s -> round_inv (round s).
Proof.
  induction 1 as [cfg zones objs|s s' _ IH Heq|s h delta time _ IH Hd].
  - apply round_inv_fresh.
  - by rewrite Heq.
  - by apply round_inv_update.
Qed.

(** ** Lists *)

Lemma NoDup_fmap_eq {A B} (f : A -> B) (l : list A) x y :
  NoDup (f <$> l) -> x ∈ l -> y ∈ l -> f x = f y -> x = y.
Proof.
  induction l as [|a l IH]; simpl; intros Hnd Hx Hy Heq.
  - by apply elem_of_nil in Hx.
  - apply NoDup_cons in Hnd as [Hnot Hnd].
    apply elem_of_cons in Hx as [->|Hx]; apply elem_of_cons in Hy as [->|Hy].
    + done.
    + exfalso. apply Hnot. rewrite Heq. by apply list_elem_of_fmap_2.
    + exfalso. apply Hnot. rewrite <- Heq. by apply list_elem_of_fmap_2.
    + by apply IH.
Qed.

(** ** The events of a tick *)

Lemma advanceTimer_log delta s :
  scanEvents (snd (advanceTimer delta s)) = [] /\
  Forall (fun ev => isDiscarded ev = false) (snd (advanceTimer delta s)).
Proof.
  unfold advanceTimer, zeroCrossing, showRoundComplete.
  destruct (timerRunning (round s)); [|by split]. simpl.
  destruct (Qle_bool _ 0); simpl.
  - destruct (roundShown (round s)); simpl;
      destruct (_ && _ && _ && _); simpl;
      try destruct (numGeb _ _); split; repeat constructor.
  - destruct (_ && _ && _ && _); split; repeat constructor.
Qed.

Lemma advanceTimer_no_throw delta s :
  threw (snd (advanceTimer delta s)) = false.
Proof.
  unfold advanceTimer, zeroCrossing, showRoundComplete.
  destruct (timerRunning (round s)); [|done]. simpl.
  destruct (Qle_bool _ 0); simpl.
  - destruct (roundShown (round s)); simpl;
      destruct (_ && _ && _ && _); simpl;
      try destruct (numGeb _ _); done.
  - by destruct (_ && _ && _ && _).
Qed.

(** A tick throws exactly when its sweep does. *)
Lemma update_threw_sweep h delta time s :
  threw (snd (update h delta time s))
  = threw (log (sweep time (fst (advanceTimer delta s)))).
Proof.
  by rewrite update_log, threw_app, advanceTimer_no_throw.
Qed.

Lemma update_scanEvents h delta time s :
  scanEvents (snd (update h delta time s))
  = scanEvents (log (sweep time (fst (advanceTimer delta s)))).
Proof.
  rewrite update_log, scanEvents_app.
  by rewrite (proj1 (advanceTimer_log delta s)).
Qed.

(** A tick throws exactly when one of its scans aborts. *)
Lemma update_threw_aborts h delta time s :
  flags_inv (round s) ->
  threw (snd (update h delta time s))
  = existsb (fun ev => aborts (evPid ev))
      (scanEvents (snd (update h delta time s))).
Proof.
  intros F. rewrite update_threw_sweep, update_scanEvents.
  pose proof (sweep_inv_sweep time _ (flags_inv_advanceTimer delta s F)) as I.
  rewrite (si_log _ _ _ _ I) at 1. apply threw_bind.
Qed.

(** The invariant of the finished sweep, stated on the scene the tick
    started from. *)
Lemma update_sweep_inv delta time s :
  flags_inv (round s) ->
  let s1 := fst (advanceTimer delta s) in
  sweep_inv time s1 (length (scanners s)) (sweep time s1) /\
  config s1 = config s /\ scanners s1 = scanners s /\
  scannables s1 = scannables s.
Proof.
  intros F s1. destruct (advanceTimer_frame delta s) as (C & Z & S).
  split; [|done]. rewrite <- Z.
  by apply sweep_inv_sweep, flags_inv_advanceTimer.
Qed.

(** An eligible entity that no earlier zone can take and that no earlier
    entity competes with at its zone is scanned, unless the scan of an
    earlier zone has thrown. *)
Lemma first_eligible_scanned h delta time s zi z i e :
  flags_inv (round s) ->
  scanners s !! zi = Some z -> scannables s !! i = Some e ->
  eligible (config s) time z e = true ->
  (forall j e', (j < i)%nat -> scannables s !! j = Some e' ->
                eligible (config s) time z e' = false) ->
  (forall zj z', (zj < zi)%nat -> scanners s !! zj = Some z' ->
                 eligible (config s) time z' e = false) ->
  (zi, i, default "" (productId e)) ∈ scanEvents (snd (update h delta time s))
  \/ exists ev, ev ∈ scanEvents (snd (update h delta time s)) /\
                (evZone ev < zi)%nat /\ aborts (evPid ev) = true.
Proof.
  intros F Hz Hi He Hfirst Hzones. rewrite update_scanEvents.
  destruct (update_sweep_inv delta time s F) as (I & C & Z & S).
  rewrite <- C, <- Z, <- S in *.
  destruct (si_complete _ _ _ _ I zi z i e) as (ev & Hin & Hcase); try done.
  { by eapply lookup_lt_Some. }
  destruct (si_sound _ _ _ _ I ev Hin) as (z' & e' & Hz' & He' & Hel & Hp).
  destruct Hcase as [[Hzone Hle]|[[Hlt Hent]|[Hlt Ha]]];
    [left|left|right; by exists ev].
  - rewrite Hzone, Hz in Hz'. injection Hz' as <-.
    destruct (decide (evEntity ev = i)) as [Heq|Hne].
    + rewrite Heq, Hi in He'. injection He' as <-.
      destruct ev as [[a b] c]. unfold evZone, evEntity, evPid in *.
      simpl in *. by subst.
    + rewrite (Hfirst (evEntity ev) e') in Hel; [done|lia|done].
  - rewrite Hent, Hi in He'. injection He' as <-.
    by rewrite (Hzones (evZone ev) z') in Hel.
Qed.

(** * Properties *)

(** ** C1: one scan per zone and per entity in a tick *)

(** C1.  In a tick taken from a reachable state, the scan events name
    pairwise distinct zones (a zone emits at most one) and pairwise
    distinct entities (an entity matched by one zone is matched by no
    other).  The entity a zone scans passes the zone's radius and cooldown
    tests on the scene the tick started from, and every earlier entity
    passing them has been taken by an earlier zone: the zone's search ends
    on its first candidate.  A zone with a passing entity left emits its
    event, and exactly one when the entity passes at no earlier zone,
    unless the scan of an earlier zone has thrown and ended the sweep.  In
    particular a single zone with two passing entities emits exactly one
    scan event. *)
Theorem one_scan_per_zone_per_tick ok h delta time s :
  reachableBy ok s ->
  let L := scanEvents (snd (update h delta time s)) in
  NoDup (evZone <$> L) /\
  NoDup (evEntity <$> L) /\
  (forall ev, ev ∈ L ->
     exists z e,
       scanners s !! evZone ev = Some z /\
       scannables s !! evEntity ev = Some e /\
       eligible (config s) time z e = true /\
       forall j e', (j < evEntity ev)%nat -> scannables s !! j = Some e' ->
         eligible (config s) time z e' = true ->
         exists ev', ev' ∈ L /\ (evZone ev' < evZone ev)%nat /\
                     evEntity ev' = j) /\
  (forall zi z j e,
     scanners s !! zi = Some z -> scannables s !! j = Some e ->
     eligible (config s) time z e = true ->
     exists ev, ev ∈ L /\
       ((evZone ev = zi /\ (evEntity ev <= j)%nat) \/
        ((evZone ev < zi)%nat /\ evEntity ev = j) \/
        ((evZone ev < zi)%nat /\ aborts (evPid ev) = true))) /\
  (forall zi z j e,
     scanners s !! zi = Some z -> scannables s !! j = Some e ->
     eligible (config s) time z e = true ->
     (forall zj z', (zj < zi)%nat -> scanners s !! zj = Some z' ->
                    eligible (config s) time z' e = false) ->
     (exists ev, ev ∈ L /\ evZone ev = zi /\
        forall ev', ev' ∈ L -> evZone ev' = zi -> ev' = ev) \/
     (exists ev, ev ∈ L /\ (evZone ev < zi)%nat /\
                 aborts (evPid ev) = true)) /\
  (forall z i j ei ej,
     scanners s = [z] -> i <> j ->
     scannables s !! i = Some ei -> scannables s !! j = Some ej ->
     eligible (config s) time z ei = true ->
     eligible (config s) time z ej = true ->
     length L = 1%nat).
Proof.
  intros Hr L. pose proof (reachableBy_flags ok s Hr) as F.
  destruct (update_sweep_inv delta time s F) as (I & C & Z & S).
  unfold L. rewrite update_scanEvents. rewrite <- C, <- Z, <- S.
  set (s1 := fst (advanceTimer delta s)) in *.
  set (L1 := scanEvents (log (sweep time s1))).
  assert (Hcomplete : forall zi z j e,
     scanners s1 !! zi = Some z -> scannables s1 !! j = Some e ->
     eligible (config s1) time z e = true ->
     exists ev, ev ∈ L1 /\
       ((evZone ev = zi /\ (evEntity ev <= j)%nat) \/
        ((evZone ev < zi)%nat /\ evEntity ev = j) \/
        ((evZone ev < zi)%nat /\ aborts (evPid ev) = true))).
  { intros zi z j e Hz Hj He.
    apply (si_complete _ _ _ _ I zi z j e); try done.
    rewrite <- Z. by eapply lookup_lt_Some. }
  split; [apply (si_nodup_z _ _ _ _ I)|].
  split; [apply (si_nodup_e _ _ _ _ I)|].
  split; [|split; [exact Hcomplete|split]].
  - intros ev Hev.
    destruct (si_sound _ _ _ _ I ev Hev) as (z & e & Hz & He & Hel & _).
    exists z, e. repeat split; try done.
    intros j e' Hlt Hj Hel'. by apply (si_first _ _ _ _ I ev z j e').
  - intros zi z j e Hz Hj Hel Hzones.
    destruct (Hcomplete zi z j e Hz Hj Hel) as (ev & Hin & Hcase).
    destruct Hcase as [[Hzone _]|[[Hlt Hent]|[Hlt Ha]]].
    + left. exists ev. split; [done|]. split; [done|].
      intros ev' Hin' Hzone'.
      apply (NoDup_fmap_eq evZone L1); try done.
      * apply (si_nodup_z _ _ _ _ I).
      * by rewrite Hzone.
    + destruct (si_sound _ _ _ _ I ev Hin) as (z' & e' & Hz' & He' & Hel' & _).
      rewrite Hent, Hj in He'. injection He' as <-.
      by rewrite (Hzones (evZone ev) z') in Hel'.
    + right. by exists ev.
  - intros z i j ei ej Hzs Hne Hi Hj Hei Hej.
    destruct (Hcomplete 0%nat z i ei) as (ev & Hin & _); try done.
    { by rewrite Hzs. }
    pose proof (si_nodup_z _ _ _ _ I) as Hnd. fold L1 in Hnd.
    assert (Hall : forall ev', ev' ∈ L1 -> evZone ev' = 0%nat).
    { intros ev' Hev'. apply (si_zone_lt _ _ _ _ I) in Hev'.
      rewrite <- Z, Hzs in Hev'. simpl in Hev'. lia. }
    destruct L1 as [|a [|b l]]; [by apply elem_of_nil in Hin|done|].
    exfalso. simpl in Hnd. apply NoDup_cons in Hnd as [Hnot _].
    apply Hnot. rewrite (Hall a), <- (Hall b); repeat constructor.
Qed.

Lemma one_scan_per_zone_per_tick_witness :
  length (scanEvents (snd (update demoHost (1 # 60) 1 demoScene))) = 1%nat.
Proof.
  refine (proj2 (proj2 (proj2 (proj2 (proj2
            (one_scan_per_zone_per_tick (fun _ => True) demoHost (1 # 60) 1
               demoScene _)))))
            demoZone 0%nat 1%nat (demoItem "goldBar" (1 # 10) 5)
            (demoItem "pear" (2 # 10) 6) eq_refl _ eq_refl eq_refl
            eq_refl eq_refl).
  - apply reach_init.
  - lia.
Defined.

(** ** C2: the cooldown gate *)

Lemma onCooldown_true cooldown time e :
  onCooldown cooldown time e = true <->
  0 <= default (-1) (lastScanTime e) /\
  time - default (-1) (lastScanTime e) < cooldown.
Proof.
  unfold onCooldown, Qgeb.
  by rewrite andb_true_iff, Qle_bool_iff, Qltb_lt.
Qed.

Lemma eligible_inv cfg time z e :
  eligible cfg time z e = true ->
  exists zp o,
    zoneObject3D z = Some zp /\ object3D e = Some o /\
    scannedOut o = false /\
    inRadius (zoneRadiusSq cfg z) zp (position o) = true /\
    onCooldown (scanCooldown cfg) time e = false.
Proof.
  unfold eligible, qualifies.
  destruct (zoneObject3D z) as [zp|]; [|done].
  destruct (object3D e) as [o|]; [|done].
  rewrite !andb_true_iff, !negb_true_iff. intros [[H1 H2] H3].
  by exists zp, o.
Qed.

Lemma eligible_intro cfg time z zp e o :
  zoneObject3D z = Some zp -> object3D e = Some o ->
  scannedOut o = false ->
  inRadius (zoneRadiusSq cfg z) zp (position o) = true ->
  onCooldown (scanCooldown cfg) time e = false ->
  eligible cfg time z e = true.
Proof.
  unfold eligible, qualifies. intros -> -> -> -> ->. reflexivity.
Qed.

(** C2.  In a tick at time [time] from a reachable state, an entity whose
    last scan time [t0] satisfies [0 <= t0] and [time - t0 < scanCooldown]
    is named by no scan event, wherever it is.  The gate never blocks an
    entity whose last scan time is -1, nor one for which the cooldown has
    elapsed; such an entity, inside a zone and not retired, is scanned by
    that zone when neither an earlier entity nor an earlier zone competes
    for the scan, unless the scan of an earlier zone has thrown and ended
    the sweep. *)
Theorem cooldown_blocks_rescan ok h delta time s :
  reachableBy ok s ->
  let L := scanEvents (snd (update h delta time s)) in
  (forall i e t0,
     scannables s !! i = Some e -> lastScanTime e = Some t0 ->
     0 <= t0 -> time - t0 < scanCooldown (config s) ->
     forall ev, ev ∈ L -> evEntity ev <> i) /\
  (forall cooldown e,
     lastScanTime e = Some (-1) -> onCooldown cooldown time e = false) /\
  (forall cooldown e t0,
     lastScanTime e = Some t0 -> cooldown <= time - t0 ->
     onCooldown cooldown time e = false) /\
  (forall zi z zp i e o t0,
     scanners s !! zi = Some z -> zoneObject3D z = Some zp ->
     scannables s !! i = Some e -> object3D e = Some o ->
     scannedOut o = false ->
     inRadius (zoneRadiusSq (config s) z) zp (position o) = true ->
     lastScanTime e = Some t0 ->
     t0 = -1 \/ scanCooldown (config s) <= time - t0 ->
     (forall j e', (j < i)%nat -> scannables s !! j = Some e' ->
                   eligible (config s) time z e' = false) ->
     (forall zj z', (zj < zi)%nat -> scanners s !! zj = Some z' ->
                    eligible (config s) time z' e = false) ->
     (zi, i, default "" (productId e)) ∈ L \/
     exists ev, ev ∈ L /\ (evZone ev < zi)%nat /\
                aborts (evPid ev) = true).
Proof.
  intros Hr L. pose proof (reachableBy_flags ok s Hr) as F.
  assert (Hnever : forall cooldown e,
            lastScanTime e = Some (-1) -> onCooldown cooldown time e = false).
  { intros cooldown e Hl. unfold onCooldown. by rewrite Hl. }
  assert (Helapsed : forall cooldown e t0,
            lastScanTime e = Some t0 -> cooldown <= time - t0 ->
            onCooldown cooldown time e = false).
  { intros cooldown e t0 Hl Hle. unfold onCooldown. rewrite Hl. simpl.
    apply andb_false_iff. right. by apply Qltb_ge. }
  split; [|split; [exact Hnever|split; [exact Helapsed|]]].
  - intros i e t0 Hi Hl H0 Hlt ev Hev Heq.
    destruct (update_sweep_inv delta time s F) as (I & C & Z & S).
    unfold L in Hev. rewrite update_scanEvents in Hev.
    destruct (si_sound _ _ _ _ I ev Hev) as (z & e' & _ & He' & Hel & _).
    rewrite S, Heq, Hi in He'. injection He' as <-.
    apply eligible_inv in Hel as (zp & o & _ & _ & _ & _ & Hc).
    rewrite C in Hc. apply not_true_iff_false in Hc. apply Hc.
    apply onCooldown_true. rewrite Hl. by simpl.
  - intros zi z zp i e o t0 Hz Hzp Hi Ho Hout Hin Hl Hfree Hfirst Hzones.
    apply (first_eligible_scanned h delta time s zi z i e); try done.
    eapply eligible_intro; try done.
    destruct Hfree as [->|Hle]; [by apply Hnever|by eapply Helapsed].
Qed.

Lemma cooldown_blocks_rescan_witness :
  Forall (fun ev => evEntity ev <> 0%nat)
    (scanEvents (snd (update demoHost (1 # 60) 1 cooledScene))).
Proof.
  apply Forall_forall.
  refine (proj1 (cooldown_blocks_rescan (fun _ => True) demoHost (1 # 60) 1
                   cooledScene _) 0%nat cooledItem (1 # 2) eq_refl eq_refl _ _).
  - apply reach_init.
  - vm_compute. discriminate.
  - vm_compute. reflexivity.
Defined.

(** ** C3: the end of a round *)

(** A test that fails on log lines and exceptions finds nothing in the
    log of scans. *)
Lemma filter_logOf (p : Effect -> bool) evs :
  (forall z i pid, p (ScanEvent z i pid) = false) ->
  (forall z i, p (TypeError z i) = false) ->
  List.filter p (evs ≫= logOf) = [].
Proof.
  intros H1 H2. induction evs as [|ev evs IH]; [done|].
  rewrite bind_cons, List.filter_app, IH, app_nil_r.
  unfold logOf, mkEv. simpl. rewrite H1.
  destruct (aborts _); simpl; by rewrite ?H2.
Qed.

Lemma sweep_log_no_round_end time s :
  flags_inv (round s) -> List.filter isRoundEnd (log (sweep time s)) = [].
Proof.
  intros F. rewrite (si_log _ _ _ _ (sweep_inv_sweep time s F)).
  by apply filter_logOf.
Qed.

Lemma zeroCrossing_twice s :
  zeroCrossing (fst (zeroCrossing s)) = (fst (zeroCrossing s), []).
Proof.
  destruct s as [[t run gs re rs w c tot] cfg zs os].
  unfold zeroCrossing, showRoundComplete. simpl.
  destruct (Qle_bool t 0) eqn:Hle; simpl.
  - destruct rs; reflexivity.
  - by rewrite Hle.
Qed.

Lemma showRoundComplete_twice s :
  showRoundComplete (fst (showRoundComplete s))
  = (fst (showRoundComplete s), []).
Proof.
  destruct s as [[t run gs re rs w c tot] cfg zs os].
  unfold showRoundComplete. simpl. destruct rs; reflexivity.
Qed.

(** C3.  When the clock of a running round reaches 0 in a tick, the round
    becomes Ended with the clock stopped at 0, and the tick carries exactly
    one end-of-round notification: the win sound when
    [goalCartValue <= totalCartValue] (false of a [NaN] total) and the
    lose sound otherwise, with the final tallies.  Running the
    zero-crossing block or [showRoundComplete] a second time changes
    nothing and notifies nothing, from any state; and no later tick
    notifies again while the round fields stay as the ended round left
    them. *)
Theorem round_ends_once ok h delta time s :
  reachableBy ok s -> isRunning (round s) ->
  timeRemaining (round s) - delta <= 0 ->
  let s1 := fst (advanceTimer delta s) in
  let won := numGeb (totalCartValue (round s)) goalCartValue in
  isEnded (round s1) /\ timerRunning (round s1) = false /\
  timeRemaining (round s1) = 0 /\
  (won = true <-> numGe (totalCartValue (round s)) goalCartValue) /\
  List.filter isRoundEnd (snd (update h delta time s))
  = [ if won then WinSound else LoseSound;
      RoundMessage (scannedCount (round s)) (totalCartValue (round s)) ] /\
  zeroCrossing s1 = (s1, []) /\ showRoundComplete s1 = (s1, []) /\
  (forall delta', advanceTimer delta' s1 = (s1, [])) /\
  (forall s0, zeroCrossing (fst (zeroCrossing s0))
              = (fst (zeroCrossing s0), [])) /\
  (forall s0, showRoundComplete (fst (showRoundComplete s0))
              = (fst (showRoundComplete s0), [])) /\
  (forall s2 h' delta' time',
     round s2 = round s1 ->
     List.filter isRoundEnd (snd (update h' delta' time' s2)) = []).
Proof.
  intros Hr Hrun Hle s1 won. pose proof (reachableBy_flags ok s Hr) as F.
  assert (F1 : flags_inv (round s1)) by by apply flags_inv_advanceTimer.
  pose proof (update_log h delta time s) as Hlog. fold s1 in Hlog.
  unfold s1 in *. clear s1.
  rewrite (advanceTimer_expired delta s F Hrun Hle) in *. simpl in *.
  subst won.
  repeat split; try done; try apply numGeb_ge.
  - rewrite Hlog. simpl. rewrite sweep_log_no_round_end by done.
    by destruct (numGeb _ _).
  - apply zeroCrossing_twice.
  - apply showRoundComplete_twice.
  - intros s2 h' delta' time' Heq.
    assert (F2 : flags_inv (round s2)) by by rewrite Heq.
    rewrite update_log, advanceTimer_stopped by by rewrite Heq.
    simpl. by apply sweep_log_no_round_end.
Qed.

Lemma round_ends_once_witness :
  isEnded (round (fst (advanceTimer 31 runningScene))).
Proof.
  refine (proj1 (round_ends_once (fun _ => True) demoHost 31 2 runningScene
                   _ _ _)).
  - apply reach_tick; [apply reach_init | exact I].
  - vm_compute. reflexivity.
  - vm_compute. discriminate.
Defined.

(** ** Scoring a scan *)

Arguments scoreScan : simpl never.

Lemma scoreScan_live pid s :
  roundEnded (round s) = false ->
  round (scoreScan pid s) =
  mkRound (timeRemaining (round s))
    (if gameStarted (round s) then timerRunning (round s) else true)
    true false (roundShown (round s)) (timerWarningPlayed (round s))
    (scannedCount (round s) + 1)%Z
    (match productInfo pid with
     | Some info => numAdd (totalCartValue (round s)) (infoPrice info)
     | None => totalCartValue (round s)
     end).
Proof.
  destruct s as [[t run gs re rs w c tot] cfg zs os]. simpl. intros ->.
  unfold scoreScan, roundGate, recordSale, startRound. simpl.
  destruct (negb run && Qle_bool t 0); simpl; by destruct gs.
Qed.

Lemma scoreScan_ended pid s :
  flags_inv (round s) -> roundEnded (round s) = true ->
  scoreScan pid s = recordSale pid (startRound (resetRound s)) /\
  round (scoreScan pid s) =
  mkRound gameDurationSeconds true true false false false 1%Z
    (match productInfo pid with
     | Some info => numAdd (Fin 0) (infoPrice info)
     | None => Fin 0
     end).
Proof.
  intros F He. unfold scoreScan.
  destruct (roundGate_flags s F) as [[_ [Hrun|Hpos]]|[-> _]].
  - rewrite (fi_excl _ F Hrun) in He. done.
  - rewrite (fi_zero _ F He) in Hpos. by apply Qlt_irrefl in Hpos.
  - done.
Qed.

Lemma cartSum_app l1 l2 :
  numEq (cartSum (l1 ++ l2)) (numAdd (cartSum l1) (cartSum l2)).
Proof.
  induction l1 as [|pid l1 IH]; [symmetry; apply numAdd_0_l|].
  change (numEq (numAdd (priceOf pid) (cartSum (l1 ++ l2)))
            (numAdd (numAdd (priceOf pid) (cartSum l1)) (cartSum l2))).
  rewrite IH. apply numAdd_assoc.
Qed.

Lemma total_priceOf pid (t : Num) :
  numEq (match productInfo pid with
         | Some info => numAdd t (infoPrice info)
         | None => t
         end) (numAdd t (priceOf pid)).
Proof.
  unfold priceOf. destruct (productInfo pid); [reflexivity|].
  symmetry. apply numAdd_0_r.
Qed.

(** Scans scored in a round that is not over add up. *)
Lemma fold_scoreScan_live pids : forall s,
  roundEnded (round s) = false ->
  let r := round (fold_left (fun s pid => scoreScan pid s) pids s) in
  roundEnded r = false /\
  timeRemaining r = timeRemaining (round s) /\
  (pids <> [] -> gameStarted r = true) /\
  (timerRunning (round s) = true -> timerRunning r = true) /\
  (pids <> [] -> gameStarted (round s) = false -> timerRunning r = true) /\
  scannedCount r = (scannedCount (round s) + Z.of_nat (length pids))%Z /\
  numEq (totalCartValue r) (numAdd (totalCartValue (round s)) (cartSum pids)).
Proof.
  induction pids as [|pid pids IH]; intros s He; cbn [fold_left length].
  - repeat split; try done; try lia. symmetry. apply numAdd_0_r.
  - pose proof (scoreScan_live pid s He) as Hs.
    destruct (IH (scoreScan pid s)) as (H1 & H2 & H3 & H4 & H5 & H6 & H7).
    { by rewrite Hs. }
    rewrite Hs in H2, H4, H5, H6, H7. simpl in H2, H4, H5, H6, H7.
    repeat split; try done.
    + intros _. destruct pids; [|by apply H3].
      change (gameStarted (round (scoreScan pid s)) = true). by rewrite Hs.
    + intros Hrun. apply H4. by destruct (gameStarted (round s)).
    + intros _ Hg. apply H4. by rewrite Hg.
    + rewrite H6. lia.
    + rewrite H7, total_priceOf.
      change (cartSum (pid :: pids)) with (numAdd (priceOf pid) (cartSum pids)).
      symmetry. apply numAdd_assoc.
Qed.

(** Scans scored after a round is over open a new round. *)
Lemma fold_scoreScan_ended pid pids s :
  flags_inv (round s) -> roundEnded (round s) = true ->
  let r := round (fold_left (fun s pid => scoreScan pid s) (pid :: pids) s) in
  roundEnded r = false /\ timeRemaining r = gameDurationSeconds /\
  gameStarted r = true /\ timerRunning r = true /\
  scannedCount r = Z.of_nat (length (pid :: pids)) /\
  numEq (totalCartValue r) (cartSum (pid :: pids)).
Proof.
  intros F He. simpl.
  destruct (scoreScan_ended pid s F He) as [_ Hs].
  destruct (fold_scoreScan_live pids (scoreScan pid s))
    as (H1 & H2 & H3 & H4 & H5 & H6 & H7).
  { by rewrite Hs. }
  rewrite Hs in H2, H4, H6, H7. simpl in H2, H4, H6, H7.
  repeat split; try done.
  - destruct pids; [|by apply H3].
    change (gameStarted (round (scoreScan pid s)) = true). by rewrite Hs.
  - by apply H4.
  - rewrite H6. lia.
  - rewrite H7. pose proof (total_priceOf pid (Fin 0)) as Hp.
    rewrite Hp.
    change (cartSum (pid :: pids)) with (numAdd (priceOf pid) (cartSum pids)).
    by rewrite (numAdd_0_l (priceOf pid)).
Qed.

(** The round a tick leaves behind is the round after its timer part,
    with the tick's scans scored in order. *)
Lemma update_round_fold h delta time s :
  flags_inv (round s) ->
  round (fst (update h delta time s)) =
  round (fold_left (fun s pid => scoreScan pid s)
           (evPid <$> scanEvents (snd (update h delta time s)))
           (fst (advanceTimer delta s))).
Proof.
  intros F. rewrite update_round, update_scanEvents.
  destruct (update_sweep_inv delta time s F) as (I & _).
  apply (si_round _ _ _ _ I).
Qed.

(** ** C4: a scan on an ended round restarts it *)

(** C4.  In a reachable state whose round is Ended, [resetRound] puts the
    score, the cart, the clock and the warning flag back to their initial
    values and leaves the entity store as it is.  A candidate that passes
    the tests while the round is Ended is not dropped: the reset runs and
    the same scan is honoured, after which the clock is running,
    [scannedCount] is 1, the cart holds what the scanned product adds and
    only the scanned entity has changed: it is retired, or, when the
    label code throws for its product id, time-stamped only.  At the
    level of the tick: if a tick from an Ended state has scan events, it
    leaves a running round that counts exactly those events. *)
Theorem scan_restarts_ended_round ok h delta time s :
  reachableBy ok s -> isEnded (round s) ->
  (scannedCount (round (resetRound s)) = 0%Z /\
   totalCartValue (round (resetRound s)) = Fin 0 /\
   timeRemaining (round (resetRound s)) = gameDurationSeconds /\
   timerWarningPlayed (round (resetRound s)) = false /\
   scannables (resetRound s) = scannables s) /\
  (forall st zi zp rsq i e,
     round (sys st) = round s -> stops st time zp rsq (i, e) ->
     exists o st',
       let pid := default "" (productId e) in
       object3D e = Some o /\
       tryScan time zi zp rsq i e st = Break st' /\
       st' = honorScan time zi zp i e o (resetRound (sys st)) st /\
       timerRunning (round (sys st')) = true /\
       scannedCount (round (sys st')) = 1%Z /\
       numEq (totalCartValue (round (sys st'))) (priceOf pid) /\
       timeRemaining (round (sys st')) = gameDurationSeconds /\
       roundEnded (round (sys st')) = false /\
       log st' = log st ++ logOf (zi, i, pid) /\
       scannables (sys st')
       = <[i := if aborts pid then stamp time e else scanOut time o e]>
           (scannables (sys st))) /\
  (let L := scanEvents (snd (update h delta time s)) in
   let r' := round (fst (update h delta time s)) in
   L <> [] ->
   timerRunning r' = true /\ roundEnded r' = false /\
   timeRemaining r' = gameDurationSeconds /\
   scannedCount r' = Z.of_nat (length L) /\
   numEq (totalCartValue r') (cartSum (evPid <$> L))).
Proof.
  intros Hr He. pose proof (reachableBy_flags ok s Hr) as F.
  unfold isEnded in He. split; [done|]. split.
  - intros st zi zp rsq i e Heq Hs.
    destruct (tryScan_hit time zi zp rsq i e st Hs) as (o & Ho & Ht).
    assert (Hg : roundGate (sys st) = Some (resetRound (sys st))).
    { rewrite <- Heq in F, He.
      destruct (roundGate_flags (sys st) F) as [[_ [Hrun|Hpos]]|[Hg _]].
      - rewrite (fi_excl _ F Hrun) in He. done.
      - rewrite (fi_zero _ F He) in Hpos. by apply Qlt_irrefl in Hpos.
      - done. }
    rewrite Hg in Ht. eexists o, _. cbv zeta.
    split; [done|]. split; [exact Ht|].
    split; [done|]. rewrite honorScan_eq. simpl. repeat split.
    pose proof (total_priceOf (default "" (productId e)) (Fin 0)) as Hp.
    rewrite Hp. by rewrite numAdd_0_l.
  - intros L r' Hne. unfold r'. rewrite (update_round_fold h delta time s F).
    fold L. rewrite advanceTimer_stopped.
    2:{ destruct (timerRunning (round s)) eqn:Hrun; [|done].
        rewrite (fi_excl _ F Hrun) in He. done. }
    simpl. destruct (evPid <$> L) as [|pid pids] eqn:Hpids.
    { destruct L; done. }
    destruct (fold_scoreScan_ended pid pids s F He) as (H1 & H2 & H3 & H4 & H5 & H6).
    repeat split; try done.
    rewrite H5, <- Hpids. by rewrite length_fmap.
Qed.

Lemma scan_restarts_ended_round_witness :
  timerRunning (round (fst (update demoHost (1 # 60) 3 reopenedScene))) = true /\
  scannedCount (round (fst (update demoHost (1 # 60) 3 reopenedScene)))
  = Z.of_nat (length (scanEvents
                        (snd (update demoHost (1 # 60) 3 reopenedScene)))).
Proof.
  refine ((fun H => conj (proj1 H) (proj1 (proj2 (proj2 (proj2 H)))))
            (proj2 (proj2
               (scan_restarts_ended_round (fun _ => True) demoHost (1 # 60) 3
                  reopenedScene _ _)) _)).
  - apply (reach_host _ endedScene); [|reflexivity].
    apply reach_tick; [|exact I].
    apply (reach_host _ runningScene); [|reflexivity].
    apply reach_tick; [apply reach_init | exact I].
  - vm_compute. reflexivity.
  - vm_compute. discriminate.
Defined.

(** ** C5: bounds and phases of the round *)

Lemma advanceTimer_time delta s :
  0 <= delta ->
  timeRemaining (round (fst (advanceTimer delta s)))
  <= timeRemaining (round s) \/
  (timeRemaining (round s) < 0 /\
   timeRemaining (round (fst (advanceTimer delta s))) = 0).
Proof.
  intros Hd. destruct (timerRunning (round s)) eqn:Hrun.
  - destruct (Qlt_le_dec 0 (timeRemaining (round s) - delta)) as [Hgt|Hle].
    + destruct (advanceTimer_running delta s Hrun Hgt) as [w ->].
      left. simpl. lra.
    + unfold advanceTimer, zeroCrossing, showRoundComplete.
      rewrite Hrun. simpl. apply Qle_bool_iff in Hle. rewrite Hle.
      destruct (Qlt_le_dec (timeRemaining (round s)) 0) as [Hneg|Hpos].
      * right. split; [done|]. by destruct (roundShown (round s)).
      * left. by destruct (roundShown (round s)).
  - rewrite advanceTimer_stopped by done. left. simpl. lra.
Qed.

(** The clock can go up across a tick taken while Running: with 25
    seconds left, a tick of 30 seconds ends the round and the gold bar
    lying in the zone restarts it within the same tick, at 30 seconds. *)
Lemma clock_rises_across_restart :
  reachable restockedScene /\ isRunning (round restockedScene) /\
  0 <= 30 /\
  timeRemaining (round restockedScene) == 25 /\
  timeRemaining (round (fst (update demoHost 30 40 restockedScene))) == 30 /\
  ~ timeRemaining (round (fst (update demoHost 30 40 restockedScene)))
    <= timeRemaining (round restockedScene).
Proof.
  split.
  { apply (reach_host _ (fst (update demoHost 5 6
                                (with_scannables runningScene []))));
      [|reflexivity].
    apply reach_tick; [|by vm_compute].
    apply (reach_host _ runningScene); [|reflexivity].
    apply reach_tick; [apply reach_init | by vm_compute]. }
  split; [by vm_compute|]. split; [by vm_compute|].
  split; [by vm_compute|]. split; [by vm_compute|].
  vm_compute. intros H. by apply H.
Qed.

(** C5 (amended).  In every state reachable by ticks with [0 <= delta]
    and host steps: [timeRemaining] lies in [[0, gameDurationSeconds]];
    exactly one of Idle, Running, Ended holds; Idle has [scannedCount = 0]
    and [totalCartValue = 0]; Running has [timeRemaining > 0].  The timer
    part of a tick never raises [timeRemaining].  Across a whole tick
    taken while Running, [timeRemaining] drops by [delta] when the clock
    does not run out, is 0 when it runs out and nothing is scanned, and is
    [gameDurationSeconds] when it runs out and a scan of the same tick
    restarts the round. *)
Theorem round_invariants s :
  reachable s ->
  (0 <= timeRemaining (round s) /\
   timeRemaining (round s) <= gameDurationSeconds) /\
  (isIdle (round s) ->
   scannedCount (round s) = 0%Z /\ totalCartValue (round s) = Fin 0) /\
  (isRunning (round s) -> 0 < timeRemaining (round s)) /\
  ((isIdle (round s) /\ ~ isRunning (round s) /\ ~ isEnded (round s)) \/
   (~ isIdle (round s) /\ isRunning (round s) /\ ~ isEnded (round s)) \/
   (~ isIdle (round s) /\ ~ isRunning (round s) /\ isEnded (round s))) /\
  (forall h delta time,
     0 <= delta -> isRunning (round s) ->
     let t := timeRemaining (round s) in
     let t' := timeRemaining (round (fst (update h delta time s))) in
     let L := scanEvents (snd (update h delta time s)) in
     timeRemaining (round (fst (advanceTimer delta s))) <= t /\
     (delta < t -> t' = t - delta) /\
     (t <= delta -> L = [] -> t' = 0) /\
     (t <= delta -> L <> [] -> t' = gameDurationSeconds) /\
     (delta < t \/ L = [] -> t' <= t)).
Proof.
  intros Hr. pose proof (reachable_round_inv s Hr) as R.
  pose proof (ri_flags _ R) as F.
  unfold isIdle, isRunning, isEnded.
  split; [split; [apply (ri_lo _ R) | apply (ri_hi _ R)]|].
  split; [intros Hg; destruct (ri_idle _ R Hg) as (_ & H1 & H2 & _); done|].
  split; [apply (ri_running _ R)|].
  split.
  { destruct (gameStarted (round s)) eqn:Hg.
    - destruct (ri_phase _ R Hg) as [Hrun|He].
      + right. left. rewrite (fi_excl _ F Hrun). done.
      + right. right. destruct (timerRunning (round s)) eqn:Hrun; [|done].
        rewrite (fi_excl _ F Hrun) in He. done.
    - left. destruct (ri_idle _ R Hg) as (Hrun & _).
      rewrite Hrun. split; [done|]. split; [done|].
      intros He. rewrite (fi_ended _ F He) in Hg. done. }
  intros h delta time Hd Hrun.
  set (t := timeRemaining (round s)).
  set (t' := timeRemaining (round (fst (update h delta time s)))).
  set (L := scanEvents (snd (update h delta time s))).
  pose proof (ri_running _ R Hrun) as Hpos.
  assert (Hstep : delta < t ->
            timeRemaining (round (fst (update h delta time s))) = t - delta).
  { intros Hlt. rewrite (update_round_fold h delta time s F).
    assert (Hgt : 0 < timeRemaining (round s) - delta) by (unfold t in Hlt; lra).
    destruct (advanceTimer_running delta s Hrun Hgt) as [w Ha].
    rewrite Ha. simpl.
    match goal with |- timeRemaining (round (fold_left _ ?l ?x)) = _ =>
      destruct (fold_scoreScan_live l x) as (_ & H2 & _) end.
    { simpl. by apply (fi_excl _ F). }
    rewrite H2. reflexivity. }
  assert (Hout : t <= delta ->
            fst (advanceTimer delta s) =
            with_round s
              (mkRound 0 false (gameStarted (round s)) true true
                 (timerWarningPlayed (round s))
                 (scannedCount (round s)) (totalCartValue (round s)))).
  { intros Hle. rewrite advanceTimer_expired; try done. unfold t in Hle. lra. }
  assert (Hnone : t <= delta -> L = [] ->
            timeRemaining (round (fst (update h delta time s))) = 0).
  { intros Hle HL. rewrite (update_round_fold h delta time s F).
    fold L. rewrite HL, (Hout Hle). reflexivity. }
  split; [|split; [exact Hstep|split; [exact Hnone|split]]].
  - destruct (advanceTimer_time delta s Hd) as [H|[H _]]; [done|].
    unfold t in *. lra.
  - intros Hle HL. unfold t'.
    rewrite (update_round_fold h delta time s F). fold L.
    destruct (evPid <$> L) as [|pid pids] eqn:Hpids.
    { destruct L; done. }
    rewrite (Hout Hle).
    match goal with |- timeRemaining (round (fold_left _ _ ?x)) = _ =>
      destruct (fold_scoreScan_ended pid pids x) as (_ & H2 & _) end;
      try done.
    rewrite <- (Hout Hle). by apply flags_inv_advanceTimer.
  - intros [Hlt|HL].
    + unfold t'. rewrite (Hstep Hlt). unfold t in *. lra.
    + destruct (Qlt_le_dec delta t) as [Hlt|Hle].
      * unfold t'. rewrite (Hstep Hlt). unfold t in *. lra.
      * unfold t'. rewrite (Hnone Hle HL). unfold t in *. lra.
Qed.

Lemma round_invariants_witness :
  0 <= timeRemaining (round restockedScene) /\
  timeRemaining (round restockedScene) <= gameDurationSeconds.
Proof.
  refine (proj1 (round_invariants restockedScene _)).
  apply (reach_host _ (fst (update demoHost 5 6
                              (with_scannables runningScene []))));
    [|reflexivity].
  apply reach_tick; [|by vm_compute].
  apply (reach_host _ runningScene); [|reflexivity].
  apply reach_tick; [apply reach_init | by vm_compute].
Defined.

(** ** C6: the score ledger *)

Lemma advanceTimer_score delta s :
  scannedCount (round (fst (advanceTimer delta s))) = scannedCount (round s) /\
  totalCartValue (round (fst (advanceTimer delta s)))
  = totalCartValue (round s).
Proof.
  unfold advanceTimer, zeroCrossing, showRoundComplete.
  destruct (timerRunning (round s)); [|done]. simpl.
  destruct (Qle_bool _ 0); simpl; [|done].
  by destruct (roundShown (round s)).
Qed.

Lemma roundScans_reachable s pids : roundScans s pids -> reachable s.
Proof.
  induction 1 as [cfg zones objs|s s' pids _ IH Heq|s pids h delta time _ IH Hd].
  - apply reach_init.
  - by apply (reach_host _ s).
  - by apply reach_tick.
Qed.

Lemma roundScans_score s pids :
  roundScans s pids ->
  scannedCount (round s) = Z.of_nat (length pids) /\
  numEq (totalCartValue (round s)) (cartSum pids).
Proof.
  induction 1 as [cfg zones objs|s s' pids _ IH Heq
                 |s pids h delta time Hs [IHc IHt] Hd].
  - split; [done|]. reflexivity.
  - by rewrite Heq.
  - pose proof (reachableBy_flags _ s (roundScans_reachable s pids Hs)) as F.
    pose proof (flags_inv_advanceTimer delta s F) as F1.
    destruct (advanceTimer_score delta s) as [Hc Ht].
    rewrite (update_round_fold h delta time s F).
    set (new := evPid <$> scanEvents (snd (update h delta time s))).
    set (s1 := fst (advanceTimer delta s)) in *.
    destruct new as [|pid rest]; cbn [scansAfter fold_left].
    { rewrite Hc, Ht. done. }
    destruct (roundEnded (round s1)) eqn:He.
    + destruct (fold_scoreScan_ended pid rest s1 F1 He)
        as (_ & _ & _ & _ & H5 & H6).
      cbn [fold_left] in H5, H6. split; [exact H5 | exact H6].
    + destruct (fold_scoreScan_live (pid :: rest) s1 He)
        as (_ & _ & _ & _ & _ & H6 & H7).
      cbn [fold_left] in H6, H7. split.
      * rewrite H6, Hc, IHc, length_app. lia.
      * rewrite H7, Ht, IHt, cartSum_app. reflexivity.
Qed.

(** The tick that scans the entity with product id "constructor": the
    scan is counted, the cart is [NaN], the label code throws, the entity
    is time-stamped but neither hidden nor moved nor retired, and no
    replacement is spawned. *)
Lemma constructor_tick :
  update demoHost (1 # 60) 1 protoScene
  = (mkSystem
       (mkRound gameDurationSeconds true true false false false 1%Z NaN)
       demoConfig [demoZone]
       [ stamp 1 (demoItem "constructor" (1 # 10) 5);
         demoItem "pear" (2 # 10) 6 ],
     [ ScanEvent 0 0 "constructor"; TypeError 0 0 ]).
Proof. vm_compute. reflexivity. Qed.

(** C6.  Recording a sale adds exactly 1 to [scannedCount] whatever the
    product id.  It adds the price of the entry to [totalCartValue] when
    the id is a key of the price table, and leaves the total unchanged
    when [productInfo[id]] is [undefined].  For an id that the table
    inherits from [Object.prototype] ("constructor", "__proto__",
    "toString", ...) the guard [if (info)] passes although the table has
    no such product: the total becomes [NaN] and the label code throws,
    so the scan is cut short; the tick of [protoScene] shows it.  An
    honoured scan records exactly one sale, and the round a tick leaves
    behind is the round after its timer part with the tick's scans scored
    in order.  When the scans honoured so far in the current round are
    those of products [pids], [scannedCount] is their number and
    [totalCartValue] the sum of what they add, equality of totals being
    that of rationals. *)
Theorem score_consistency :
  (forall pid s,
     scannedCount (round (recordSale pid s))
     = (scannedCount (round s) + 1)%Z) /\
  (forall pid info s,
     productInfoOwn !! pid = Some info ->
     totalCartValue (round (recordSale pid s))
     = numAdd (totalCartValue (round s)) (Fin (price info))) /\
  (forall pid s,
     productInfo pid = None ->
     totalCartValue (round (recordSale pid s)) = totalCartValue (round s) /\
     scannedCount (round (recordSale pid s))
     = (scannedCount (round s) + 1)%Z) /\
  (forall pid s,
     pid ∈ objectPrototypeKeys ->
     productInfoOwn !! pid = None /\
     totalCartValue (round (recordSale pid s)) = NaN /\
     getProductLabel pid = None) /\
  (threw (snd (update demoHost (1 # 60) 1 protoScene)) = true /\
   totalCartValue (round (fst (update demoHost (1 # 60) 1 protoScene))) = NaN /\
   scannedCount (round (fst (update demoHost (1 # 60) 1 protoScene))) = 1%Z /\
   scannables (fst (update demoHost (1 # 60) 1 protoScene))
   = [ stamp 1 (demoItem "constructor" (1 # 10) 5);
       demoItem "pear" (2 # 10) 6 ]) /\
  (forall time zi zp i e o s1 st,
     round (sys (honorScan time zi zp i e o s1 st))
     = round (recordSale (default "" (productId e)) (startRound s1)) /\
     scannedCount (round (startRound s1)) = scannedCount (round s1) /\
     totalCartValue (round (startRound s1)) = totalCartValue (round s1)) /\
  (forall ok h delta time s,
     reachableBy ok s ->
     round (fst (update h delta time s)) =
     round (fold_left (fun s pid => scoreScan pid s)
              (evPid <$> scanEvents (snd (update h delta time s)))
              (fst (advanceTimer delta s)))) /\
  (forall s pids,
     roundScans s pids ->
     scannedCount (round s) = Z.of_nat (length pids) /\
     numEq (totalCartValue (round s)) (cartSum pids)).
Proof.
  split; [done|].
  split.
  { intros pid info s H. simpl. by rewrite (productInfo_own pid info H). }
  split; [intros pid s H; simpl; by rewrite H|].
  split.
  { intros pid s Hin.
    assert (Hown : productInfoOwn !! pid = None).
    { revert pid Hin. apply Forall_forall.
      repeat constructor; by vm_compute. }
    assert (Hinfo : productInfo pid = Some Inherited).
    { unfold productInfo. rewrite Hown. by rewrite decide_True. }
    split; [done|]. split.
    - simpl. rewrite Hinfo. simpl. by destruct (totalCartValue (round s)).
    - unfold getProductLabel. by rewrite Hinfo. }
  split; [by rewrite constructor_tick|].
  split.
  { intros time zi zp i e o s1 st. split; [by rewrite honorScan_eq|].
    unfold startRound. by destruct (gameStarted (round s1)). }
  split.
  { intros ok h delta time s Hr. apply update_round_fold.
    by eapply reachableBy_flags. }
  apply roundScans_score.
Qed.

Lemma score_consistency_witness :
  scannedCount (round runningScene) = 1%Z /\
  numEq (totalCartValue (round runningScene)) (cartSum ["goldBar"]).
Proof.
  refine (proj2 (proj2 (proj2 (proj2 (proj2 (proj2 (proj2
            score_consistency))))))
            runningScene ["goldBar"] _).
  exact (rs_tick demoScene [] demoHost (1 # 60) 1
           (rs_init demoConfig [demoZone] demoItems)
           ltac:(vm_compute; discriminate)).
Defined.

(** ** C7: flushing the respawn queue *)

Lemma firstWins_fresh rs : forall seen r,
  r ∈ firstWins seen rs -> (slotKey r ∉ seen) /\ r ∈ rs.
Proof.
  induction rs as [|a rs IH]; intros seen r Hin; simpl in Hin.
  - by apply elem_of_nil in Hin.
  - destruct (decide (slotKey a ∈ seen)) as [Ha|Ha].
    + destruct (IH seen r Hin) as [H1 H2]. split; [done|by right].
    + apply elem_of_cons in Hin as [->|Hin]; [split; [done|by left]|].
      destruct (IH _ r Hin) as [H1 H2]. split; [|by right].
      intros H. apply H1. by right.
Qed.

Lemma firstWins_nodup rs : forall seen,
  NoDup (slotKey <$> firstWins seen rs).
Proof.
  induction rs as [|a rs IH]; intros seen; simpl; [constructor|].
  destruct (decide (slotKey a ∈ seen)); [apply IH|].
  simpl. constructor; [|apply IH].
  intros Hin. apply list_elem_of_fmap_1 in Hin as (r & Hr & Hin).
  destruct (firstWins_fresh rs _ r Hin) as [Hn _].
  apply Hn. rewrite Hr. by left.
Qed.

Lemma firstWins_sublist rs : forall seen, sublist (firstWins seen rs) rs.
Proof.
  induction rs as [|a rs IH]; intros seen; simpl; [constructor|].
  destruct (decide (slotKey a ∈ seen)).
  - by apply sublist_cons.
  - by apply sublist_skip.
Qed.

(** A respawn whose key is already known is dropped. *)
Lemma firstWins_drop l1 r l2 : forall seen,
  slotKey r ∈ seen \/ slotKey r ∈ slotKey <$> l1 ->
  firstWins seen (l1 ++ r :: l2) = firstWins seen (l1 ++ l2).
Proof.
  induction l1 as [|a l1 IH]; intros seen H; simpl.
  - destruct H as [H|H]; [|by apply elem_of_nil in H].
    by rewrite decide_True.
  - destruct (decide (slotKey a ∈ seen)) as [Ha|Ha].
    + apply IH. destruct H as [H|H]; [by left|].
      simpl in H. apply elem_of_cons in H as [H|H]; [|by right].
      left. by rewrite H.
    + f_equal. apply IH. destruct H as [H|H]; [left; by right|].
      simpl in H. apply elem_of_cons in H as [H|H]; [|by right].
      left. rewrite H. by left.
Qed.

(** The first respawn queued for a slot is kept. *)
Lemma firstWins_keep l1 r l2 : forall seen,
  slotKey r ∉ seen -> slotKey r ∉ slotKey <$> l1 ->
  r ∈ firstWins seen (l1 ++ r :: l2).
Proof.
  induction l1 as [|a l1 IH]; intros seen Hs Hl; simpl.
  - rewrite decide_False by done. by left.
  - simpl in Hl. apply not_elem_of_cons in Hl as [Hne Hl].
    destruct (decide (slotKey a ∈ seen)) as [Ha|Ha].
    + by apply IH.
    + right. apply IH; [|done].
      intros H. apply elem_of_cons in H as [H|H]; done.
Qed.

(** A draw in [[0, 1)] picks a catalog entry. *)
Lemma drawn_in_range h k :
  0 <= random h k -> random h k < 1 ->
  exists def, drawn h k = Some def /\ def ∈ productCatalog.
Proof.
  intros H0 H1. unfold drawn.
  set (len := inject_Z (Z.of_nat (length productCatalog))).
  assert (Hlen : len == 11) by reflexivity.
  set (idx := Qfloor (random h k * len)).
  assert (Hlo : (0 <= idx)%Z).
  { change 0%Z with (Qfloor 0). apply Qfloor_resp_le. rewrite Hlen. lra. }
  assert (Hhi : (idx < 11)%Z).
  { rewrite Zlt_Qlt. eapply Qle_lt_trans; [apply Qfloor_le|].
    rewrite Hlen. change (inject_Z 11) with 11. lra. }
  destruct (idx <? 0)%Z eqn:Hneg; [lia|].
  destruct (productCatalog !! Z.to_nat idx) as [def|] eqn:Hdef.
  - exists def. split; [done|]. apply list_elem_of_lookup. eauto.
  - apply lookup_ge_None in Hdef. simpl in Hdef. lia.
Qed.

(** With every asset loaded and every draw in range, each honoured
    respawn spawns exactly one entity, in order. *)
Lemma spawns_loaded h :
  (forall k, 0 <= random h k /\ random h k < 1) ->
  (forall def, def ∈ productCatalog -> getGLTF h (assetKey def) = true) ->
  forall rs k0,
    length (spawns h k0 rs) = length rs /\
    forall k r, rs !! k = Some r ->
      exists def, drawn h (k0 + k) = Some def /\ def ∈ productCatalog /\
        spawns h k0 rs !! k
        = Some (spawned def (rHomeX r) (rHomeY r) (rHomeZ r)).
Proof.
  intros Hdraw Hload. induction rs as [|a rs IH]; intros k0; simpl.
  - split; [done|]. intros k r H. done.
  - destruct (Hdraw k0) as [H0 H1].
    destruct (drawn_in_range h k0 H0 H1) as (def & Hd & Hin).
    unfold spawnFor. rewrite Hd, (Hload def Hin). simpl.
    destruct (IH (S k0)) as [Hlen Hnth]. split; [by rewrite Hlen|].
    intros [|k] r Hk; simpl in Hk.
    + injection Hk as <-. exists def. by rewrite Nat.add_0_r.
    + destruct (Hnth k r Hk) as (def' & Hd' & Hin' & Hs).
      exists def'. by rewrite Nat.add_succ_r.
Qed.

(** An honoured slot gets no new entity when the asset of the drawn entry
    is not loaded: the gold bar is scanned, its respawn is queued and
    honoured, the draw picks the work boot, and the store has gained
    nothing. *)
Lemma respawn_needs_loaded_asset :
  let sw := sweep 1 (fst (advanceTimer (1 # 60) demoScene)) in
  scanEvents (snd (update bareHost (1 # 60) 1 demoScene))
  = [(0%nat, 0%nat, "goldBar")] /\
  respawns sw = [mkRespawn 5 0 0 0] /\
  firstWins [] (respawns sw) = [mkRespawn 5 0 0 0] /\
  drawn bareHost 0 = Some (mkProductDef "industrialShoe" "industrialShoe" (15 # 10)) /\
  length (scannables (fst (update bareHost (1 # 60) 1 demoScene)))
  = length (scannables demoScene).
Proof. vm_compute. repeat split. Qed.

(** C7 (amended).  In a tick from a reachable state the respawn queue has
    one entry per scan that ran to its end, carrying the home slot of the
    scanned entity; these are all the scan events when the tick does not
    throw.  The flush keeps the first entry queued for each slot key (the
    three coordinates at three decimals) and drops every later entry with
    a key already seen.  When the tick does not throw, the store after the
    tick is the swept store followed by what the kept entries spawn, in
    order: the [k]-th kept entry spawns exactly one entity when the asset
    of the [k]-th drawn catalog entry is loaded, and nothing when it is
    not; when the tick throws, the flush does not run.  A spawned entity
    has the home slot of its queue entry whatever was drawn, is placed
    there, is not retired, has last scan time -1, the drawn product id and
    the catalog scale of the drawn entry. *)
Theorem respawn_flush ok h delta time s :
  reachableBy ok s ->
  let sw := sweep time (fst (advanceTimer delta s)) in
  let queue := respawns sw in
  let kept := firstWins [] queue in
  let s' := fst (update h delta time s) in
  let L := scanEvents (snd (update h delta time s)) in
  let flushed := threw (snd (update h delta time s)) = false in
  Forall2 (queuedFor s) queue (completed L) /\
  (flushed -> completed L = L) /\
  NoDup (slotKey <$> kept) /\ sublist kept queue /\
  (forall l1 r l2, queue = l1 ++ r :: l2 ->
     (slotKey r ∈ slotKey <$> l1 -> kept = firstWins [] (l1 ++ l2)) /\
     (slotKey r ∉ slotKey <$> l1 -> r ∈ kept)) /\
  (flushed -> scannables s' = scannables (sys sw) ++ spawns h 0 kept) /\
  (~ flushed -> scannables s' = scannables (sys sw)) /\
  (forall k r def,
     drawn h k = Some def ->
     (getGLTF h (assetKey def) = true ->
      spawnFor h k r
      = Some (spawned def (rHomeX r) (rHomeY r) (rHomeZ r))) /\
     (getGLTF h (assetKey def) = false -> spawnFor h k r = None)) /\
  (flushed ->
   (forall k, 0 <= random h k /\ random h k < 1) ->
   (forall def, def ∈ productCatalog -> getGLTF h (assetKey def) = true) ->
   length (scannables s') = (length (scannables s) + length kept)%nat /\
   forall k r, kept !! k = Some r ->
     exists def, drawn h k = Some def /\ def ∈ productCatalog /\
       scannables s' !! (length (scannables s) + k)%nat
       = Some (spawned def (rHomeX r) (rHomeY r) (rHomeZ r))) /\
  (forall def x y z,
     let e := spawned def x y z in
     homeX e = Some x /\ homeY e = Some y /\ homeZ e = Some z /\
     lastScanTime e = Some (-1) /\ productId e = Some (defProductId def) /\
     object3D e = Some (mkObject3D (mkVector3 x y z) (scale def) true false)).
Proof.
  intros Hr sw queue kept s' L flushed.
  pose proof (reachableBy_flags ok s Hr) as F.
  destruct (update_sweep_inv delta time s F) as (I & C & Z & S).
  fold sw in I. unfold flushed. rewrite update_threw_sweep. fold sw.
  assert (HL : L = scanEvents (log sw)).
  { unfold L. by rewrite update_scanEvents. }
  assert (Hstore : threw (log sw) = false ->
            scannables s' = scannables (sys sw) ++ spawns h 0 kept).
  { intros Hno. unfold s'. by rewrite update_flush. }
  split.
  { rewrite HL.
    eapply Forall2_impl; [apply (si_respawns _ _ _ _ I)|].
    intros r ev. unfold queuedFor. by rewrite Z, S. }
  split.
  { intros Hno. rewrite HL. apply completed_all.
    by rewrite <- (si_log _ _ _ _ I). }
  split; [apply firstWins_nodup|]. split; [apply firstWins_sublist|].
  split.
  { intros l1 r l2 Hq. unfold kept. rewrite Hq. split.
    - intros Hin. apply firstWins_drop. by right.
    - intros Hn. apply firstWins_keep; [|done]. apply not_elem_of_nil. }
  split; [exact Hstore|]. split.
  { intros Hyes. apply not_false_is_true in Hyes.
    unfold s'. by rewrite update_threw. }
  split.
  { intros k r def Hd. unfold spawnFor. rewrite Hd.
    split; intros ->; reflexivity. }
  split; [|done].
  intros Hno Hdraw Hload.
  destruct (spawns_loaded h Hdraw Hload kept 0%nat) as [Hlen Hnth].
  pose proof (si_len _ _ _ _ I) as Hl. rewrite S in Hl.
  split.
  - rewrite (Hstore Hno), length_app, Hl, Hlen. reflexivity.
  - intros k r Hk. destruct (Hnth k r Hk) as (def & Hd & Hin & Hs).
    exists def. split; [done|]. split; [done|].
    rewrite (Hstore Hno), lookup_app_r by lia.
    rewrite Hl. replace (length (scannables s) + k - length (scannables s))%nat
      with k by lia. exact Hs.
Qed.

Lemma respawn_flush_witness :
  length (scannables (fst (update demoHost (1 # 60) 1 demoScene)))
  = (length (scannables demoScene)
     + length (firstWins []
                 (respawns (sweep 1 (fst (advanceTimer (1 # 60) demoScene))))))%nat.
Proof.
  refine (proj1 (proj1 (proj2 (proj2 (proj2 (proj2 (proj2 (proj2 (proj2
            (proj2
            (respawn_flush (fun _ => True) demoHost (1 # 60) 1 demoScene
               _)))))))))
            _ _ _)).
  - apply reach_init.
  - vm_compute. reflexivity.
  - intros k. split; vm_compute; [discriminate | reflexivity].
  - intros def _. reflexivity.
Defined.

(** ** C8: detection before respawn *)

Lemma spawns_fresh h rs : forall k e,
  e ∈ spawns h k rs ->
  exists def r, r ∈ rs /\ def ∈ productCatalog /\
    e = spawned def (rHomeX r) (rHomeY r) (rHomeZ r).
Proof.
  induction rs as [|a rs IH]; intros k e Hin; simpl in Hin.
  - by apply elem_of_nil in Hin.
  - apply elem_of_app in Hin as [Hin|Hin].
    + unfold spawnFor, drawn in Hin.
      destruct (_ <? 0)%Z; [by apply elem_of_nil in Hin|].
      destruct (productCatalog !! _) as [def|] eqn:Hd;
        [|by apply elem_of_nil in Hin].
      destruct (getGLTF h (assetKey def)); [|by apply elem_of_nil in Hin].
      apply list_elem_of_singleton in Hin as ->.
      exists def, a. split; [by left|]. split; [|done].
      apply list_elem_of_lookup. eauto.
    + destruct (IH _ e Hin) as (def & r & Hr & Hd & ->).
      exists def, r. split; [by right|done].
Qed.

(** C8.  A tick is the timer part, then the whole sweep, then the flush of
    the queue the sweep built; a sweep that throws ends the tick, and
    then nothing is flushed.  The sweep works on the entities the tick
    started with: the store keeps its length, entities not scanned keep
    their state, and every scan event names an entity of the pre-tick
    store that passes the tests there.  The entities spawned by the flush
    are appended behind the swept store: they sit beyond every scan event
    of the tick and come out of the tick never scanned and not retired. *)
Theorem sweep_before_respawn ok h delta time s :
  reachableBy ok s ->
  let sw := sweep time (fst (advanceTimer delta s)) in
  let s' := fst (update h delta time s) in
  let L := scanEvents (snd (update h delta time s)) in
  update h delta time s =
    (if threw (log sw) then sys sw
     else with_scannables (sys sw)
            (scannables (sys sw) ++ spawns h 0 (firstWins [] (respawns sw))),
     snd (advanceTimer delta s) ++ log sw) /\
  length (scannables (sys sw)) = length (scannables s) /\
  (forall i, i ∉ evEntity <$> L ->
             scannables (sys sw) !! i = scannables s !! i) /\
  (forall ev, ev ∈ L ->
     (evEntity ev < length (scannables s))%nat /\
     exists z e, scanners s !! evZone ev = Some z /\
                 scannables s !! evEntity ev = Some e /\
                 eligible (config s) time z e = true) /\
  (forall i e,
     (length (scannables s) <= i)%nat -> scannables s' !! i = Some e ->
     (forall ev, ev ∈ L -> evEntity ev <> i) /\
     lastScanTime e = Some (-1) /\
     exists o, object3D e = Some o /\ scannedOut o = false /\
               visible o = true).
Proof.
  intros Hr sw s' L. pose proof (reachableBy_flags ok s Hr) as F.
  destruct (update_sweep_inv delta time s F) as (I & C & Z & S).
  fold sw in I. unfold L, s'. rewrite update_scanEvents. fold sw.
  pose proof (si_len _ _ _ _ I) as Hlen. rewrite S in Hlen.
  assert (Hev : forall ev, ev ∈ scanEvents (log sw) ->
     (evEntity ev < length (scannables s))%nat /\
     exists z e, scanners s !! evZone ev = Some z /\
                 scannables s !! evEntity ev = Some e /\
                 eligible (config s) time z e = true).
  { intros ev Hin.
    destruct (si_sound _ _ _ _ I ev Hin) as (z & e & Hz & He & Hel & _).
    rewrite Z in Hz. rewrite S in He. rewrite C in Hel.
    split; [by eapply lookup_lt_Some|]. by exists z, e. }
  split.
  { destruct (threw (log sw)) eqn:Ht;
      [by apply update_threw | by apply update_flush]. }
  split; [exact Hlen|]. split.
  { intros i Hi. rewrite <- S. apply (si_free _ _ _ _ I).
    by rewrite (si_taken _ _ _ _ I). }
  split; [exact Hev|].
  intros i e Hge Hi.
  destruct (threw (log sw)) eqn:Ht.
  { rewrite update_threw in Hi by done. fold sw in Hi. simpl in Hi.
    apply lookup_lt_Some in Hi. lia. }
  rewrite update_flush in Hi by done. fold sw in Hi.
  simpl in Hi. rewrite lookup_app_r in Hi by lia.
  apply list_elem_of_lookup_2 in Hi.
  destruct (spawns_fresh _ _ _ _ Hi) as (def & r & _ & _ & ->).
  split.
  - intros ev Hin Heq. destruct (Hev ev Hin) as [Hlt _]. lia.
  - split; [done|]. by eexists.
Qed.

Lemma sweep_before_respawn_witness :
  length (scannables (sys (sweep 1 (fst (advanceTimer (1 # 60) demoScene)))))
  = length (scannables demoScene).
Proof.
  refine (proj1 (proj2 (sweep_before_respawn (fun _ => True) demoHost
                          (1 # 60) 1 demoScene _))).
  apply reach_init.
Defined.

(** ** C9: the radius test *)

Lemma inRadius_le radiusSq zp op :
  inRadius radiusSq zp op = true <-> distanceToSquared zp op <= radiusSq.
Proof.
  unfold inRadius, Qgtb. rewrite negb_true_iff. apply Qltb_ge.
Qed.

(** C9.  The distance the test uses is the squared Euclidean distance
    between the two world positions, the sum of the squares of the three
    coordinate differences.  For a zone of nominal radius [r] (its own
    [radius], or the configured [scanRadius] when it has none) the radius
    test passes exactly when that sum is at most [(r * 1.1)^2], equality
    included.  For an entity with a mesh, not retired, not scanned in
    this frame and off cooldown, the inner loop honours the scan exactly
    when that test passes, and leaves the sweep untouched when it fails;
    a retired entity is skipped whatever its position.  Every scan event
    of a tick names an entity that, on the pre-tick scene, is not retired
    and lies within the tolerance radius of its zone.  On the demo zone
    (radius 0.25, tolerance radius 0.275) an entity at distance 0.275 is
    scanned and one at distance 0.276 is not. *)
Theorem radius_test ok h delta time s :
  reachableBy ok s ->
  (forall a b,
     distanceToSquared a b
     = (vx a - vx b) * (vx a - vx b) + (vy a - vy b) * (vy a - vy b)
       + (vz a - vz b) * (vz a - vz b)) /\
  (forall cfg z zp op,
     let zoneRadius := default (scanRadius cfg) (radius z) * (11 # 10) in
     inRadius (zoneRadiusSq cfg z) zp op = true <->
     (vx zp - vx op) * (vx zp - vx op) + (vy zp - vy op) * (vy zp - vy op)
     + (vz zp - vz op) * (vz zp - vz op) <= zoneRadius * zoneRadius) /\
  (forall st zi z zp i e o,
     flags_inv (round (sys st)) -> i ∉ scannedThisFrame st ->
     object3D e = Some o -> scannedOut o = false ->
     onCooldown (scanCooldown (config (sys st))) time e = false ->
     let zoneRadius :=
       default (scanRadius (config (sys st))) (radius z) * (11 # 10) in
     let op := position o in
     let within :=
       (vx zp - vx op) * (vx zp - vx op) + (vy zp - vy op) * (vy zp - vy op)
       + (vz zp - vz op) * (vz zp - vz op) <= zoneRadius * zoneRadius in
     ((exists st', tryScan time zi zp (zoneRadiusSq (config (sys st)) z) i e st
                   = Break st') <-> within) /\
     (~ within ->
      tryScan time zi zp (zoneRadiusSq (config (sys st)) z) i e st
      = Continue st)) /\
  (forall st zi zp rsq i e o,
     object3D e = Some o -> scannedOut o = true ->
     tryScan time zi zp rsq i e st = Continue st) /\
  (forall ev, ev ∈ scanEvents (snd (update h delta time s)) ->
     exists z zp e o,
       scanners s !! evZone ev = Some z /\ zoneObject3D z = Some zp /\
       scannables s !! evEntity ev = Some e /\ object3D e = Some o /\
       scannedOut o = false /\
       let zoneRadius := default (scanRadius (config s)) (radius z) * (11 # 10) in
       let op := position o in
       (vx zp - vx op) * (vx zp - vx op) + (vy zp - vy op) * (vy zp - vy op)
       + (vz zp - vz op) * (vz zp - vz op) <= zoneRadius * zoneRadius) /\
  (let edge := init demoConfig [demoZone] [demoItem "pear" (275 # 1000) 6] in
   let beyond := init demoConfig [demoZone] [demoItem "pear" (276 # 1000) 6] in
   scanEvents (snd (update demoHost 0 0 edge)) = [(0%nat, 0%nat, "pear")] /\
   scanEvents (snd (update demoHost 0 0 beyond)) = [] /\
   scannables (fst (update demoHost 0 0 beyond)) = scannables beyond).
Proof.
  intros Hr. pose proof (reachableBy_flags ok s Hr) as F.
  assert (D : forall a b,
     (vx a - vx b) * (vx a - vx b) + (vy a - vy b) * (vy a - vy b)
     + (vz a - vz b) * (vz a - vz b) = distanceToSquared a b)
    by reflexivity.
  split; [done|].
  split; [intros cfg z zp op zoneRadius; rewrite D; apply inRadius_le|].
  split; [|split; [|split]].
  - intros st zi z zp i e o Fst Hi Ho Hout Hcd zoneRadius op within.
    subst within op. rewrite D.
    change (zoneRadius * zoneRadius) with (zoneRadiusSq (config (sys st)) z).
    rewrite <- (inRadius_le (zoneRadiusSq (config (sys st)) z)).
    assert (Hmiss : inRadius (zoneRadiusSq (config (sys st)) z) zp (position o)
                    = false ->
              tryScan time zi zp (zoneRadiusSq (config (sys st)) z) i e st
              = Continue st).
    { intros Hin. apply tryScan_skip.
      intros [_ Hq]. simpl in Hq. unfold qualifies in Hq.
      by rewrite Ho, Hout, Hin in Hq. }
    destruct (inRadius _ zp (position o)) eqn:Hin.
    + split; [|by intros N; destruct N]. split; [done|]. intros _.
      destruct (tryScan_hit time zi zp (zoneRadiusSq (config (sys st)) z)
                  i e st) as (o' & Ho' & Ht).
      { split; [done|]. simpl. unfold qualifies.
        by rewrite Ho, Hout, Hin, Hcd. }
      destruct (roundGate_is_Some (sys st) Fst) as (s1 & Hg & _).
      rewrite Hg in Ht. by eexists.
    + split; [|by intros _; apply Hmiss].
      split; [|done]. intros [st' Ht]. by rewrite Hmiss in Ht.
  - intros st zi zp rsq i e o Ho Hout. apply tryScan_skip.
    intros [_ Hq]. simpl in Hq. unfold qualifies in Hq.
    by rewrite Ho, Hout in Hq.
  - intros ev Hev. rewrite update_scanEvents in Hev.
    destruct (update_sweep_inv delta time s F) as (I & C & Z & S).
    destruct (si_sound _ _ _ _ I ev Hev) as (z & e & Hz & He & Hel & _).
    rewrite Z in Hz. rewrite S in He. rewrite C in Hel.
    apply eligible_inv in Hel as (zp & o & Hzp & Ho & Hout & Hin & _).
    exists z, zp, e, o. repeat split; try done.
    simpl. rewrite D. by apply inRadius_le.
  - by vm_compute.
Qed.

Lemma radius_test_witness :
  inRadius (zoneRadiusSq demoConfig demoZone) (mkVector3 0 0 0)
    (mkVector3 (275 # 1000) 0 0) = true <->
  (0 - (275 # 1000)) * (0 - (275 # 1000)) + (0 - 0) * (0 - 0)
  + (0 - 0) * (0 - 0)
  <= (25 # 100) * (11 # 10) * ((25 # 100) * (11 # 10)).
Proof.
  refine (proj1 (proj2 (radius_test (fun _ => True) demoHost 0 0 demoScene _))
            demoConfig demoZone (mkVector3 0 0 0)
            (mkVector3 (275 # 1000) 0 0)).
  apply reach_init.
Defined.

(** ** C10: no scan is dropped by the round gate *)

Lemma sweep_log_no_discard time s :
  flags_inv (round s) ->
  Forall (fun ev => isDiscarded ev = false) (log (sweep time s)).
Proof.
  intros F. rewrite (si_log _ _ _ _ (sweep_inv_sweep time s F)).
  apply Forall_forall. intros ev Hev.
  apply list_elem_of_bind in Hev as ([[z i] p] & Hev & _).
  unfold logOf in Hev. simpl in Hev.
  apply elem_of_cons in Hev as [->|Hev]; [done|].
  destruct (aborts p); [|by apply elem_of_nil in Hev].
  by apply list_elem_of_singleton in Hev as ->.
Qed.

(** The sweep state at the entry of zone [k]. *)
Lemma sweep_inv_prefix time s k :
  flags_inv (round s) -> (k <= length (scanners s))%nat ->
  sweep_inv time s k
    (sweepZones time (take k (imap pair (scanners s))) (mkSweep s ∅ [] [])).
Proof.
  intros F Hk.
  pose proof (sweep_inv_zones time s (take k (imap pair (scanners s)))
                0%nat (mkSweep s ∅ [] [])) as H.
  rewrite length_take_le in H by (by rewrite length_imap).
  apply H; [|by apply sweep_inv_init].
  intros n zi z Hn. apply lookup_take_Some in Hn as [Hn _].
  rewrite list_lookup_imap in Hn.
  destruct (scanners s !! n) as [z'|] eqn:Hz; [|done].
  simpl in Hn. injection Hn as <- <-. done.
Qed.

Lemma flags_inv_scoreScan pid s :
  flags_inv (round s) -> flags_inv (round (scoreScan pid s)).
Proof.
  intros F. unfold scoreScan.
  destruct (roundGate_is_Some s F) as (s1 & -> & F1 & _). simpl.
  by apply flags_inv_recordSale, flags_inv_startRound.
Qed.

Lemma phase_inv_scoreScan pid s :
  phase_inv (round s) -> phase_inv (round (scoreScan pid s)).
Proof.
  intros [F P]. split; [by apply flags_inv_scoreScan|].
  destruct (roundEnded (round s)) eqn:He.
  - destruct (scoreScan_ended pid s F He) as [_ ->]. simpl. by left.
  - rewrite (scoreScan_live pid s He). simpl. intros _. left.
    destruct (gameStarted (round s)); [|done].
    by destruct P as [Hrun|Hend]; [done|assumption|congruence].
Qed.

Lemma phase_inv_fold pids : forall s,
  phase_inv (round s) ->
  phase_inv (round (fold_left (fun s pid => scoreScan pid s) pids s)).
Proof.
  induction pids as [|pid pids IH]; intros s P; simpl; [done|].
  by apply IH, phase_inv_scoreScan.
Qed.

Lemma phase_inv_advanceTimer delta s :
  phase_inv (round s) -> phase_inv (round (fst (advanceTimer delta s))).
Proof.
  intros [F P]. split; [by apply flags_inv_advanceTimer|].
  destruct (timerRunning (round s)) eqn:Hrun.
  - destruct (Qlt_le_dec 0 (timeRemaining (round s) - delta)) as [Hgt|Hle].
    + destruct (advanceTimer_running delta s Hrun Hgt) as [w ->]. simpl.
      by left.
    + rewrite (advanceTimer_expired delta s F Hrun Hle). simpl. by right.
  - rewrite advanceTimer_stopped by done. simpl. by rewrite Hrun.
Qed.

Lemma phase_inv_update h delta time s :
  phase_inv (round s) -> phase_inv (round (fst (update h delta time s))).
Proof.
  intros P. rewrite (update_round_fold h delta time s (proj1 P)).
  by apply phase_inv_fold, phase_inv_advanceTimer.
Qed.

Lemma reachableBy_phase ok s : reachableBy ok s -> phase_inv (round s).
Proof.
  induction 1 as [cfg zones objs|s s' _ IH Heq|s h delta time _ IH _].
  - split; [apply flags_inv_fresh | done].
  - by rewrite Heq.
  - by apply phase_inv_update.
Qed.

(** What the honoured scan does to the round, past the gate. *)
Lemma honorScan_scores time zi zp i e o s2 st :
  let st' := honorScan time zi zp i e o s2 st in
  let pid := default "" (productId e) in
  scannedCount (round (sys st')) = (scannedCount (round s2) + 1)%Z /\
  numEq (totalCartValue (round (sys st')))
    (numAdd (totalCartValue (round s2)) (priceOf pid)) /\
  timeRemaining (round (sys st')) = timeRemaining (round s2) /\
  gameStarted (round (sys st')) = true /\
  timerRunning (round (sys st'))
  = (if gameStarted (round s2) then timerRunning (round s2) else true) /\
  roundEnded (round (sys st')) = roundEnded (round s2) /\
  log st' = log st ++ logOf (zi, i, pid).
Proof.
  cbv zeta. rewrite honorScan_eq. cbn [sys log round with_scannables].
  pose proof (total_priceOf (default "" (productId e))
                (totalCartValue (round s2))) as Hp.
  unfold recordSale, startRound.
  destruct (gameStarted (round s2)) eqn:Hg; simpl; rewrite ?Hg;
    repeat split; exact Hp.
Qed.

(** C10.  In every reachable state, a stopped clock at 0 goes with the
    round-ended flag, so the round gate never answers with the bare
    [continue]: it lets the scan score in the current round, or, the
    round being Ended, resets the round first.  No tick takes the
    discarding branch.  At the entry of every zone of a sweep every
    candidate that passes the tests is honoured, and the honoured scan
    scores: it adds one to [scannedCount] and the product's price to the
    cart (counted from zero when the round has just been reset), it is
    logged, and it leaves a started round whose clock is running, at the
    value the gate left (the full duration after a reset).  At the level
    of the tick: a tick with scan events leaves a running round; when the
    round was not over after the timer part, the score and the cart have
    grown by the tick's scans and the clock is where the timer part left
    it; when it was over, the new round counts exactly the tick's scans
    and its clock is at the full duration. *)
Theorem no_scan_discarded ok s :
  reachableBy ok s ->
  (timerRunning (round s) = false -> timeRemaining (round s) == 0 ->
   roundEnded (round s) = true) /\
  (timerRunning (round s) = false -> timeRemaining (round s) <= 0 ->
   roundEnded (round s) = true) /\
  (roundGate s = Some s \/
   (isEnded (round s) /\ roundGate s = Some (resetRound s))) /\
  (forall h delta time,
     Forall (fun ev => isDiscarded ev = false) (snd (update h delta time s))) /\
  (forall delta time k zi zp rsq i e,
     (k <= length (scanners s))%nat ->
     let s1 := fst (advanceTimer delta s) in
     let st := sweepZones time (take k (imap pair (scanners s1)))
                 (mkSweep s1 ∅ [] []) in
     stops st time zp rsq (i, e) ->
     exists o s2,
       let st' := honorScan time zi zp i e o s2 st in
       let pid := default "" (productId e) in
       object3D e = Some o /\ roundGate (sys st) = Some s2 /\
       ((s2 = sys st /\ roundEnded (round (sys st)) = false) \/
        (isEnded (round (sys st)) /\ s2 = resetRound (sys st) /\
         scannedCount (round s2) = 0%Z /\ totalCartValue (round s2) = Fin 0 /\
         timeRemaining (round s2) = gameDurationSeconds)) /\
       tryScan time zi zp rsq i e st = Break st' /\
       scannedCount (round (sys st')) = (scannedCount (round s2) + 1)%Z /\
       numEq (totalCartValue (round (sys st')))
         (numAdd (totalCartValue (round s2)) (priceOf pid)) /\
       timeRemaining (round (sys st')) = timeRemaining (round s2) /\
       gameStarted (round (sys st')) = true /\
       timerRunning (round (sys st')) = true /\
       roundEnded (round (sys st')) = false /\
       log st' = log st ++ logOf (zi, i, pid)) /\
  (forall h delta time,
     let s1 := fst (advanceTimer delta s) in
     let L := scanEvents (snd (update h delta time s)) in
     let r' := round (fst (update h delta time s)) in
     L <> [] ->
     timerRunning r' = true /\ gameStarted r' = true /\
     roundEnded r' = false /\
     (roundEnded (round s1) = false ->
      scannedCount r' = (scannedCount (round s1) + Z.of_nat (length L))%Z /\
      numEq (totalCartValue r')
        (numAdd (totalCartValue (round s1)) (cartSum (evPid <$> L))) /\
      timeRemaining r' = timeRemaining (round s1)) /\
     (roundEnded (round s1) = true ->
      scannedCount r' = Z.of_nat (length L) /\
      numEq (totalCartValue r') (cartSum (evPid <$> L)) /\
      timeRemaining r' = gameDurationSeconds)).
Proof.
  intros Hr. pose proof (reachableBy_flags ok s Hr) as F.
  pose proof (reachableBy_phase ok s Hr) as P.
  assert (Hgate : timerRunning (round s) = false ->
                  timeRemaining (round s) <= 0 ->
                  roundEnded (round s) = true) by apply (fi_gate _ F).
  split; [intros Hrun Hz; apply Hgate; [done|]; rewrite Hz; lra|].
  split; [exact Hgate|]. split.
  { destruct (roundGate_flags s F) as [[Hg _]|(Hg & He & _)];
      [by left | by right]. }
  split.
  { intros h delta time. rewrite update_log. apply Forall_app. split.
    - apply advanceTimer_log.
    - by apply sweep_log_no_discard, flags_inv_advanceTimer. }
  split.
  - intros delta time k zi zp rsq i e Hk s1 st Hs.
    destruct (advanceTimer_frame delta s) as (_ & Z & _).
    assert (I : sweep_inv time s1 k st).
    { apply sweep_inv_prefix; [by apply flags_inv_advanceTimer|].
      unfold s1. by rewrite Z. }
    pose proof (si_flags _ _ _ _ I) as Fst.
    assert (Pst : phase_inv (round (sys st))).
    { rewrite (si_round _ _ _ _ I).
      by apply phase_inv_fold, phase_inv_advanceTimer. }
    destruct (tryScan_hit time zi zp rsq i e st Hs) as (o & Ho & Ht).
    destruct (roundGate_flags (sys st) Fst)
      as [[Hg Hlive]|(Hg & He & _)]; rewrite Hg in Ht.
    + assert (Hne : roundEnded (round (sys st)) = false).
      { destruct (roundEnded (round (sys st))) eqn:He; [|done].
        destruct Hlive as [Hrun|Hpos].
        - by rewrite (fi_excl _ Fst Hrun) in He.
        - rewrite (fi_zero _ Fst He) in Hpos. by apply Qlt_irrefl in Hpos. }
      exists o, (sys st). cbv zeta.
      destruct (honorScan_scores time zi zp i e o (sys st) st)
        as (H1 & H2 & H3 & H4 & H5 & H6 & H7).
      split; [done|]. split; [done|]. split; [by left|].
      split; [done|]. repeat split; try done.
      * rewrite H5. destruct (gameStarted (round (sys st))) eqn:Hgs; [|done].
        destruct (proj2 Pst Hgs) as [Hrun|Hend]; [done|congruence].
      * by rewrite H6.
    + exists o, (resetRound (sys st)). cbv zeta.
      destruct (honorScan_scores time zi zp i e o (resetRound (sys st)) st)
        as (H1 & H2 & H3 & H4 & H5 & H6 & H7).
      split; [done|]. split; [done|]. split; [by right|].
      split; [done|]. repeat split; done.
  - intros h delta time s1 L r' Hne. unfold r'.
    rewrite (update_round_fold h delta time s F). fold L. fold s1.
    assert (F1 : flags_inv (round s1)) by by apply flags_inv_advanceTimer.
    assert (P1 : phase_inv (round s1)) by by apply phase_inv_advanceTimer.
    assert (Hpids : evPid <$> L <> []) by by destruct L.
    destruct (roundEnded (round s1)) eqn:He.
    + destruct (evPid <$> L) as [|pid pids] eqn:Hp; [done|].
      destruct (fold_scoreScan_ended pid pids s1 F1 He)
        as (H1 & H2 & H3 & H4 & H5 & H6).
      repeat split; try done.
      rewrite H5, <- Hp. by rewrite length_fmap.
    + destruct (fold_scoreScan_live (evPid <$> L) s1 He)
        as (H1 & H2 & H3 & H4 & H5 & H6 & H7).
      rewrite length_fmap in H6.
      repeat split; try done; [|by apply H3].
      destruct (gameStarted (round s1)) eqn:Hgs; [|by apply H5].
      apply H4. destruct (proj2 P1 Hgs) as [Hrun|Hend]; [done|congruence].
Qed.

Lemma no_scan_discarded_witness :
  timerRunning (round (fst (update demoHost (1 # 60) 1 demoScene))) = true /\
  scannedCount (round (fst (update demoHost (1 # 60) 1 demoScene)))
  = (scannedCount (round (fst (advanceTimer (1 # 60) demoScene)))
     + Z.of_nat (length (scanEvents
                           (snd (update demoHost (1 # 60) 1 demoScene)))))%Z.
Proof.
  destruct (proj2 (proj2 (proj2 (proj2 (proj2
              (no_scan_discarded (fun _ => True) demoScene
                 (reach_init _ _ _ _))))))
              demoHost (1 # 60) 1) as (H1 & _ & _ & H4 & _).
  - by vm_compute.
  - split; [exact H1|]. apply H4. reflexivity.
Defined.

(** ** Scenarios *)

(** The first tick of the demo scene: the gold bar is scanned, the pear
    behind it is not, the round starts and a work boot takes the slot of
    the gold bar. *)
Example demo_first_tick :
  scanEvents (snd (update demoHost (1 # 60) 1 demoScene))
  = [(0%nat, 0%nat, "goldBar")] /\
  round runningScene
  = mkRound 30 true true false false false 1 (Fin (0 + (2999 # 100))) /\
  scannables runningScene !! 3%nat
  = Some (spawned (mkProductDef "industrialShoe" "industrialShoe" (15 # 10))
            5 0 0).
Proof. vm_compute. repeat split. Qed.

(** Slot keys: three decimals, ties away from zero, the sign kept. *)
Example slotKey_examples :
  slotKey (mkRespawn (12344 # 10000) (-(1 # 2)) (87 # 100) 0)
  = "1.234|-0.500|0.870" /\
  toFixed3 (5 # 10000) = "0.001" /\ toFixed3 (-(4 # 10000)) = "-0.000" /\
  slotKey (mkRespawn 0 0 0 0) = slotKey (mkRespawn (4 # 10000) 0 0 1).
Proof. vm_compute. repeat split. Qed.

(** Two scans of one tick whose home slots share a key: both are scored,
    one replacement is spawned, at the slot queued first. *)
Example twin_slots_one_respawn :
  scanEvents (snd (update demoHost (1 # 60) 1 twinScene))
  = [(0%nat, 0%nat, "pear"); (1%nat, 1%nat, "glasses")] /\
  respawns (sweep 1 (fst (advanceTimer (1 # 60) twinScene)))
  = [mkRespawn 0 0 0 0; mkRespawn (4 # 10000) 0 0 1] /\
  drop 2 (scannables (fst (update demoHost (1 # 60) 1 twinScene)))
  = [spawned (mkProductDef "industrialShoe" "industrialShoe" (15 # 10))
       0 0 0].
Proof. vm_compute. repeat split. Qed.

(** One entity within two zones is consumed by the first of them. *)
Example shared_entity_one_zone :
  scanEvents (snd (update demoHost (1 # 60) 1 sharedScene))
  = [(0%nat, 0%nat, "pear")].
Proof. vm_compute. reflexivity. Qed.

(** A gold bar, a work boot and a fleece jacket make 159.97, over the
    goal of 150. *)
Example winning_cart :
  numEq (cartSum ["goldBar"; "industrialShoe"; "fleeceJacket"])
    (Fin (15997 # 100)) /\
  numGeb (cartSum ["goldBar"; "industrialShoe"; "fleeceJacket"]) goalCartValue
  = true.
Proof. split; [by vm_compute | by vm_compute]. Qed.

(** With a cooldown of 0.75, an entity scanned at 0 is blocked at 0.5 and
    free again at 0.8. *)
Example cooldown_window :
  let e := mkScannable None None (Some 0) None None None in
  onCooldown (75 # 100) (1 # 2) e = true /\
  onCooldown (75 # 100) (8 # 10) e = false.
Proof. vm_compute. by split. Qed.

(** * The display *)

(** ** The display never feeds back *)

Lemma showRoundCompleteH_core x :
  core (fst (showRoundCompleteH x)) = fst (showRoundComplete (core x)) /\
  snd (showRoundCompleteH x) = snd (showRoundComplete (core x)).
Proof.
  unfold showRoundCompleteH, showRoundComplete.
  by destruct (roundShown (round (core x))).
Qed.

Lemma zeroCrossingH_core x :
  core (fst (zeroCrossingH x)) = fst (zeroCrossing (core x)) /\
  snd (zeroCrossingH x) = snd (zeroCrossing (core x)).
Proof.
  unfold zeroCrossingH, zeroCrossing.
  destruct (Qle_bool (timeRemaining (round (core x))) 0); [|done].
  apply (showRoundCompleteH_core (mkHudSystem _ _)).
Qed.

Lemma advanceTimerH_core delta x :
  core (fst (advanceTimerH delta x)) = fst (advanceTimer delta (core x)) /\
  snd (advanceTimerH delta x) = snd (advanceTimer delta (core x)).
Proof.
  unfold advanceTimerH, advanceTimer.
  destruct (timerRunning (round (core x))); [|done].
  match goal with |- context [zeroCrossingH ?y] =>
    destruct (zeroCrossingH_core y) as [H1 H2];
    destruct (zeroCrossingH y) as [x' ended] end.
  simpl in H1, H2.
  destruct (zeroCrossing _) as [s' ended']. simpl in *. by subst.
Qed.

Lemma roundGateH_core x : core <$> roundGateH x = roundGate (core x).
Proof.
  unfold roundGateH, roundGate.
  destruct (negb _ && _); [|done]. by destruct (roundEnded _).
Qed.

Lemma tryScanH_core time zi zp rsq i e st :
  flowCore (tryScanH time zi zp rsq i e st)
  = tryScan time zi zp rsq i e (sweepCore st).
Proof.
  unfold tryScanH, tryScan.
  destruct (decide (i ∈ scannedThisFrame (sweepCore st))); [done|].
  destruct (object3D e) as [o|]; [|done].
  destruct (scannedOut o); [done|].
  destruct (negb (inRadius rsq zp (position o))); [done|].
  destruct (onCooldown _ time e); [done|].
  pose proof (roundGateH_core (mkHudSystem (sys (sweepCore st)) (sweepHud st)))
    as Hg. simpl in Hg. rewrite <- Hg.
  by destruct (roundGateH _).
Qed.

Lemma scanZoneH_core time zi zp rsq cands : forall st,
  sweepCore (scanZoneH time zi zp rsq cands st)
  = scanZone time zi zp rsq cands (sweepCore st).
Proof.
  induction cands as [|[i e] rest IH]; intros st; simpl; [done|].
  rewrite <- tryScanH_core.
  destruct (tryScanH time zi zp rsq i e st); simpl; [apply IH|done].
Qed.

Lemma sweepZoneH_core delta time zi z st :
  sweepCore (sweepZoneH delta time zi z st)
  = sweepZone time zi z (sweepCore st).
Proof.
  unfold sweepZoneH, sweepZone. destruct (zoneObject3D z); [|done].
  by rewrite scanZoneH_core.
Qed.

Lemma sweepZonesH_core delta time zs : forall st,
  sweepCore (sweepZonesH delta time zs st)
  = sweepZones time zs (sweepCore st).
Proof.
  induction zs as [|[zi z] zs IH]; intros st; simpl; [done|].
  rewrite <- (sweepZoneH_core delta).
  destruct (threw (log (sweepCore (sweepZoneH delta time zi z st))));
    [done|apply IH].
Qed.

Lemma updateH_core h camera delta time x :
  core (fst (updateH h camera delta time x))
  = fst (update h delta time (core x)) /\
  snd (updateH h camera delta time x) = snd (update h delta time (core x)).
Proof.
  unfold updateH, update.
  destruct (advanceTimerH_core delta x) as [H1 H2].
  destruct (advanceTimerH delta x) as [x1 timerLog].
  destruct (advanceTimer delta (core x)) as [s1 timerLog'].
  simpl in H1, H2. subst. rewrite sweepZonesH_core. simpl.
  fold (sweep time (core x1)).
  destruct (threw (log (sweep time (core x1)))); [done|].
  by destruct (respawns _).
Qed.

Lemma reachableH_core x : reachableH x -> reachable (core x).
Proof.
  induction 1 as [|x s' _ IH Heq|x h camera delta time _ IH Hd].
  - apply reach_init.
  - by apply (reach_host _ (core x)).
  - rewrite (proj1 (updateH_core h camera delta time x)).
    by apply reach_tick.
Qed.

(** ** Invariants of the display *)

Lemma advanceTimerH_hud delta x :
  flags_inv (round (core x)) ->
  hud (fst (advanceTimerH delta x)) =
  if timerRunning (round (core x))
     && Qle_bool (timeRemaining (round (core x)) - delta) 0
  then showRoundCompleteHud (round (core x)) (hud x)
  else hud x.
Proof.
  intros F. unfold advanceTimerH, zeroCrossingH, showRoundCompleteH.
  destruct (timerRunning (round (core x))) eqn:Hrun; [|done]. simpl.
  destruct (Qle_bool _ 0); [|done]. simpl.
  rewrite (fi_shown _ F), (fi_excl _ F Hrun). reflexivity.
Qed.

Lemma hud_ok_advanceTimerH delta x :
  flags_inv (round (core x)) -> hud_ok (round (core x)) (hud x) ->
  hud_ok (round (core (fst (advanceTimerH delta x))))
    (hud (fst (advanceTimerH delta x))).
Proof.
  intros F [Ht Hs Hto Ho Hon].
  rewrite (proj1 (advanceTimerH_core delta x)), (advanceTimerH_hud delta x F).
  destruct (timerRunning (round (core x))) eqn:Hrun; simpl.
  - destruct (Qlt_le_dec 0 (timeRemaining (round (core x)) - delta))
      as [Hgt|Hle].
    + destruct (advanceTimer_running delta (core x) Hrun Hgt) as [w ->].
      apply Qle_bool_gt in Hgt. rewrite Hgt. by split.
    + rewrite (advanceTimer_expired delta (core x) F Hrun Hle).
      apply Qle_bool_iff in Hle. rewrite Hle.
      split; try done.
      destruct Ho as [Hp Hm]. split; simpl.
      * intros Hh. by rewrite Hh.
      * intros Hh. rewrite Hh. by split.
  - by rewrite advanceTimer_stopped.
Qed.

Lemma Qceiling_nonneg t : 0 <= t -> (0 <= Qceiling t)%Z.
Proof.
  intros H. rewrite Zle_Qle. eapply Qle_trans; [exact H|apply Qle_ceiling].
Qed.

Lemma refreshTimerText_ok t w :
  0 <= t -> text_ok w ->
  text_ok (refreshTimerText t w) /\
  (hasTimerText (refreshTimerText t w) = true ->
   lastTimerSeconds (refreshTimerText t w) = Qceiling t) /\
  hasTimerText (refreshTimerText t w) = hasTimerText w.
Proof.
  intros H0 Hw. unfold refreshTimerText, text_ok in *.
  pose proof (Qceiling_nonneg t H0) as Hc.
  destruct (hasTimerText w) eqn:Hhas; simpl; [|by rewrite Hhas].
  destruct (Qceiling t =? lastTimerSeconds w)%Z eqn:Heq; simpl.
  - rewrite Hhas. apply Z.eqb_eq in Heq. repeat split; auto.
  - apply Z.leb_le in Hc. rewrite Hc. simpl. repeat split; eauto.
Qed.

Lemma updateOnboardingVisual_ok camera r w :
  onboarding_ok r w -> onboarding_ok r (updateOnboardingVisual camera w).
Proof.
  unfold updateOnboardingVisual, onboarding_ok.
  destruct w as [[] [] [] sh]; destruct camera; simpl;
    intros [H1 H2]; split; auto.
Qed.

Lemma updateToastVisual_ok delta w :
  0 <= delta -> toast_ok w -> toast_ok (updateToastVisual delta w).
Proof.
  unfold updateToastVisual, toast_ok.
  destruct w as [has timer vis txt]. simpl. intros Hd (Hv & Hlo & Hhi).
  destruct has; simpl; [|done].
  destruct (Qgtb timer 0) eqn:Hpos; [|done].
  apply Qltb_lt in Hpos.
  destruct (Qle_bool (timer - delta) 0) eqn:Hle; simpl.
  - split; [|split; lra]. split; [done|]. intros [_ H]. lra.
  - apply Qle_bool_gt in Hle. split; [|split; lra].
    split; [intros _; by split|]. intros _. apply Hv. by split.
Qed.

Lemma showScanToast_ok label w : toast_ok w -> toast_ok (showScanToast label w).
Proof.
  intros H. unfold showScanToast.
  destruct (hasToast w) eqn:Hhas; simpl; [|done].
  unfold toast_ok. simpl. split; [|split; lra].
  split; [intros _; split; [done|lra] | done].
Qed.

Lemma updateToastVisual_has delta w :
  hasToast (updateToastVisual delta w) = hasToast w.
Proof.
  unfold updateToastVisual. destruct (hasToast w) eqn:Hhas; [|done]. simpl.
  destruct (Qgtb _ 0); [|done]. by destruct (Qle_bool _ 0).
Qed.

Lemma gate_open_not_ended r :
  flags_inv r ->
  negb (timerRunning r) && Qle_bool (timeRemaining r) 0 = false ->
  roundEnded r = false /\ roundShown r = false.
Proof.
  intros F Hc. assert (He : roundEnded r = false).
  { destruct (roundEnded r) eqn:He; [|done].
    destruct (timerRunning r) eqn:Hrun.
    - by rewrite (fi_excl _ F Hrun) in He.
    - simpl in Hc. apply Qle_bool_gt in Hc.
      rewrite (fi_zero _ F He) in Hc. by apply Qlt_irrefl in Hc. }
  split; [done|]. by rewrite (fi_shown _ F).
Qed.

Lemma honorScan_round time zi zp i e o s1 st :
  round (sys (honorScan time zi zp i e o s1 st))
  = round (recordSale (default "" (productId e)) (startRound s1)).
Proof. by rewrite honorScan_eq. Qed.

Lemma toast_ok_label pid w :
  toast_ok w ->
  toast_ok (match getProductLabel pid with
            | None => w
            | Some label => showScanToast label w
            end).
Proof.
  intros H. destruct (getProductLabel pid); [by apply showScanToast_ok|done].
Qed.

Lemma honorScanH_ok time zi zp i e o x1 st :
  sweepH_ok st ->
  roundGateH (mkHudSystem (sys (sweepCore st)) (sweepHud st)) = Some x1 ->
  sweepH_ok (honorScanH time zi zp i e o x1 st).
Proof.
  destruct st as [[s scanned resp lg] h]. unfold sweepH_ok.
  cbn [sweepCore sweepHud sys].
  intros (F & [Ht Hs Hto Ho Hon] & Hsync) Hg.
  unfold honorScanH. cbn [sweepCore sweepHud]. rewrite honorScan_round.
  unfold roundGateH in Hg. simpl in Hg.
  destruct (negb (timerRunning (round s)) && _) eqn:Hc.
  - destruct (roundEnded (round s)) eqn:He; [|done]. injection Hg as <-.
    simpl. split; [|split; [split|]].
    + by split.
    + unfold text_ok. destruct (hasTimerText (timerTextHud h)) eqn:Hh; simpl.
      * intros _. by exists gameDurationSeconds.
      * by rewrite Hh.
    + unfold score_ok, refreshScoreText. simpl.
      destruct (hasScoreText (scoreTextHud h)); simpl; done.
    + by apply toast_ok_label.
    + destruct Ho as [Hp Hm]. split; simpl.
      * intros Hh. by rewrite Hh.
      * intros Hh. by rewrite Hh.
    + split; simpl; [done|]. intros Hh. by rewrite Hh.
    + unfold timer_sync, drawn_since.
      destruct (hasTimerText (timerTextHud h)) eqn:Hh; simpl.
      * split; [done|]. intros _. exists gameDurationSeconds.
        split; [done|]. split; [done|]. apply Qle_refl.
      * by rewrite Hh.
  - injection Hg as <-.
    destruct (gate_open_not_ended _ F Hc) as [He Hsh].
    assert (F' : flags_inv
              (round (recordSale (default "" (productId e)) (startRound s)))).
    { by apply flags_inv_recordSale, flags_inv_startRound. }
    split; [exact F'|]. clear F'.
    destruct Ho as [Hp Hm]. destruct Hon as [H1 H2].
    unfold startRound. simpl.
    destruct (gameStarted (round s)) eqn:Hgs; simpl.
    + split; [split|]; try done.
      * unfold score_ok, refreshScoreText in *. simpl.
        destruct (hasScoreText (scoreTextHud h)) eqn:Hh; simpl;
          [|by rewrite Hh].
        destruct (Hs eq_refl) as (E1 & E2 & E3). rewrite E1.
        replace (scannedCount (round s) + 1 =? scannedCount (round s))%Z
          with false by (symmetry; apply Z.eqb_neq; lia).
        simpl. done.
      * by apply toast_ok_label.
      * split; simpl.
        -- intros Hh. by rewrite (Hp Hh).
        -- intros Hh. destruct (Hm Hh) as [E _]. rewrite E.
           split; [done|]. by rewrite Hsh.
      * split; simpl; [intros _; by apply H1 | done].
    + split; [split|]; try done.
      * unfold score_ok, refreshScoreText in *. simpl.
        destruct (hasScoreText (scoreTextHud h)) eqn:Hh; simpl;
          [|by rewrite Hh].
        destruct (Hs eq_refl) as (E1 & E2 & E3). rewrite E1.
        replace (scannedCount (round s) + 1 =? scannedCount (round s))%Z
          with false by (symmetry; apply Z.eqb_neq; lia).
        simpl. done.
      * by apply toast_ok_label.
      * split; simpl.
        -- intros Hh. by rewrite (Hp Hh).
        -- intros Hh. destruct (Hm Hh) as [E _]. rewrite E.
           split; [done|]. by rewrite Hsh.
      * split; simpl; [done|]. intros Hh. by rewrite Hh.
Qed.

Lemma tryScanH_cases time zi zp rsq i e st :
  flags_inv (round (sys (sweepCore st))) ->
  tryScanH time zi zp rsq i e st = ContinueH st \/
  exists o x1,
    roundGateH (mkHudSystem (sys (sweepCore st)) (sweepHud st)) = Some x1 /\
    tryScanH time zi zp rsq i e st
    = BreakH (honorScanH time zi zp i e o x1 st).
Proof.
  intros F. unfold tryScanH.
  destruct (decide (i ∈ scannedThisFrame (sweepCore st))); [by left|].
  destruct (object3D e) as [o|]; [|by left].
  destruct (scannedOut o); [by left|].
  destruct (negb (inRadius rsq zp (position o))); [by left|].
  destruct (onCooldown _ time e); [by left|].
  pose proof (roundGateH_core (mkHudSystem (sys (sweepCore st)) (sweepHud st)))
    as Hg.
  destruct (roundGate_is_Some (sys (sweepCore st)) F) as (s1 & Hs1 & _).
  simpl in Hg. rewrite Hs1 in Hg.
  destruct (roundGateH _) as [x1|]; [|done].
  right. by exists o, x1.
Qed.

Lemma scanZoneH_ok time zi zp rsq cands : forall st,
  sweepH_ok st -> sweepH_ok (scanZoneH time zi zp rsq cands st).
Proof.
  induction cands as [|[i e] rest IH]; intros st Hok; simpl; [done|].
  destruct (tryScanH_cases time zi zp rsq i e st (proj1 Hok))
    as [->|(o & x1 & Hg & ->)].
  - by apply IH.
  - by apply honorScanH_ok.
Qed.

Lemma sweepZoneH_ok delta time zi z st :
  0 <= delta -> sweepH_ok st -> sweepH_ok (sweepZoneH delta time zi z st).
Proof.
  intros Hd Hok. unfold sweepZoneH. destruct (zoneObject3D z); [|done].
  apply scanZoneH_ok. destruct Hok as (F & [Ht Hs Hto Ho Hon] & Hsync).
  split; [done|]. split; [|done]. split; try done.
  by apply updateToastVisual_ok.
Qed.

Lemma sweepZonesH_ok delta time zs : forall st,
  0 <= delta -> sweepH_ok st -> sweepH_ok (sweepZonesH delta time zs st).
Proof.
  induction zs as [|[zi z] zs IH]; intros st Hd Hok; simpl; [done|].
  pose proof (sweepZoneH_ok delta time zi z st Hd Hok) as Hok1.
  destruct (threw _); [done|by apply IH].
Qed.

Lemma advanceTimer_le delta s :
  0 <= delta -> round_inv (round s) ->
  timeRemaining (round (fst (advanceTimer delta s))) <= timeRemaining (round s).
Proof.
  intros Hd R. destruct (timerRunning (round s)) eqn:Hrun.
  - destruct (Qlt_le_dec 0 (timeRemaining (round s) - delta)) as [Hgt|Hle].
    + destruct (advanceTimer_running delta s Hrun Hgt) as [w ->]. simpl. lra.
    + rewrite (advanceTimer_expired delta s (ri_flags _ R) Hrun Hle). simpl.
      apply (ri_lo _ R).
  - rewrite advanceTimer_stopped by done. apply Qle_refl.
Qed.

Lemma refreshTimerText_sync r w :
  0 <= timeRemaining r -> drawn_since (timeRemaining r) w ->
  timer_sync r (refreshTimerText (timeRemaining r) w).
Proof.
  intros H0 Hw. unfold timer_sync, drawn_since, refreshTimerText in *.
  pose proof (Qceiling_nonneg _ H0) as Hc.
  destruct (hasTimerText w) eqn:Hhas; simpl; [|by rewrite Hhas].
  destruct (Qceiling (timeRemaining r) =? lastTimerSeconds w)%Z eqn:Heq; simpl.
  - rewrite Hhas. apply Z.eqb_eq in Heq. split; [done|]. exact Hw.
  - apply Z.leb_le in Hc. rewrite Hc. simpl. split; [done|]. intros _.
    exists (timeRemaining r). split; [done|]. split; [done|]. apply Qle_refl.
Qed.

(** The sweep of a tick starts with the countdown text in step with the
    clock. *)
Lemma sweepStart_sync camera delta x :
  0 <= delta -> round_inv (round (core x)) ->
  timer_sync (round (core x)) (timerTextHud (hud x)) ->
  timer_sync (round (core (fst (advanceTimerH delta x))))
    (timerTextHud (sweepHud (sweepStart camera delta x))).
Proof.
  intros Hd R [_ Hw]. pose proof (ri_flags _ R) as F.
  pose proof (round_inv_advanceTimer delta (core x) Hd R) as R1.
  pose proof (advanceTimer_le delta (core x) Hd R) as Hle.
  rewrite <- (proj1 (advanceTimerH_core delta x)) in R1, Hle.
  unfold sweepStart. cbn [sweepHud timerTextHud].
  apply refreshTimerText_sync; [apply (ri_lo _ R1)|].
  rewrite (advanceTimerH_hud delta x F).
  assert (E : timerTextHud
                (if timerRunning (round (core x))
                    && Qle_bool (timeRemaining (round (core x)) - delta) 0
                 then showRoundCompleteHud (round (core x)) (hud x)
                 else hud x) = timerTextHud (hud x))
    by (by destruct (_ && _)).
  rewrite E. intros Hhas. destruct (Hw Hhas) as (tr & H1 & H2 & H3).
  exists tr. split; [done|]. split; [done|].
  eapply Qle_trans; [exact Hle|exact H3].
Qed.

Lemma updateH_round h camera delta time x :
  let st := sweepZonesH delta time
              (imap pair (scanners (core (fst (advanceTimerH delta x)))))
              (sweepStart camera delta x) in
  round (core (fst (updateH h camera delta time x)))
  = round (sys (sweepCore st)) /\
  hud (fst (updateH h camera delta time x)) = sweepHud st.
Proof.
  unfold sweepStart, updateH.
  destruct (advanceTimerH delta x) as [x1 timerLog]. simpl.
  split; [|done].
  destruct (threw _); [done|].
  destruct (respawns _) as [|r rs] eqn:Hr; [done|].
  match goal with |- context [flushRespawns h ?q (mkFlush ?s _ ?c)] =>
    pose proof (flushRespawns_spec h q [] s c) as Hf end.
  change (list_to_set [] : gset string) with (∅ : gset string) in Hf.
  by rewrite Hf.
Qed.

Lemma display_ok_init cfg zones objs timer score toast panel message onb :
  display_ok (initH cfg zones objs timer score toast panel message onb).
Proof.
  split; [split|]; simpl.
  - unfold text_ok. destruct timer; simpl; [|done].
    intros _. by exists gameDurationSeconds.
  - unfold score_ok. by destruct score.
  - unfold toast_ok. simpl. split; [|split; lra].
    split; [done|]. intros [_ H]. by apply Qlt_irrefl in H.
  - by split.
  - by split.
  - unfold timer_sync, drawn_since. destruct timer; simpl; [|done].
    split; [done|]. intros _. exists gameDurationSeconds.
    split; [done|]. split; [done|]. apply Qle_refl.
Qed.

Lemma sweepStart_ok camera delta x :
  0 <= delta -> round_inv (round (core x)) -> display_ok x ->
  sweepH_ok (sweepStart camera delta x).
Proof.
  intros Hd R [Hok Hsync]. pose proof (ri_flags _ R) as F.
  pose proof (hud_ok_advanceTimerH delta x F Hok) as Hok1.
  pose proof (round_inv_advanceTimer delta (core x) Hd R) as R1.
  rewrite <- (proj1 (advanceTimerH_core delta x)) in R1.
  pose proof (sweepStart_sync camera delta x Hd R Hsync) as Hs1.
  unfold sweepStart in *. set (x1 := fst (advanceTimerH delta x)) in *.
  destruct Hok1 as [Ht Hs Hto Ho Hon].
  destruct (refreshTimerText_ok (timeRemaining (round (core x1)))
              (timerTextHud (hud x1)) (ri_lo _ R1) Ht) as (Ht' & _ & _).
  split; [apply (ri_flags _ R1)|]. split; [|exact Hs1].
  split; try done. by apply updateOnboardingVisual_ok.
Qed.

Lemma display_ok_update h camera delta time x :
  0 <= delta -> round_inv (round (core x)) -> display_ok x ->
  display_ok (fst (updateH h camera delta time x)).
Proof.
  intros Hd R D.
  destruct (updateH_round h camera delta time x) as [Hr Hh].
  unfold display_ok. rewrite Hr, Hh. clear Hr Hh.
  pose proof (sweepStart_ok camera delta x Hd R D) as Hok.
  match goal with |- context [sweepZonesH delta time ?zs ?st] =>
    destruct (sweepZonesH_ok delta time zs st Hd Hok) as (_ & H1 & H2) end.
  done.
Qed.

Lemma reachableH_display_ok x : reachableH x -> display_ok x.
Proof.
  induction 1 as [|x s' Hx IH Heq|x h camera delta time Hx IH Hd].
  - apply display_ok_init.
  - destruct IH as [H1 H2]. split; simpl; by rewrite Heq.
  - apply display_ok_update; try done.
    by apply reachable_round_inv, reachableH_core.
Qed.

(** ** Sweeps that scan nothing *)

Lemma scanZoneH_cases time zi zp rsq cands : forall st,
  flags_inv (round (sys (sweepCore st))) ->
  scanZoneH time zi zp rsq cands st = st \/
  exists i e o x1,
    roundGateH (mkHudSystem (sys (sweepCore st)) (sweepHud st)) = Some x1 /\
    scanZoneH time zi zp rsq cands st = honorScanH time zi zp i e o x1 st.
Proof.
  induction cands as [|[i e] rest IH]; intros st F; simpl; [by left|].
  destruct (tryScanH_cases time zi zp rsq i e st F)
    as [->|(o & x1 & Hg & ->)].
  - by apply IH.
  - right. by exists i, e, o, x1.
Qed.

Lemma honorScanH_events time zi zp i e o x1 st :
  eventCount (honorScanH time zi zp i e o x1 st) = S (eventCount st).
Proof.
  unfold eventCount, honorScanH. cbn [sweepCore]. rewrite honorScan_eq.
  cbn [log]. rewrite scanEvents_app, scanEvents_logOf, length_app. simpl. lia.
Qed.

Lemma honorScanH_hint time zi zp i e o x1 st :
  onboarding_ok (round (sys (sweepCore st))) (onboardingHud (sweepHud st)) ->
  roundGateH (mkHudSystem (sys (sweepCore st)) (sweepHud st)) = Some x1 ->
  onboardingVisible (onboardingHud (sweepHud (honorScanH time zi zp i e o x1 st)))
  = false.
Proof.
  intros [H1 _] Hg. unfold roundGateH in Hg. simpl in Hg.
  destruct (negb _ && _).
  - destruct (roundEnded _); [|done]. by injection Hg as <-.
  - injection Hg as <-. simpl.
    destruct (gameStarted (round (sys (sweepCore st)))) eqn:Hgs; [|done].
    by apply H1.
Qed.

Lemma drawnBar_add n m t b :
  drawnBar m t (drawnBar n t b) = drawnBar (n + m) t b.
Proof. destruct n, m; simpl; by rewrite ?Nat.add_0_r. Qed.

(** A zone either scans nothing, and then only draws the bar and ages the
    toast when it has a mesh, or scans one entity, and then the hint is
    off. *)
Lemma sweepZoneH_step delta time zi z st :
  sweepH_ok st ->
  (sweepZoneH delta time zi z st
   = mkSweepH (sweepCore st)
       (with_toast (sweepHud st)
          (ageToast delta (meshed [z]) (toastHud (sweepHud st)))
          (drawnBar (meshed [z]) (timeRemaining (round (sys (sweepCore st))))
             (timerBarHud (sweepHud st))))) \/
  (eventCount (sweepZoneH delta time zi z st) = S (eventCount st) /\
   onboardingVisible (onboardingHud (sweepHud (sweepZoneH delta time zi z st)))
   = false).
Proof.
  intros Hok. unfold sweepZoneH, meshed. simpl.
  destruct (zoneObject3D z) as [zp|] eqn:Hz; simpl.
  - match goal with |- context [scanZoneH time zi zp ?rsq ?cands ?st1] =>
      destruct (scanZoneH_cases time zi zp rsq cands st1 (proj1 Hok))
        as [->|(i & e & o & x1 & Hg & ->)] end.
    + left. reflexivity.
    + right. split.
      * by rewrite honorScanH_events.
      * destruct Hok as (F & [Ht Hs Hto Ho Hon] & Hsync).
        by apply honorScanH_hint.
  - left. by destruct st as [sw []].
Qed.

Lemma meshed_cons z zs : meshed (z :: zs) = (meshed [z] + meshed zs)%nat.
Proof.
  unfold meshed. simpl.
  by destruct (bool_decide (is_Some (zoneObject3D z))).
Qed.

Lemma snd_imap_pair {A} (l : list A) : forall k,
  snd <$> imap (fun n x => ((k + n)%nat, x)) l = l.
Proof.
  induction l as [|a l IH]; intros k; [done|].
  simpl. f_equal. rewrite <- (IH (S k)) at 2. f_equal.
  apply imap_ext. intros n x _. simpl. f_equal. lia.
Qed.

Lemma sweepZonesH_mono delta time zs : forall st,
  0 <= delta -> sweepH_ok st ->
  (eventCount st <= eventCount (sweepZonesH delta time zs st))%nat.
Proof.
  induction zs as [|[zi z] zs IH]; intros st Hd Hok; simpl; [done|].
  pose proof (IH _ Hd (sweepZoneH_ok delta time zi z st Hd Hok)) as H.
  assert (H1 : (eventCount st
                <= eventCount (sweepZoneH delta time zi z st))%nat).
  { destruct (sweepZoneH_step delta time zi z st Hok) as [Heq|[Hc _]];
      [|lia]. rewrite Heq. unfold eventCount. simpl. lia. }
  destruct (threw _); lia.
Qed.

(** A sweep that logs no scan event leaves everything as it is, but for
    the toast, aged once per zone with a mesh, and the timer bar, drawn
    by those zones. *)
Lemma sweepZonesH_quiet delta time zs : forall st,
  0 <= delta -> sweepH_ok st -> threw (log (sweepCore st)) = false ->
  eventCount (sweepZonesH delta time zs st) = eventCount st ->
  sweepZonesH delta time zs st
  = mkSweepH (sweepCore st)
      (with_toast (sweepHud st)
         (ageToast delta (meshed (snd <$> zs)) (toastHud (sweepHud st)))
         (drawnBar (meshed (snd <$> zs))
            (timeRemaining (round (sys (sweepCore st))))
            (timerBarHud (sweepHud st)))).
Proof.
  induction zs as [|[zi z] zs IH]; intros st Hd Hok Hth Hq.
  - by destruct st as [sw []].
  - pose proof (sweepZoneH_ok delta time zi z st Hd Hok) as Hok1.
    pose proof (sweepZonesH_mono delta time zs _ Hd Hok1) as Hm.
    cbn [sweepZonesH] in Hq |- *.
    destruct (sweepZoneH_step delta time zi z st Hok) as [Heq|[Hc _]].
    2:{ destruct (threw (log (sweepCore (sweepZoneH delta time zi z st))));
          lia. }
    assert (Hth1 : threw (log (sweepCore (sweepZoneH delta time zi z st)))
                   = false) by by rewrite Heq.
    rewrite Hth1 in Hq |- *.
    rewrite IH; try done.
    + rewrite Heq. simpl. unfold with_toast. simpl.
      change (list_fmap _ _ snd zs) with (snd <$> zs).
      rewrite (meshed_cons z (snd <$> zs)), drawnBar_add. f_equal. f_equal.
      unfold ageToast. rewrite Nat.add_comm.
      by rewrite Nat.iter_add.
    + rewrite Hq. by rewrite Heq.
Qed.

(** Once off, the hint stays off through a sweep; a sweep that logs a
    scan event turns it off. *)
Lemma sweepZonesH_hint delta time zs : forall st,
  0 <= delta -> sweepH_ok st ->
  let flag st := onboardingVisible (onboardingHud (sweepHud st)) in
  (flag st = false -> flag (sweepZonesH delta time zs st) = false) /\
  ((eventCount st < eventCount (sweepZonesH delta time zs st))%nat ->
   flag (sweepZonesH delta time zs st) = false).
Proof.
  induction zs as [|[zi z] zs IH]; intros st Hd Hok; simpl.
  - split; [done|lia].
  - pose proof (sweepZoneH_ok delta time zi z st Hd Hok) as Hok1.
    destruct (IH _ Hd Hok1) as [IH1 IH2].
    destruct (sweepZoneH_step delta time zi z st Hok) as [Heq|[Hc Hf]].
    + destruct (threw _).
      * rewrite Heq. split; [done|]. unfold eventCount. simpl. lia.
      * split.
        -- intros Hf. apply IH1. by rewrite Heq.
        -- intros Hlt. apply IH2. by rewrite Heq at 1.
    + destruct (threw _); split; intros _; by first [apply IH1 | idtac].
Qed.

Lemma inject_Z_succ n :
  inject_Z (Z.of_nat (S n)) == inject_Z (Z.of_nat n) + 1.
Proof. rewrite Nat2Z.inj_succ, <- Z.add_1_r, inject_Z_plus. reflexivity. Qed.

(** [n] calls of [updateToastVisual] take [n * delta] off a running
    toast timer and hide the toast when nothing is left. *)
Lemma ageToast_timer delta n w :
  0 <= delta -> hasToast w = true -> 0 < toastTimer w ->
  (inject_Z (Z.of_nat n) * delta < toastTimer w ->
   toastTimer (ageToast delta n w)
   == toastTimer w - inject_Z (Z.of_nat n) * delta /\
   toastVisible (ageToast delta n w) = toastVisible w) /\
  (toastTimer w <= inject_Z (Z.of_nat n) * delta ->
   toastTimer (ageToast delta n w) = 0 /\
   toastVisible (ageToast delta n w) = false) /\
  hasToast (ageToast delta n w) = true /\
  toastText (ageToast delta n w) = toastText w.
Proof.
  intros Hd Hhas Hpos. induction n as [|n IH].
  - simpl. change (inject_Z (Z.of_nat 0)) with 0.
    split; [intros _; split; [lra|done]|].
    split; [intros H; lra|done].
  - destruct IH as (IH1 & IH2 & IH3 & IH4).
    pose proof (inject_Z_succ n) as Hs.
    unfold ageToast in *. rewrite Nat.iter_succ.
    set (wn := Nat.iter n (updateToastVisual delta) w) in *.
    unfold updateToastVisual. rewrite IH3. simpl.
    destruct (Qlt_le_dec (inject_Z (Z.of_nat n) * delta) (toastTimer w))
      as [Hlt|Hle].
    + destruct (IH1 Hlt) as [E1 E2].
      assert (Hgt : Qgtb (toastTimer wn) 0 = true).
      { apply Qltb_lt. rewrite E1. lra. }
      rewrite Hgt.
      destruct (Qle_bool (toastTimer wn - delta) 0) eqn:Hz; simpl.
      * apply Qle_bool_iff in Hz. rewrite E1 in Hz.
        split; [intros H; rewrite Hs in H; lra|]. by split.
      * apply Qle_bool_gt in Hz. rewrite E1 in Hz.
        split; [intros _; split; [rewrite E1, Hs; lra|done]|].
        split; [intros H; rewrite Hs in H; lra|done].
    + destruct (IH2 Hle) as [E1 E2]. rewrite E1. simpl.
      split; [intros H; rewrite Hs in H; lra|]. by split.
Qed.

(** ** The display across a tick *)

Lemma updateH_sweep h camera delta time x :
  let st := sweepZonesH delta time
              (imap pair (scanners (core (fst (advanceTimerH delta x)))))
              (sweepStart camera delta x) in
  round (core (fst (updateH h camera delta time x)))
  = round (sys (sweepCore st)) /\
  hud (fst (updateH h camera delta time x)) = sweepHud st /\
  scanEvents (snd (updateH h camera delta time x))
  = scanEvents (log (sweepCore st)).
Proof.
  intros st. destruct (updateH_round h camera delta time x) as [Hr Hh].
  split; [exact Hr|]. split; [exact Hh|].
  rewrite (proj2 (updateH_core h camera delta time x)), update_scanEvents.
  unfold st. rewrite sweepZonesH_core. unfold sweepStart. simpl.
  by rewrite (proj1 (advanceTimerH_core delta x)).
Qed.

Lemma reachableH_sweepStart_ok camera delta x :
  reachableH x -> 0 <= delta -> sweepH_ok (sweepStart camera delta x).
Proof.
  intros Hx Hd. apply sweepStart_ok; try done.
  - by apply reachable_round_inv, reachableH_core.
  - by apply reachableH_display_ok.
Qed.

Lemma timerClock_spec seconds :
  let '(mins, secs) := timerClock seconds in
  (mins * 60 + secs = Z.max 0 (Qfloor seconds))%Z /\
  (0 <= secs < 60)%Z /\ (0 <= mins)%Z.
Proof.
  unfold timerClock. set (total := Z.max 0 (Qfloor seconds)).
  pose proof (Z.div_mod total 60) as H1.
  pose proof (Z.mod_pos_bound total 60) as H2.
  assert (0 <= total)%Z by lia.
  split; [lia|]. split; [lia|]. apply Z.div_pos; lia.
Qed.

Lemma ceiling_floor_gap x : (Qceiling x <= Qfloor x + 1)%Z.
Proof.
  pose proof (Qceiling_lt x) as H1. pose proof (Qlt_floor x) as H2.
  assert (H : inject_Z (Qceiling x - 1) < inject_Z (Qfloor x + 1)).
  { eapply Qlt_trans; eauto. }
  rewrite <- Zlt_Qlt in H. lia.
Qed.

Lemma floor_le_ceiling x : (Qfloor x <= Qceiling x)%Z.
Proof.
  rewrite Zle_Qle. eapply Qle_trans; [apply Qfloor_le | apply Qle_ceiling].
Qed.

Lemma snd_imap_pair0 {A} (l : list A) : snd <$> imap pair l = l.
Proof.
  rewrite <- (snd_imap_pair l 0) at 2. by f_equal.
Qed.

Lemma advanceTimerH_frame delta x :
  flags_inv (round (core x)) ->
  scanners (core (fst (advanceTimerH delta x))) = scanners (core x) /\
  toastHud (hud (fst (advanceTimerH delta x))) = toastHud (hud x) /\
  onboardingHud (hud (fst (advanceTimerH delta x))) = onboardingHud (hud x) /\
  scoreTextHud (hud (fst (advanceTimerH delta x))) = scoreTextHud (hud x) /\
  timerTextHud (hud (fst (advanceTimerH delta x))) = timerTextHud (hud x) /\
  timerBarHud (hud (fst (advanceTimerH delta x))) = timerBarHud (hud x).
Proof.
  intros F. rewrite (proj1 (advanceTimerH_core delta x)).
  rewrite (advanceTimerH_hud delta x F).
  split; [apply advanceTimer_frame|]. by destruct (_ && _).
Qed.

(** A tick without scan events, seen from the display. *)
Lemma updateH_quiet h camera delta time x :
  reachableH x -> 0 <= delta ->
  scanEvents (snd (updateH h camera delta time x)) = [] ->
  hud (fst (updateH h camera delta time x))
  = with_toast (sweepHud (sweepStart camera delta x))
      (ageToast delta (meshed (scanners (core x))) (toastHud (hud x)))
      (drawnBar (meshed (scanners (core x)))
         (timeRemaining (round (fst (advanceTimer delta (core x)))))
         (timerBarHud (hud x))).
Proof.
  intros Hx Hd Hq.
  pose proof (reachableBy_flags _ _ (reachableH_core x Hx)) as F.
  destruct (updateH_sweep h camera delta time x) as (_ & Hh & He).
  rewrite Hh. rewrite He in Hq.
  rewrite sweepZonesH_quiet; try done.
  - simpl. rewrite snd_imap_pair0.
    destruct (advanceTimerH_frame delta x F)
      as (-> & -> & _ & _ & _ & ->).
    by rewrite (proj1 (advanceTimerH_core delta x)).
  - by apply reachableH_sweepStart_ok.
  - unfold eventCount. by rewrite Hq.
Qed.

(** * Properties of the display *)

(** X1.  The state of the widgets never feeds back into the engine:
    whichever widgets exist, whatever they show and whether there is a
    camera, a tick of the system with its display leaves the same round,
    score and entity store, and has the same effects, as the tick of the
    engine alone.  So the engine states reached with a display are
    exactly those reached without one.  The one piece of display code
    that does reach the engine is the label code, whose exception ends
    the tick; it runs whether or not the toast exists and belongs to the
    engine's tick: with any set of widgets, the tick that scans an entity
    of product id "constructor" counts it, turns the cart into [NaN] and
    throws, leaving the entity time-stamped but not retired and spawning
    nothing. *)
Theorem display_never_feeds_back :
  (forall h camera delta time x,
     core (fst (updateH h camera delta time x))
     = fst (update h delta time (core x)) /\
     snd (updateH h camera delta time x)
     = snd (update h delta time (core x))) /\
  (forall x, reachableH x -> reachable (core x)) /\
  (forall s, reachable s -> exists x, reachableH x /\ core x = s) /\
  (forall timer score toast panel message onboarding camera,
     let x := initH demoConfig [demoZone]
                [ demoItem "constructor" (1 # 10) 5;
                  demoItem "pear" (2 # 10) 6 ]
                timer score toast panel message onboarding in
     let out := updateH demoHost camera (1 # 60) 1 x in
     snd out = [ScanEvent 0 0 "constructor"; TypeError 0 0] /\
     scannedCount (round (core (fst out))) = 1%Z /\
     totalCartValue (round (core (fst out))) = NaN /\
     scannables (core (fst out))
     = [ stamp 1 (demoItem "constructor" (1 # 10) 5);
         demoItem "pear" (2 # 10) 6 ]).
Proof.
  split; [intros; apply updateH_core|]. split; [apply reachableH_core|].
  split.
  2:{ intros timer score toast panel message onboarding camera x out.
      unfold out.
      destruct (updateH_core demoHost camera (1 # 60) 1 x) as [-> ->].
      change (core x) with protoScene. by rewrite constructor_tick. }
  intros s Hs. induction Hs as [cfg zones objs|s s' _ IH Hr|s h delta time _ IH Hd].
  - exists (initH cfg zones objs true true true true true true).
    split; [apply rh_init|done].
  - destruct IH as (x & Hx & <-).
    exists (mkHudSystem s' (hud x)). split; [by apply rh_host|done].
  - destruct IH as (x & Hx & <-).
    exists (fst (updateH h true delta time x)).
    split; [by apply rh_tick|]. apply updateH_core.
Qed.

Lemma display_never_feeds_back_witness : reachable (core runningDisplay).
Proof.
  refine (proj1 (proj2 display_never_feeds_back) runningDisplay _).
  apply rh_tick; [apply rh_init | by vm_compute].
Defined.

(** X2.  When the countdown canvas exists, between ticks the recorded
    whole second is the ceiling of [timeRemaining], and the label on the
    canvas is that of a time not before [timeRemaining] whose whole
    seconds [m * 60 + s], with [0 <= s < 60], lie strictly less than one
    second from [timeRemaining]. *)
Theorem countdown_text_tracks_clock x :
  reachableH x -> hasTimerText (timerTextHud (hud x)) = true ->
  let t := timeRemaining (round (core x)) in
  lastTimerSeconds (timerTextHud (hud x)) = Qceiling t /\
  exists tr,
    timerText (timerTextHud (hud x)) = timerLabel tr /\
    t <= tr /\ Qceiling tr = Qceiling t /\
    t - 1 < inject_Z (fst (timerClock tr) * 60 + snd (timerClock tr)) /\
    inject_Z (fst (timerClock tr) * 60 + snd (timerClock tr)) < t + 1 /\
    (0 <= snd (timerClock tr) < 60)%Z.
Proof.
  intros Hx Hhas t.
  destruct (reachableH_display_ok x Hx) as [_ [Hsync Hdrawn]].
  pose proof (ri_lo _ (reachable_round_inv _ (reachableH_core x Hx))) as H0.
  fold t in H0. specialize (Hsync Hhas). fold t in Hsync.
  split; [exact Hsync|].
  destruct (Hdrawn Hhas) as (tr & Hlabel & Hc & Hle). fold t in Hle.
  exists tr. split; [exact Hlabel|]. split; [exact Hle|].
  rewrite Hsync in Hc. split; [exact Hc|].
  pose proof (timerClock_spec tr) as Hclock.
  destruct (timerClock tr) as [m s]. simpl.
  destruct Hclock as (Hsum & Hs & _). rewrite Hsum.
  pose proof (Qle_ceiling t) as C1. pose proof (Qceiling_lt t) as C2.
  pose proof (floor_le_ceiling tr) as G2.
  pose proof (Qceiling_nonneg t H0) as G3.
  pose proof (Qlt_floor tr) as G4. pose proof (Qfloor_le tr) as G5.
  rewrite Hc in G2.
  set (c := Qceiling t) in *. set (f := Qfloor tr) in *.
  assert (Hmax : inject_Z (Z.max 0 f) == inject_Z f).
  { assert (0 <= f)%Z; [|by rewrite Z.max_r].
    apply Z.lt_succ_r. rewrite Zlt_Qlt. rewrite <- Z.add_1_r.
    eapply Qle_lt_trans; [exact H0|].
    eapply Qle_lt_trans; [exact Hle|exact G4]. }
  rewrite Hmax. rewrite Zle_Qle in G2.
  rewrite inject_Z_plus in G4. change (inject_Z 1) with 1 in G4.
  unfold Z.sub in C2. rewrite inject_Z_plus, inject_Z_opp in C2.
  change (inject_Z 1) with 1 in C2.
  clearbody f c t. split; [lra|]. split; [lra|done].
Qed.

Lemma countdown_text_tracks_clock_witness :
  lastTimerSeconds (timerTextHud (hud runningDisplay))
  = Qceiling (timeRemaining (round (core runningDisplay))).
Proof.
  refine (proj1 (countdown_text_tracks_clock runningDisplay _ _)).
  - apply rh_tick; [apply rh_init | by vm_compute].
  - vm_compute. reflexivity.
Defined.

(** X3.  When the score canvas exists, between ticks it shows the lines
    for the current [scannedCount] and [totalCartValue], and the values
    recorded for it are the current ones: the score text is never
    stale. *)
Theorem score_text_in_step x :
  reachableH x -> hasScoreText (scoreTextHud (hud x)) = true ->
  scoreText (scoreTextHud (hud x))
  = scoreLines (scannedCount (round (core x)))
      (totalCartValue (round (core x))) /\
  lastScoreValue (scoreTextHud (hud x)) = scannedCount (round (core x)) /\
  lastTotalValue (scoreTextHud (hud x)) = totalCartValue (round (core x)).
Proof.
  intros Hx Hhas.
  destruct (reachableH_display_ok x Hx) as [[_ Hs _ _ _] _].
  destruct (Hs Hhas) as (H1 & H2 & H3). done.
Qed.

Lemma score_text_in_step_witness :
  scoreText (scoreTextHud (hud runningDisplay))
  = scoreLines (scannedCount (round (core runningDisplay)))
      (totalCartValue (round (core runningDisplay))).
Proof.
  refine (proj1 (score_text_in_step runningDisplay _ _)).
  - apply rh_tick; [apply rh_init | by vm_compute].
  - vm_compute. reflexivity.
Defined.

(** X4.  Between ticks the toast is visible exactly when it exists and
    its timer is positive, and the timer lies between 0 and 0.9
    seconds. *)
Theorem toast_lifetime x :
  reachableH x ->
  let w := toastHud (hud x) in
  (toastVisible w = true <-> hasToast w = true /\ 0 < toastTimer w) /\
  0 <= toastTimer w <= 9 # 10.
Proof.
  intros Hx w.
  destruct (reachableH_display_ok x Hx) as [[_ _ (H1 & H2 & H3) _ _] _].
  done.
Qed.

Lemma toast_lifetime_witness :
  toastVisible (toastHud (hud runningDisplay)) = true <->
  hasToast (toastHud (hud runningDisplay)) = true /\
  0 < toastTimer (toastHud (hud runningDisplay)).
Proof.
  refine (proj1 (toast_lifetime runningDisplay _)).
  apply rh_tick; [apply rh_init | by vm_compute].
Defined.

(** X5.  In a tick that scans nothing the toast is aged once for every
    zone that has a mesh, not once per tick: with [n] such zones a showing
    toast loses [n * delta] seconds, and goes away once that uses up its
    timer. *)
Theorem toast_ages_once_per_meshed_zone h camera delta time x :
  reachableH x -> 0 <= delta ->
  scanEvents (snd (updateH h camera delta time x)) = [] ->
  let w := toastHud (hud x) in
  let w' := toastHud (hud (fst (updateH h camera delta time x))) in
  let n := meshed (scanners (core x)) in
  w' = ageToast delta n w /\
  (toastVisible w = true ->
   (inject_Z (Z.of_nat n) * delta < toastTimer w ->
    toastTimer w' == toastTimer w - inject_Z (Z.of_nat n) * delta /\
    toastVisible w' = true) /\
   (toastTimer w <= inject_Z (Z.of_nat n) * delta ->
    toastTimer w' = 0 /\ toastVisible w' = false)).
Proof.
  intros Hx Hd Hq w w' n.
  assert (Hw : w' = ageToast delta n w).
  { unfold w'. by rewrite (updateH_quiet h camera delta time x Hx Hd Hq). }
  split; [exact Hw|]. intros Hv.
  destruct (reachableH_display_ok x Hx) as [[_ _ (H1 & _) _ _] _].
  fold w in H1. destruct (proj1 H1 Hv) as [Hhas Hpos].
  destruct (ageToast_timer delta n w Hd Hhas Hpos) as (A1 & A2 & _).
  rewrite Hw. split.
  - intros Hlt. destruct (A1 Hlt) as [E1 E2]. split; [exact E1|congruence].
  - exact A2.
Qed.

Lemma toast_ages_once_per_meshed_zone_witness :
  toastHud (hud (fst (updateH demoHost true (1 # 10) 2 quietDisplay)))
  = ageToast (1 # 10) (meshed (scanners (core quietDisplay)))
      (toastHud (hud quietDisplay)).
Proof.
  refine (proj1 (toast_ages_once_per_meshed_zone demoHost true (1 # 10) 2
                   quietDisplay _ _ _)).
  - apply (rh_host runningDisplay); [|reflexivity].
    apply rh_tick; [apply rh_init | by vm_compute].
  - by vm_compute.
  - vm_compute. reflexivity.
Defined.

(** X6.  Between ticks the round-complete panel and the round-complete
    message, where they exist, are visible exactly while the round is
    over, and the message then shows the lines for the final score and
    cart total. *)
Theorem round_complete_display x :
  reachableH x ->
  let r := round (core x) in
  let o := roundOverHud (hud x) in
  (hasRoundPanel o = true -> (roundPanelVisible o = true <-> isEnded r)) /\
  (hasRoundMessage o = true ->
   (roundMessageVisible o = true <-> isEnded r) /\
   (isEnded r ->
    roundMessageText o
    = roundMessageLines (scannedCount r) (totalCartValue r))).
Proof.
  intros Hx r o. unfold isEnded.
  destruct (reachableH_display_ok x Hx) as [[_ _ _ [H1 H2] _] _].
  pose proof (fi_shown _ (reachableBy_flags _ _ (reachableH_core x Hx))) as Hs.
  fold r in H1, H2, Hs. fold o in H1, H2. rewrite Hs in H1, H2.
  split.
  - intros Hp. by rewrite (H1 Hp).
  - intros Hm. destruct (H2 Hm) as [E1 E2]. by rewrite E1.
Qed.

Lemma round_complete_display_witness :
  roundPanelVisible (roundOverHud (hud endedDisplay)) = true <->
  isEnded (round (core endedDisplay)).
Proof.
  refine (proj1 (round_complete_display endedDisplay _) _).
  - apply rh_tick; [|by vm_compute].
    apply (rh_host runningDisplay); [|reflexivity].
    apply rh_tick; [apply rh_init | by vm_compute].
  - vm_compute. reflexivity.
Defined.

Lemma updateOnboardingVisual_visible camera w :
  onboardingVisible (updateOnboardingVisual camera w) = onboardingVisible w.
Proof.
  unfold updateOnboardingVisual.
  destruct (hasOnboarding w), (onboardingVisible w) eqn:E,
    (onboardingAnchored w), camera; simpl; congruence.
Qed.

(** X7.  Between ticks the onboarding hint is off once a round has
    started, and while it is off its panel, where it exists, is hidden. *)
Theorem onboarding_off_once_started x :
  reachableH x ->
  let o := onboardingHud (hud x) in
  (gameStarted (round (core x)) = true -> onboardingVisible o = false) /\
  (hasOnboarding o = true -> onboardingVisible o = false ->
   onboardingShown o = false).
Proof.
  intros Hx o.
  destruct (reachableH_display_ok x Hx) as [[_ _ _ _ H] _]. exact H.
Qed.

Lemma onboarding_off_once_started_witness :
  onboardingVisible (onboardingHud (hud runningDisplay)) = false.
Proof.
  refine (proj1 (onboarding_off_once_started runningDisplay _) _).
  - apply rh_tick; [apply rh_init | by vm_compute].
  - vm_compute. reflexivity.
Defined.

(** X8.  The onboarding hint is never turned back on: a tick leaves a
    hint that is off off, also the tick whose scan restarts an ended
    round, and a tick with a scan event ends with the hint off. *)
Theorem onboarding_never_reshown h camera delta time x :
  reachableH x -> 0 <= delta ->
  let o := onboardingHud (hud x) in
  let o' := onboardingHud (hud (fst (updateH h camera delta time x))) in
  (onboardingVisible o = false -> onboardingVisible o' = false) /\
  (scanEvents (snd (updateH h camera delta time x)) <> [] ->
   onboardingVisible o' = false).
Proof.
  intros Hx Hd o o'.
  pose proof (reachableBy_flags _ _ (reachableH_core x Hx)) as F.
  destruct (updateH_sweep h camera delta time x) as (_ & Hh & He).
  pose proof (reachableH_sweepStart_ok camera delta x Hx Hd) as Hok.
  match type of Hh with _ = sweepHud (sweepZonesH _ _ ?zs _) =>
    destruct (sweepZonesH_hint delta time zs _ Hd Hok) as [H1 H2] end.
  unfold o'. rewrite Hh, He. split.
  - intros Hoff. apply H1. simpl.
    rewrite updateOnboardingVisual_visible.
    destruct (advanceTimerH_frame delta x F) as (_ & _ & -> & _). exact Hoff.
  - intros Hne. apply H2. unfold eventCount at 1. simpl.
    unfold eventCount.
    apply Nat.neq_0_lt_0. intros E. apply Hne. by apply nil_length_inv.
Qed.

Lemma onboarding_never_reshown_witness :
  onboardingVisible
    (onboardingHud (hud (fst (updateH demoHost true (1 # 60) 1 demoDisplay))))
  = false.
Proof.
  refine (proj2 (onboarding_never_reshown demoHost true (1 # 60) 1
                   demoDisplay _ _) _).
  - apply rh_init.
  - by vm_compute.
  - by vm_compute.
Defined.

(** * Further properties of the engine *)

(** ** The low-time warning *)

Lemma sweep_log_no_warning time s :
  flags_inv (round s) -> List.filter isWarning (log (sweep time s)) = [].
Proof.
  intros F. rewrite (si_log _ _ _ _ (sweep_inv_sweep time s F)).
  induction (scanEvents (log (sweep time s))) as [|ev evs IH]; [done|].
  change ((ev :: evs) ≫= logOf) with (logOf ev ++ (evs ≫= logOf)).
  rewrite List.filter_app, IH, app_nil_r. unfold logOf. simpl.
  by destruct (aborts _).
Qed.

Lemma fold_scoreScan_warning pids : forall s,
  roundEnded (round s) = false ->
  timerWarningPlayed (round (fold_left (fun s pid => scoreScan pid s) pids s))
  = timerWarningPlayed (round s).
Proof.
  induction pids as [|pid pids IH]; intros s He; [done|].
  cbn [fold_left]. rewrite IH; rewrite scoreScan_live by done; done.
Qed.

(** The timer part of a tick, with the warning test spelled out. *)
Lemma advanceTimer_warning delta s :
  flags_inv (round s) ->
  List.filter isWarning (snd (advanceTimer delta s))
  = (if warnsAt delta (round s) then [TimerWarningSound] else []) /\
  (warnsAt delta (round s) = true ->
   timerWarningPlayed (round (fst (advanceTimer delta s))) = true /\
   roundEnded (round (fst (advanceTimer delta s))) = false /\
   timerRunning (round (fst (advanceTimer delta s))) = true).
Proof.
  intros F. unfold warnsAt, advanceTimer.
  destruct (timerRunning (round s)) eqn:Hrun; [|done]. simpl.
  unfold zeroCrossing. simpl.
  destruct (Qle_bool (timeRemaining (round s) - delta) 0) eqn:Hz.
  - assert (Hgt : Qgtb (timeRemaining (round s) - delta) 0 = false).
    { unfold Qgtb. apply Qltb_ge. by apply Qle_bool_iff. }
    rewrite Hgt, !andb_false_r. unfold showRoundComplete. simpl.
    rewrite (fi_shown _ F), (fi_excl _ F Hrun). simpl.
    split; [by destruct (numGeb _ _)|done].
  - rewrite app_nil_r. simpl.
    destruct (negb _ && _ && _ && _) eqn:Hw; simpl; [|done].
    split; [done|]. intros _. by rewrite (fi_excl _ F Hrun).
Qed.

(** X9.  The low-time warning sounds at most once in a tick, and exactly
    in the tick where a running clock, not yet warned about in this
    round, steps from above 10 seconds to a value in (0, 10]; the tick
    then ends with the warning flag set, so no later tick of the round
    warns again. *)
Theorem low_time_warning_once ok h delta time s :
  reachableBy ok s ->
  let r := round s in
  let out := update h delta time s in
  List.filter isWarning (snd out)
  = (if warnsAt delta r then [TimerWarningSound] else []) /\
  (warnsAt delta r = true <->
   isRunning r /\ timerWarningPlayed r = false /\ 10 < timeRemaining r /\
   0 < timeRemaining r - delta /\ timeRemaining r - delta <= 10) /\
  (warnsAt delta r = true -> timerWarningPlayed (round (fst out)) = true) /\
  (timerWarningPlayed r = true -> List.filter isWarning (snd out) = []).
Proof.
  intros Hs r out. pose proof (reachableBy_flags _ _ Hs) as F.
  destruct (advanceTimer_warning delta s F) as [Hlog Hflag].
  assert (Hsw : flags_inv (round (fst (advanceTimer delta s))))
    by (by apply flags_inv_advanceTimer).
  assert (Hout : List.filter isWarning (snd out)
                 = if warnsAt delta r then [TimerWarningSound] else []).
  { unfold out. rewrite update_log, List.filter_app, Hlog.
    rewrite (sweep_log_no_warning time _ Hsw). by rewrite app_nil_r. }
  split; [exact Hout|]. split; [|split].
  - unfold warnsAt, isRunning. fold r.
    rewrite !andb_true_iff, negb_true_iff.
    unfold Qgtb. rewrite !Qltb_lt, Qle_bool_iff. tauto.
  - intros Hw. destruct (Hflag Hw) as (H1 & H2 & _).
    unfold out. rewrite (update_round_fold h delta time s F).
    by rewrite fold_scoreScan_warning.
  - intros Hp. rewrite Hout. unfold warnsAt. fold r. rewrite Hp.
    by rewrite andb_false_r.
Qed.

Lemma low_time_warning_once_witness :
  List.filter isWarning (snd (update demoHost 1 3 lateScene))
  = (if warnsAt 1 (round lateScene) then [TimerWarningSound] else []).
Proof.
  refine (proj1 (low_time_warning_once (fun delta => 0 <= delta) demoHost 1 3
                   lateScene _)).
  apply reach_tick; [|by vm_compute].
  apply (reach_host _ runningScene); [|reflexivity].
  apply reach_tick; [apply reach_init | by vm_compute].
Defined.

(** ** Ticks that scan nothing *)

Lemma system_eq (s s' : ScannerSystem) :
  round s = round s' -> config s = config s' -> scanners s = scanners s' ->
  scannables s = scannables s' -> s = s'.
Proof. destruct s, s'; simpl; congruence. Qed.

Lemma roundGate_scanners s s1 :
  roundGate s = Some s1 -> scanners s1 = scanners s.
Proof.
  unfold roundGate. destruct (negb _ && _).
  - destruct (roundEnded _); [|done]. by intros [= <-].
  - by intros [= <-].
Qed.

Lemma tryScan_scanners time zi zp rsq i e st :
  match tryScan time zi zp rsq i e st with
  | Continue st' | Break st' => scanners (sys st') = scanners (sys st)
  end.
Proof.
  unfold tryScan. destruct (decide _); [done|].
  destruct (object3D e) as [o|]; [|done].
  destruct (scannedOut o); [done|].
  destruct (negb _); [done|]. destruct (onCooldown _ _ _); [done|].
  destruct (roundGate (sys st)) as [s1|] eqn:Hg; [|done].
  rewrite honorScan_eq. simpl. rewrite (proj1 (proj2 (startRound_frame s1))).
  by apply roundGate_scanners.
Qed.

Lemma scanZone_scanners time zi zp rsq cands : forall st,
  scanners (sys (scanZone time zi zp rsq cands st)) = scanners (sys st).
Proof.
  induction cands as [|[i e] cands IH]; intros st; [done|]. simpl.
  pose proof (tryScan_scanners time zi zp rsq i e st) as H.
  destruct (tryScan time zi zp rsq i e st) as [st'|st']; [|done].
  by rewrite IH.
Qed.

Lemma sweepZones_scanners time zs : forall st,
  scanners (sys (sweepZones time zs st)) = scanners (sys st).
Proof.
  induction zs as [|[zi z] zs IH]; intros st; [done|]. simpl.
  assert (H : scanners (sys (sweepZone time zi z st)) = scanners (sys st)).
  { unfold sweepZone. destruct (zoneObject3D z); [|done].
    apply scanZone_scanners. }
  destruct (threw _); [done|]. by rewrite IH.
Qed.

(** A sweep without scan events returns the state it started from. *)
Lemma sweep_quiet time s :
  flags_inv (round s) -> scanEvents (log (sweep time s)) = [] ->
  sweep time s = mkSweep s ∅ [] [].
Proof.
  intros F Hq. pose proof (sweep_inv_sweep time s F) as I.
  pose proof (sweepZones_scanners time (imap pair (scanners s))
                (mkSweep s ∅ [] [])) as Hz.
  fold (sweep time s) in Hz. simpl in Hz.
  destruct I as [_ Hc Hl Hfree _ Hlog Htaken _ _ _ _ _ _ Hres Hround].
  rewrite Hq in *. simpl in *.
  apply Forall2_nil_inv_r in Hres.
  assert (Hset : scannedThisFrame (sweep time s) = ∅).
  { apply elem_of_equiv_empty_L. intros i Hi. apply Htaken in Hi.
    by apply elem_of_nil in Hi. }
  assert (Hsys : sys (sweep time s) = s).
  { apply system_eq; try done.
    apply list_eq. intros i. apply Hfree. rewrite Hset. apply not_elem_of_empty. }
  destruct (sweep time s); simpl in *. congruence.
Qed.

Lemma update_quiet h delta time s :
  flags_inv (round s) ->
  scanEvents (snd (update h delta time s)) = [] ->
  update h delta time s = advanceTimer delta s.
Proof.
  intros F Hq. rewrite update_scanEvents in Hq.
  pose proof (sweep_quiet time _ (flags_inv_advanceTimer delta s F) Hq) as Hs.
  rewrite update_flush by (by rewrite Hs). simpl. rewrite Hs.
  simpl. rewrite !app_nil_r.
  destruct (advanceTimer delta s) as [[r c zs es] l]. reflexivity.
Qed.

(** X10.  A tick that produces no scan event is exactly the timer part
    of the tick: same state, same effects; the sweep and the flush change
    nothing.  With the clock stopped (round Idle or Ended) such a tick
    changes nothing at all and has no effect. *)
Theorem quiet_tick_is_timer_step ok h delta time s :
  reachableBy ok s ->
  scanEvents (snd (update h delta time s)) = [] ->
  update h delta time s = advanceTimer delta s /\
  (timerRunning (round s) = false -> update h delta time s = (s, [])).
Proof.
  intros Hs Hq. pose proof (reachableBy_flags _ _ Hs) as F.
  pose proof (update_quiet h delta time s F Hq) as Hu.
  split; [exact Hu|].
  intros Hstop. by rewrite Hu, advanceTimer_stopped.
Qed.

Lemma quiet_tick_is_timer_step_witness :
  update demoHost 1 3 lateScene = advanceTimer 1 lateScene.
Proof.
  refine (proj1 (quiet_tick_is_timer_step (fun delta => 0 <= delta) demoHost
                   1 3 lateScene _ _)).
  - apply reach_tick; [|by vm_compute].
    apply (reach_host _ runningScene); [|reflexivity].
    apply reach_tick; [apply reach_init | by vm_compute].
  - vm_compute. reflexivity.
Defined.

(** ** Retiring the scanned entity *)

Lemma roundGate_scannables s s1 :
  roundGate s = Some s1 -> scannables s1 = scannables s.
Proof.
  unfold roundGate. destruct (negb _ && _).
  - destruct (roundEnded _); [|done]. by intros [= <-].
  - by intros [= <-].
Qed.

Lemma retired_inv_zone time s0 k z st :
  sweep_inv time s0 k st -> retired_inv time s0 st ->
  retired_inv time s0 (sweepZone time k z st).
Proof.
  intros I R. unfold sweepZone. destruct (zoneObject3D z) as [zp|]; [|done].
  destruct (scanZone_store time k zp (zoneRadiusSq (config (sys st)) z) st
              (si_flags _ _ _ _ I))
    as [[_ ->]|(i & e & o & s1 & Hi & _ & [Hfresh _] & Ho & Hg & ->)]; [done|].
  simpl in Hfresh. intros j Hj. rewrite honorScan_eq in Hj |- *.
  simpl in Hj. simpl.
  rewrite (proj2 (proj2 (startRound_frame s1))).
  rewrite (roundGate_scannables _ _ Hg).
  destruct (decide (j = i)) as [->|Hne].
  - exists e, o. split; [by rewrite <- (si_free _ _ _ _ I i Hfresh)|].
    split; [done|]. apply list_lookup_insert_eq.
    by eapply lookup_lt_Some.
  - assert (Hold : j ∈ scannedThisFrame st).
    { apply elem_of_union in Hj as [Hj|Hj]; [|done].
      by apply elem_of_singleton in Hj. }
    destruct (R j Hold) as (e' & o' & H1 & H2 & H3).
    exists e', o'. split; [done|]. split; [done|].
    by rewrite list_lookup_insert_ne.
Qed.

Lemma retired_inv_zones time s0 zs : forall k st,
  (forall n zi z, zs !! n = Some (zi, z) ->
     zi = (k + n)%nat /\ scanners s0 !! zi = Some z) ->
  sweep_inv time s0 k st -> retired_inv time s0 st ->
  retired_inv time s0 (sweepZones time zs st).
Proof.
  induction zs as [|[zi z] zs IH]; intros k st Hzs I R; simpl; [done|].
  destruct (Hzs 0%nat zi z eq_refl) as [-> Hz].
  rewrite Nat.add_0_r in *.
  pose proof (retired_inv_zone time s0 k z st I R) as R1.
  destruct (threw _); [done|].
  apply (IH (S k)).
  - intros n zi' z' Hn. destruct (Hzs (S n) zi' z' Hn) as [-> Hz'].
    split; [lia|done].
  - by apply sweep_inv_zone.
  - done.
Qed.

Lemma retired_inv_sweep time s :
  flags_inv (round s) -> retired_inv time s (sweep time s).
Proof.
  intros F. unfold sweep. apply (retired_inv_zones time s _ 0%nat).
  - intros n zi z Hn. apply list_lookup_imap_Some in Hn as (z' & Hz & [= -> ->]).
    done.
  - by apply sweep_inv_init.
  - intros i Hi. simpl in Hi. by apply elem_of_empty in Hi.
Qed.

(** X11.  A scanned entity is never removed from the store, and the
    store never gets shorter.  After the tick the entity of a scan event
    sits at the index it had, its last scan time set to the time of the
    tick, and its product id, mesh scale and home slot untouched.  When
    the scan has run to its end, the entity is the pre-tick entity with
    its mesh hidden, parked at (0, -999, 0) and marked scanned out.  When
    the label code has thrown for its product id, the entity is only
    time-stamped: its mesh is where it was, visible as before, and not
    marked scanned out. *)
Theorem scanned_entity_is_parked ok h delta time s :
  reachableBy ok s ->
  let s' := fst (update h delta time s) in
  (length (scannables s) <= length (scannables s'))%nat /\
  forall ev, ev ∈ scanEvents (snd (update h delta time s)) ->
    exists e o e' o',
      scannables s !! evEntity ev = Some e /\ object3D e = Some o /\
      evPid ev = default "" (productId e) /\ scannedOut o = false /\
      scannables s' !! evEntity ev = Some e' /\ object3D e' = Some o' /\
      meshScale o' = meshScale o /\
      lastScanTime e' = Some time /\ productId e' = productId e /\
      homeX e' = homeX e /\ homeY e' = homeY e /\ homeZ e' = homeZ e /\
      (aborts (evPid ev) = false ->
       e' = scanOut time o e /\
       position o' = mkVector3 0 (-999) 0 /\ visible o' = false /\
       scannedOut o' = true) /\
      (aborts (evPid ev) = true ->
       e' = stamp time e /\ o' = o /\ scannedOut o' = false).
Proof.
  intros Hs s'. pose proof (reachableBy_flags _ _ Hs) as F.
  destruct (update_sweep_inv delta time s F) as (I & C & _ & Hstore).
  pose proof (retired_inv_sweep time _ (flags_inv_advanceTimer delta s F)) as R.
  set (sw := sweep time (fst (advanceTimer delta s))) in *.
  assert (Hs' : exists tail, scannables s' = scannables (sys sw) ++ tail).
  { unfold s'. destruct (threw (log sw)) eqn:Ht.
    - exists []. rewrite update_threw by done. by rewrite app_nil_r.
    - eexists. by rewrite update_flush. }
  destruct Hs' as [tail Hs'].
  split.
  - rewrite Hs', length_app, (si_len _ _ _ _ I), Hstore. lia.
  - intros ev Hev. rewrite update_scanEvents in Hev. fold sw in Hev.
    assert (Hin : evEntity ev ∈ scannedThisFrame sw).
    { apply (si_taken _ _ _ _ I). by apply list_elem_of_fmap_2. }
    destruct (R _ Hin) as (e & o & H1 & H2 & H3). rewrite Hstore in H1.
    destruct (si_sound _ _ _ _ I ev Hev) as (z & e0 & _ & He0 & Hel & Hpid).
    rewrite Hstore, H1 in He0. injection He0 as <-.
    apply eligible_inv in Hel as (zp & o0 & _ & Ho0 & Hout & _).
    rewrite H2 in Ho0. injection Ho0 as <-.
    assert (Hlook : scannables s' !! evEntity ev
                    = Some (if aborts (default "" (productId e))
                            then stamp time e else scanOut time o e)).
    { rewrite Hs'. rewrite lookup_app_l; [done|]. by eapply lookup_lt_Some. }
    rewrite <- Hpid in Hlook.
    destruct (aborts (evPid ev)) eqn:Ha.
    + exists e, o, (stamp time e), o. by repeat split.
    + exists e, o, (scanOut time o e),
        (mkObject3D (mkVector3 0 (-999) 0) (meshScale o) false true).
      by repeat split.
Qed.

Lemma scanned_entity_is_parked_witness :
  exists e o e' o',
    scannables demoScene !! 0%nat = Some e /\ object3D e = Some o /\
    scannables (fst (update demoHost (1 # 60) 1 demoScene)) !! 0%nat
    = Some e' /\
    object3D e' = Some o' /\ e' = scanOut 1 o e /\ scannedOut o' = true.
Proof.
  destruct (proj2 (scanned_entity_is_parked (fun delta => 0 <= delta)
                     demoHost (1 # 60) 1 demoScene (reach_init _ _ _ _))
              (0%nat, 0%nat, "goldBar"))
    as (e & o & e' & o' & H1 & H2 & _ & _ & H5 & H6 & _ & _ & _ & _ & _ & _
        & Hdone & _).
  - assert (E : scanEvents (snd (update demoHost (1 # 60) 1 demoScene))
                = [(0%nat, 0%nat, "goldBar")]) by (by vm_compute).
    rewrite E. apply list_elem_of_here.
  - destruct Hdone as (E & _ & _ & Hout); [by vm_compute|].
    exists e, o, e', o'. repeat split; done.
Defined.

(** ** The catalog and the price table *)

Lemma catalog_priced def :
  def ∈ productCatalog ->
  exists info,
    productInfo (defProductId def) = Some (Entry info) /\ 0 < price info.
Proof.
  revert def. apply Forall_forall. unfold productCatalog.
  repeat constructor; (eexists; split; [vm_compute; reflexivity|reflexivity]).
Qed.

(** X12.  Every entry of [productCatalog] has an entry of its own in
    [productInfo], with a positive price.  Hence every entity a tick
    spawns carries a product id the price table knows: a later scan of it
    adds a positive price to the cart, never the 0 of an unknown id, and
    its label is drawn without an exception. *)
Theorem spawned_products_are_priced ok h delta time s :
  reachableBy ok s ->
  (forall def, def ∈ productCatalog ->
     exists info,
       productInfo (defProductId def) = Some (Entry info) /\
       0 < price info) /\
  forall i e,
    (length (scannables s) <= i)%nat ->
    scannables (fst (update h delta time s)) !! i = Some e ->
    exists pid info,
      productId e = Some pid /\ productInfo pid = Some (Entry info) /\
      0 < price info /\ priceOf pid = Fin (price info) /\
      aborts pid = false.
Proof.
  intros Hs. split; [apply catalog_priced|].
  intros i e Hi He. pose proof (reachableBy_flags _ _ Hs) as F.
  destruct (update_sweep_inv delta time s F) as (I & _ & _ & Hstore).
  destruct (threw (log (sweep time (fst (advanceTimer delta s))))) eqn:Ht.
  { rewrite update_threw in He by done. simpl in He.
    apply lookup_lt_Some in He.
    rewrite (si_len _ _ _ _ I), Hstore in He. lia. }
  rewrite update_flush in He by done. simpl in He.
  rewrite lookup_app_r in He
    by (rewrite (si_len _ _ _ _ I), Hstore; exact Hi).
  apply list_elem_of_lookup_2 in He.
  apply spawns_fresh in He as (def & r & _ & Hdef & ->).
  destruct (catalog_priced def Hdef) as (info & Hinfo & Hpos).
  exists (defProductId def), info. simpl.
  split; [done|]. split; [done|]. split; [done|].
  unfold aborts, getProductLabel, priceOf. by rewrite Hinfo.
Qed.

Lemma spawned_products_are_priced_witness :
  exists pid info,
    productId (spawned (mkProductDef "industrialShoe" "industrialShoe"
                          (15 # 10)) 5 0 0) = Some pid /\
    productInfo pid = Some (Entry info) /\ 0 < price info /\
    priceOf pid = Fin (price info) /\ aborts pid = false.
Proof.
  refine (proj2 (spawned_products_are_priced (fun delta => 0 <= delta)
                   demoHost (1 # 60) 1 demoScene _) 3%nat _ _ _).
  - apply reach_init.
  - vm_compute. lia.
  - vm_compute. reflexivity.
Defined.

(** ** The timer bar *)

(** The ratio [updateTimerBarVisual] clamps, and the two tests that give
    the clamped value. *)
Lemma timerBarVisual_unfold t :
  timerBarVisual t =
  let clamped := Qmaxb 0 (Qminb 1 (t * (1 # 30))) in
  mkTimerBar ((1 # 10) + (1 - (1 # 10)) * clamped)
    (if Qgtb clamped (66 # 100) then 0x00ff66%Z
     else if Qgtb clamped (33 # 100) then 0xffcc33%Z
     else 0xff5555%Z)
    (if Qgtb clamped 0 then 9 # 10 else 0).
Proof. reflexivity. Qed.

Lemma clamped_cases t :
  let clamped := Qmaxb 0 (Qminb 1 (t * (1 # 30))) in
  (t <= 0 /\ clamped == 0) \/
  (0 < t /\ t < 30 /\ clamped == t * (1 # 30)) \/
  (30 <= t /\ clamped == 1).
Proof.
  unfold Qmaxb, Qminb.
  destruct (Qle_bool 1 (t * (1 # 30))) eqn:H1.
  - apply Qle_bool_iff in H1. simpl. right. right. split; [lra|reflexivity].
  - apply Qle_bool_gt in H1.
    destruct (Qle_bool 0 (t * (1 # 30))) eqn:H0.
    + apply Qle_bool_iff in H0.
      destruct (Qlt_le_dec 0 t) as [Hpos|Hle].
      * right. left. split; [lra|]. split; [lra|reflexivity].
      * left. split; [lra|lra].
    + apply Qle_bool_gt in H0. left. split; [lra|reflexivity].
Qed.

(** X13.  The timer bar drawn for a time left [t]: its horizontal scale
    is 0.1 for [t <= 0], grows linearly to 1 at 30 seconds and stays 1
    beyond, so it always lies in [0.1, 1] and never shrinks as [t] grows;
    the bar is green above 19.8 seconds, amber above 9.9 and red from
    there down; it is opaque (0.9) exactly for [t > 0]. *)
Theorem timer_bar_visual t :
  let b := timerBarVisual t in
  (1 # 10 <= barScaleX b /\ barScaleX b <= 1) /\
  (t <= 0 -> barScaleX b == 1 # 10) /\
  (0 <= t -> t <= 30 -> barScaleX b == (1 # 10) + (9 # 10) * (t / 30)) /\
  (30 <= t -> barScaleX b == 1) /\
  (forall t', t <= t' -> barScaleX b <= barScaleX (timerBarVisual t')) /\
  (barColor b = 0x00ff66%Z <-> 198 # 10 < t) /\
  (barColor b = 0xffcc33%Z <-> 99 # 10 < t /\ t <= 198 # 10) /\
  (barColor b = 0xff5555%Z <-> t <= 99 # 10) /\
  (barOpacity b = (if Qgtb t 0 then 9 # 10 else 0)).
Proof.
  intros b. unfold b. rewrite timerBarVisual_unfold. cbv zeta. simpl.
  change (t / 30) with (t * (1 # 30)).
  pose proof (clamped_cases t) as Hc. cbv zeta in Hc.
  set (c := Qmaxb 0 (Qminb 1 (t * (1 # 30)))) in *.
  assert (Hmono : forall t',
            t <= t' -> c <= Qmaxb 0 (Qminb 1 (t' * (1 # 30)))).
  { intros t' Hle. pose proof (clamped_cases t') as Hc'. cbv zeta in Hc'.
    set (c' := Qmaxb 0 (Qminb 1 (t' * (1 # 30)))) in *.
    clearbody c c'.
    destruct Hc as [[? ?]|[(? & ? & ?)|[? ?]]],
             Hc' as [[? ?]|[(? & ? & ?)|[? ?]]]; lra. }
  assert (Hg : Qgtb c (66 # 100) = true <-> 198 # 10 < t).
  { unfold Qgtb. rewrite Qltb_lt. clearbody c.
    destruct Hc as [[? ?]|[(? & ? & ?)|[? ?]]]; split; intros; lra. }
  assert (Ha : Qgtb c (33 # 100) = true <-> 99 # 10 < t).
  { unfold Qgtb. rewrite Qltb_lt. clearbody c.
    destruct Hc as [[? ?]|[(? & ? & ?)|[? ?]]]; split; intros; lra. }
  assert (Ho : Qgtb c 0 = Qgtb t 0).
  { apply eq_true_iff_eq. unfold Qgtb. rewrite !Qltb_lt. clearbody c.
    destruct Hc as [[? ?]|[(? & ? & ?)|[? ?]]]; split; intros; lra. }
  split; [|split; [|split; [|split; [|split; [|split; [|split; [|split]]]]]]].
  - clearbody c. destruct Hc as [[? ?]|[(? & ? & ?)|[? ?]]]; split; lra.
  - intros Hle. clearbody c.
    destruct Hc as [[? ?]|[(? & ? & ?)|[? ?]]]; lra.
  - intros H0 H30. clearbody c.
    destruct Hc as [[? ?]|[(? & ? & ?)|[? ?]]]; lra.
  - intros H30. clearbody c.
    destruct Hc as [[? ?]|[(? & ? & ?)|[? ?]]]; lra.
  - intros t' Hle.
    change (t' / gameDurationSeconds) with (t' * (1 # 30)).
    specialize (Hmono t' Hle).
    set (c' := Qmaxb 0 (Qminb 1 (t' * (1 # 30)))) in *.
    clearbody c c'. lra.
  - destruct (Qgtb c (66 # 100)) eqn:E1.
    + split; [intros _; by apply Hg|done].
    + split.
      * destruct (Qgtb c (33 # 100)); discriminate.
      * intros H. apply Hg in H. discriminate.
  - destruct (Qgtb c (66 # 100)) eqn:E1.
    + split; [discriminate|]. intros [_ H].
      assert (198 # 10 < t) by (by apply Hg). lra.
    + destruct (Qgtb c (33 # 100)) eqn:E2.
      * split; [|done]. intros _. split; [by apply Ha|].
        destruct (Qlt_le_dec (198 # 10) t) as [H|H]; [|exact H].
        apply Hg in H. discriminate.
      * split; [discriminate|]. intros [H _]. apply Ha in H. discriminate.
  - destruct (Qgtb c (66 # 100)) eqn:E1.
    + split; [discriminate|]. intros H.
      assert (198 # 10 < t) by (by apply Hg). lra.
    + destruct (Qgtb c (33 # 100)) eqn:E2.
      * split; [discriminate|]. intros H.
        assert (99 # 10 < t) by (by apply Ha). lra.
      * split; [|done]. intros _.
        destruct (Qlt_le_dec (99 # 10) t) as [H|H]; [|exact H].
        apply Ha in H. discriminate.
  - by rewrite Ho.
Qed.

Lemma timer_bar_visual_witness :
  barScaleX (timerBarVisual 15) == (1 # 10) + (9 # 10) * (15 / 30).
Proof.
  refine (proj1 (proj2 (proj2 (timer_bar_visual 15))) _ _); by vm_compute.
Defined.

(** For the time left of a reachable state the bar needs no clamping. *)
Lemma timerBarVisual_clock s :
  reachable s ->
  let r := round s in
  let b := timerBarVisual (timeRemaining r) in
  barScaleX b == (1 # 10) + (9 # 10) * (timeRemaining r / 30) /\
  (isRunning r -> barOpacity b = 9 # 10) /\
  (isEnded r ->
   barOpacity b = 0 /\ barScaleX b == 1 # 10 /\ barColor b = 0xff5555%Z) /\
  (isIdle r ->
   barOpacity b = 9 # 10 /\ barScaleX b == 1 /\ barColor b = 0x00ff66%Z).
Proof.
  intros Hs r b. pose proof (reachable_round_inv s Hs) as R.
  destruct R as [F Hlo Hhi Hidle Hrun _]. fold r in F, Hlo, Hhi, Hidle, Hrun.
  unfold gameDurationSeconds in *.
  split; [|split; [|split]].
  - unfold b. rewrite timerBarVisual_unfold. cbv zeta. simpl.
    change (timeRemaining r / 30) with (timeRemaining r * (1 # 30)).
    pose proof (clamped_cases (timeRemaining r)) as Hc. cbv zeta in Hc.
    set (c := Qmaxb 0 (Qminb 1 (timeRemaining r * (1 # 30)))) in *.
    clearbody c. destruct Hc as [[? ?]|[(? & ? & ?)|[? ?]]]; lra.
  - intros H. specialize (Hrun H).
    unfold b. rewrite timerBarVisual_unfold. cbv zeta. simpl.
    pose proof (clamped_cases (timeRemaining r)) as Hc. cbv zeta in Hc.
    set (c := Qmaxb 0 (Qminb 1 (timeRemaining r * (1 # 30)))) in *.
    assert (Hpos : Qgtb c 0 = true).
    { unfold Qgtb. apply Qltb_lt. clearbody c.
      destruct Hc as [[? ?]|[(? & ? & ?)|[? ?]]]; lra. }
    by rewrite Hpos.
  - intros H. pose proof (fi_zero _ F H) as H0. unfold b. rewrite H0.
    split; [reflexivity|]. split; reflexivity.
  - intros H. destruct (Hidle H) as (_ & _ & _ & Ht). unfold b. rewrite Ht.
    split; [reflexivity|]. split; reflexivity.
Qed.

Lemma roundGateH_bar x x1 :
  roundGateH x = Some x1 -> timerBarHud (hud x1) = timerBarHud (hud x).
Proof.
  unfold roundGateH. destruct (negb _ && _).
  - destruct (roundEnded _); [|done]. by intros [= <-].
  - by intros [= <-].
Qed.

(** A zone with a mesh draws the bar for the time left on entry; nothing
    else in the zone's turn touches the bar. *)
Lemma sweepZoneH_bar delta time zi z st :
  flags_inv (round (sys (sweepCore st))) ->
  timerBarHud (sweepHud (sweepZoneH delta time zi z st))
  = drawnBar (meshed [z]) (timeRemaining (round (sys (sweepCore st))))
      (timerBarHud (sweepHud st)).
Proof.
  intros F. unfold sweepZoneH, meshed. simpl.
  destruct (zoneObject3D z) as [zp|]; simpl; [|done].
  match goal with |- context [scanZoneH time zi zp ?rsq ?cands ?st1] =>
    destruct (scanZoneH_cases time zi zp rsq cands st1 F)
      as [->|(i & e & o & x1 & Hg & ->)] end.
  - done.
  - apply roundGateH_bar in Hg. exact Hg.
Qed.

(** While the round is not over, the scans of a zone leave the clock
    alone. *)
Lemma sweepZone_clock time zi z st :
  flags_inv (round (sys st)) -> roundEnded (round (sys st)) = false ->
  timeRemaining (round (sys (sweepZone time zi z st)))
  = timeRemaining (round (sys st)) /\
  roundEnded (round (sys (sweepZone time zi z st))) = false.
Proof.
  intros F He. unfold sweepZone. destruct (zoneObject3D z) as [zp|]; [|done].
  destruct (scanZone_store time zi zp (zoneRadiusSq (config (sys st)) z) st F)
    as [[_ ->]|(i & e & o & s1 & _ & _ & _ & _ & Hg & ->)]; [done|].
  assert (Hs1 : s1 = sys st).
  { destruct (roundGate_flags _ F) as [[Hg' _]|(_ & He' & _)]; congruence. }
  subst s1.
  destruct (honorScan_scores time zi zp i e o (sys st) st)
    as (_ & _ & H3 & _ & _ & H6 & _).
  split; [exact H3 | by rewrite H6].
Qed.

Lemma sweepZoneH_unmeshed delta time zi z st :
  meshed [z] = 0%nat -> sweepZoneH delta time zi z st = st.
Proof.
  unfold meshed, sweepZoneH. simpl.
  by destruct (zoneObject3D z).
Qed.

(** While the round is not over, a sweep leaves the clock alone, and the
    bar it leaves is the one its zones with a mesh have drawn for that
    clock. *)
Lemma sweepZonesH_bar delta time zs : forall st,
  0 <= delta -> sweepH_ok st -> threw (log (sweepCore st)) = false ->
  roundEnded (round (sys (sweepCore st))) = false ->
  timeRemaining (round (sys (sweepCore (sweepZonesH delta time zs st))))
  = timeRemaining (round (sys (sweepCore st))) /\
  timerBarHud (sweepHud (sweepZonesH delta time zs st))
  = drawnBar (meshed (snd <$> zs))
      (timeRemaining (round (sys (sweepCore st))))
      (timerBarHud (sweepHud st)).
Proof.
  induction zs as [|[zi z] zs IH]; intros st Hd Hok Hth He; [done|].
  cbn [sweepZonesH].
  pose proof (sweepZoneH_ok delta time zi z st Hd Hok) as Hok1.
  pose proof (sweepZoneH_bar delta time zi z st (proj1 Hok)) as Hb.
  destruct (sweepZone_clock time zi z (sweepCore st) (proj1 Hok) He)
    as [Hc He1].
  rewrite <- (sweepZoneH_core delta) in Hc, He1.
  rewrite fmap_cons. cbn [snd].
  rewrite (meshed_cons z (snd <$> zs)).
  destruct (threw (log (sweepCore (sweepZoneH delta time zi z st)))) eqn:Ht.
  - split; [exact Hc|]. rewrite Hb.
    destruct (meshed [z]) as [|n] eqn:Hm; [|done].
    rewrite (sweepZoneH_unmeshed delta time zi z st Hm) in Ht. congruence.
  - destruct (IH _ Hd Hok1 Ht He1) as [I1 I2].
    split; [by rewrite I1|].
    rewrite I2, Hb, Hc. apply drawnBar_add.
Qed.

(** The bar is the one set up by [init] or shows what
    [updateTimerBarVisual] draws for some time left. *)
Lemma sweepZonesH_bar_drawn delta time zs : forall st,
  0 <= delta -> sweepH_ok st ->
  (timerBarHud (sweepHud st) = initialTimerBar \/
   exists tb, timerBarHud (sweepHud st) = timerBarVisual tb) ->
  timerBarHud (sweepHud (sweepZonesH delta time zs st)) = initialTimerBar \/
  exists tb,
    timerBarHud (sweepHud (sweepZonesH delta time zs st)) = timerBarVisual tb.
Proof.
  induction zs as [|[zi z] zs IH]; intros st Hd Hok Hb; [done|].
  cbn [sweepZonesH].
  pose proof (sweepZoneH_ok delta time zi z st Hd Hok) as Hok1.
  assert (Hb1 :
            timerBarHud (sweepHud (sweepZoneH delta time zi z st))
            = initialTimerBar \/
            exists tb,
              timerBarHud (sweepHud (sweepZoneH delta time zi z st))
              = timerBarVisual tb).
  { rewrite (sweepZoneH_bar delta time zi z st (proj1 Hok)).
    destruct (meshed [z]); [exact Hb|]. right. by eexists. }
  destruct (threw _); [exact Hb1|]. by apply IH.
Qed.

Lemma reachableH_bar_drawn x :
  reachableH x ->
  timerBarHud (hud x) = initialTimerBar \/
  exists tb, timerBarHud (hud x) = timerBarVisual tb.
Proof.
  induction 1 as [|x s' Hx IH Heq|x h camera delta time Hx IH Hd].
  - by left.
  - exact IH.
  - destruct (updateH_sweep h camera delta time x) as (_ & -> & _).
    apply sweepZonesH_bar_drawn; [done|by apply reachableH_sweepStart_ok|].
    pose proof (reachableBy_flags _ _ (reachableH_core x Hx)) as F.
    unfold sweepStart. cbn [sweepHud timerBarHud].
    by destruct (advanceTimerH_frame delta x F) as (_ & _ & _ & _ & _ & ->).
Qed.

(** X14.  The timer bar is redrawn by every zone with a mesh, on entry,
    for the time left at that moment, so it is the bar [init] has set up
    (full, green, opaque) or shows what [updateTimerBarVisual] draws for
    some time left.  In a tick that does
    not restart an ended round (the round is not over after the timer
    part, or nothing is scanned) the bar the tick leaves is the one drawn
    for the time left after the tick, if the scene has a zone with a
    mesh, and the bar of before otherwise; with such a zone the bar needs
    no clamping, its scale is 0.1 + 0.9 * timeRemaining / 30, it is
    opaque while the round runs, transparent, red and at its smallest
    when the round is over, and full and green before the first scan.  A
    tick that restarts an ended round can leave the bar behind the clock:
    in the demo scene the restarting tick leaves a running round with 30
    seconds on the clock and a bar that is transparent, red and at scale
    0.1. *)
Theorem timer_bar_follows_clock h camera delta time x :
  reachableH x -> 0 <= delta ->
  let out := updateH h camera delta time x in
  let s1 := fst (advanceTimer delta (core x)) in
  let r' := round (core (fst out)) in
  let b' := timerBarHud (hud (fst out)) in
  let n := meshed (scanners (core x)) in
  (timerBarHud (hud x) = initialTimerBar \/
   exists tb, timerBarHud (hud x) = timerBarVisual tb) /\
  (roundEnded (round s1) = false \/ scanEvents (snd out) = [] ->
   b' = drawnBar n (timeRemaining r') (timerBarHud (hud x)) /\
   ((0 < n)%nat ->
    b' = timerBarVisual (timeRemaining r') /\
    barScaleX b' == (1 # 10) + (9 # 10) * (timeRemaining r' / 30) /\
    (isRunning r' -> barOpacity b' = 9 # 10) /\
    (isEnded r' ->
     barOpacity b' = 0 /\ barScaleX b' == 1 # 10 /\
     barColor b' = 0xff5555%Z) /\
    (isIdle r' ->
     barOpacity b' = 9 # 10 /\ barScaleX b' == 1 /\
     barColor b' = 0x00ff66%Z))) /\
  (let y := fst (updateH demoHost true (1 # 60) 3 reopenedDisplay) in
   scanEvents (snd (updateH demoHost true (1 # 60) 3 reopenedDisplay))
   = [(0%nat, 0%nat, "pear")] /\
   isRunning (round (core y)) /\
   timeRemaining (round (core y)) = gameDurationSeconds /\
   timerBarHud (hud y) = timerBarVisual 0 /\
   barScaleX (timerBarHud (hud y)) == 1 # 10 /\
   barColor (timerBarHud (hud y)) = 0xff5555%Z /\
   barOpacity (timerBarHud (hud y)) = 0).
Proof.
  intros Hx Hd out s1 r' b' n.
  pose proof (reachableH_core x Hx) as Hc.
  pose proof (reachableBy_flags _ _ Hc) as F.
  split; [by apply reachableH_bar_drawn|]. split; [|by vm_compute].
  intros Hcase.
  assert (Hbar : b' = drawnBar n (timeRemaining r') (timerBarHud (hud x))).
  { unfold b', r', n, out. unfold out, s1 in Hcase.
    destruct (updateH_sweep h camera delta time x) as (Hr & Hh & He).
    destruct Hcase as [Hne|Hq].
    - pose proof (reachableH_sweepStart_ok camera delta x Hx Hd) as Hok.
      match type of Hh with _ = sweepHud (sweepZonesH _ _ ?zs ?st) =>
        destruct (sweepZonesH_bar delta time zs st Hd Hok eq_refl)
          as [H1 H2] end.
      { unfold sweepStart. cbn [sweepCore sys].
        by rewrite (proj1 (advanceTimerH_core delta x)). }
      rewrite Hr, Hh, H1, H2. rewrite snd_imap_pair0.
      unfold sweepStart. cbn [sweepCore sweepHud sys timerBarHud].
      by destruct (advanceTimerH_frame delta x F)
        as (-> & _ & _ & _ & _ & ->).
    - rewrite (updateH_quiet h camera delta time x Hx Hd Hq).
      rewrite (proj1 (updateH_core h camera delta time x)).
      rewrite (proj2 (updateH_core h camera delta time x)) in Hq.
      by rewrite (update_quiet h delta time (core x) F Hq). }
  split; [exact Hbar|]. intros Hn.
  assert (Hb : b' = timerBarVisual (timeRemaining r')).
  { rewrite Hbar. by destruct n; [lia|]. }
  split; [exact Hb|]. rewrite Hb.
  apply (timerBarVisual_clock (core (fst out))).
  unfold out. rewrite (proj1 (updateH_core h camera delta time x)).
  by apply reach_tick.
Qed.

Lemma timer_bar_follows_clock_witness :
  timerBarHud (hud (fst (updateH demoHost true (1 # 60) 2 runningDisplay)))
  = timerBarVisual
      (timeRemaining
         (round (core (fst (updateH demoHost true (1 # 60) 2
                              runningDisplay))))).
Proof.
  refine (proj1 (proj2 (proj1 (proj2 (timer_bar_follows_clock demoHost true
                                        (1 # 60) 2 runningDisplay _ _)) _)
                   _)).
  - apply rh_tick; [apply rh_init | by vm_compute].
  - by vm_compute.
  - left. by vm_compute.
  - vm_compute. lia.
Defined.

(** ** The countdown label *)

Lemma padStart2_two_digits secs :
  (0 <= secs < 60)%Z -> String.length (padStart2 (showInt secs)) = 2%nat.
Proof.
  intros H.
  assert (Hall : forallb
            (fun n => Nat.eqb
               (String.length (padStart2 (showInt (Z.of_nat n)))) 2)
            (seq 0 60) = true) by (vm_compute; reflexivity).
  rewrite forallb_forall in Hall.
  specialize (Hall (Z.to_nat secs)).
  rewrite Z2Nat.id in Hall by lia.
  apply Nat.eqb_eq, Hall, in_seq. lia.
Qed.

(** X15.  The countdown label for [seconds] shows its whole seconds,
    negative values counting as 0, split into minutes and seconds below
    60; the seconds are always drawn with two characters, the minutes
    without sign. *)
Theorem timer_label_clock seconds :
  let mins := fst (timerClock seconds) in
  let secs := snd (timerClock seconds) in
  (mins * 60 + secs = Z.max 0 (Qfloor seconds))%Z /\
  (0 <= secs < 60)%Z /\ (0 <= mins)%Z /\
  timerLabel seconds
  = String.append (digits mins)
      (String.append ":" (padStart2 (showInt secs))) /\
  String.length (padStart2 (showInt secs)) = 2%nat /\
  (seconds < 1 -> timerLabel seconds = "0:00").
Proof.
  intros mins secs. pose proof (timerClock_spec seconds) as H.
  unfold timerLabel. unfold mins, secs.
  destruct (timerClock seconds) as [m s] eqn:E. simpl.
  destruct H as (H1 & H2 & H3).
  split; [done|]. split; [done|]. split; [done|]. split; [|split].
  - unfold showInt at 1.
    by destruct (Z.ltb_spec m 0); [lia|].
  - by apply padStart2_two_digits.
  - intros Hlt.
    assert (Hf : (Qfloor seconds < 1)%Z).
    { rewrite Zlt_Qlt. eapply Qle_lt_trans; [apply Qfloor_le|exact Hlt]. }
    unfold timerClock in E.
    replace (Z.max 0 (Qfloor seconds)) with 0%Z in E by lia.
    by injection E as <- <-.
Qed.

Lemma timer_label_clock_witness : timerLabel (1 # 2) = "0:00".
Proof.
  refine (proj2 (proj2 (proj2 (proj2 (proj2 (timer_label_clock (1 # 2)))))) _).
  by vm_compute.
Defined.

(** ** The end of a round on the display *)

(** X16.  In the tick where the clock of a running round runs out and
    nothing is scanned, the round message, where it exists, comes up with
    the tallies of the round, and its verdict agrees with the sound: it
    reads "You win!" exactly when the win sound plays and "You missed the
    goal" exactly when the lose sound plays. *)
Theorem round_message_matches_sound h camera delta time x :
  reachableH x -> isRunning (round (core x)) ->
  timeRemaining (round (core x)) - delta <= 0 ->
  hasRoundMessage (roundOverHud (hud x)) = true ->
  scanEvents (snd (updateH h camera delta time x)) = [] ->
  let r := round (core x) in
  let out := updateH h camera delta time x in
  let o' := roundOverHud (hud (fst out)) in
  hasRoundMessage o' = true /\ roundMessageVisible o' = true /\
  roundMessageText o'
  = roundMessageLines (scannedCount r) (totalCartValue r) /\
  (WinSound ∈ snd out <->
   roundMessageText o' !! 3%nat
   = Some "You win! Start scanning to play again.") /\
  (LoseSound ∈ snd out <->
   roundMessageText o' !! 3%nat
   = Some "You missed the goal. Try again to hit $150.00.").
Proof.
  intros Hx Hrun Hexp Hhas Hq r out o'.
  pose proof (reachableH_core x Hx) as Hc.
  pose proof (reachableBy_flags _ _ Hc) as F.
  pose proof (reachable_round_inv _ Hc) as R.
  assert (Hd : 0 <= delta).
  { pose proof (ri_running _ R Hrun). lra. }
  destruct (updateH_core h camera delta time x) as [Hcore Hlog].
  rewrite Hlog in Hq.
  pose proof (update_quiet h delta time (core x) F Hq) as Hu.
  rewrite (advanceTimer_expired delta (core x) F Hrun Hexp) in Hu.
  assert (Hround : round (core (fst out))
                   = mkRound 0 false (gameStarted r) true true
                       (timerWarningPlayed r) (scannedCount r)
                       (totalCartValue r)).
  { unfold out. by rewrite Hcore, Hu. }
  assert (Hsnd : snd out
                 = [ if numGeb (totalCartValue r) goalCartValue
                     then WinSound else LoseSound;
                     RoundMessage (scannedCount r) (totalCartValue r) ]).
  { unfold out. by rewrite Hlog, Hu. }
  assert (Hhas' : hasRoundMessage o' = true).
  { unfold o', out. destruct (updateH_sweep h camera delta time x) as (_ & Hh & He).
    rewrite Hlog in He. rewrite Hh.
    rewrite He in Hq.
    rewrite (sweepZonesH_quiet delta time _ _ Hd
               (reachableH_sweepStart_ok camera delta x Hx Hd) eq_refl).
    - simpl. rewrite (advanceTimerH_hud delta x F).
      destruct (_ && _); exact Hhas.
    - unfold eventCount. by rewrite Hq. }
  destruct (reachableH_display_ok _ (rh_tick x h camera delta time Hx Hd))
    as [[_ _ _ [_ Hmsg] _] _].
  fold out in Hmsg. fold o' in Hmsg.
  destruct (Hmsg Hhas') as [Hvis Htext]. rewrite Hround in Hvis, Htext.
  simpl in Hvis, Htext. specialize (Htext eq_refl).
  split; [done|]. split; [done|]. split; [done|].
  rewrite Htext, Hsnd. unfold roundMessageLines. simpl.
  destruct (numGeb (totalCartValue r) goalCartValue); split; split;
    intros H;
    first [ done
          | by apply list_elem_of_here
          | apply elem_of_cons in H as [H|H]; [done|];
            apply elem_of_cons in H as [H|H]; [done|];
            by apply elem_of_nil in H ].
Qed.

Lemma round_message_matches_sound_witness :
  roundMessageText
    (roundOverHud (hud (fst (updateH demoHost true 31 2 quietDisplay))))
  = roundMessageLines (scannedCount (round (core quietDisplay)))
      (totalCartValue (round (core quietDisplay))).
Proof.
  refine (proj1 (proj2 (proj2
            (round_message_matches_sound demoHost true 31 2 quietDisplay
               _ _ _ _ _)))).
  - apply (rh_host runningDisplay); [|reflexivity].
    apply rh_tick; [apply rh_init | by vm_compute].
  - vm_compute. reflexivity.
  - by vm_compute.
  - vm_compute. reflexivity.
  - vm_compute. reflexivity.
Defined.

(** ** Runs of ticks that scan nothing *)

Lemma ticks_cons h delta time rest s :
  ticks h ((delta, time) :: rest) s
  = (fst (ticks h rest (fst (update h delta time s))),
     snd (update h delta time s)
     ++ snd (ticks h rest (fst (update h delta time s)))).
Proof.
  simpl. destruct (update h delta time s) as [s1 l1]. simpl.
  by destruct (ticks h rest s1).
Qed.

(** With the clock stopped, a run of ticks that scans nothing changes
    nothing. *)
Lemma ticks_quiet_stopped h frames : forall s,
  flags_inv (round s) -> timerRunning (round s) = false ->
  scanEvents (snd (ticks h frames s)) = [] ->
  ticks h frames s = (s, []).
Proof.
  induction frames as [|[delta time] rest IH]; intros s F Hstop Hq; [done|].
  rewrite ticks_cons in *. simpl in Hq.
  rewrite scanEvents_app in Hq. apply app_eq_nil in Hq as [Hq1 Hq2].
  pose proof (update_quiet h delta time s F Hq1) as Hu.
  rewrite advanceTimer_stopped in Hu by done.
  rewrite Hu in *. simpl in *. by rewrite (IH s F Hstop Hq2).
Qed.

(** X17.  A running round that is left alone times out.  Over a run of
    ticks with non-negative [delta]s and no scan event, the time left is
    the time at the start less the time elapsed while that is positive,
    and the round is over with the clock at 0 once the elapsed time
    reaches it; the run then carries exactly one end-of-round
    notification, with the verdict and tallies of the round.  The score,
    the cart and the entity store are what they were. *)
Theorem quiet_round_times_out h frames : forall s,
  reachable s -> isRunning (round s) ->
  Forall (fun f => 0 <= fst f) frames ->
  scanEvents (snd (ticks h frames s)) = [] ->
  let t := timeRemaining (round s) in
  let out := ticks h frames s in
  scannables (fst out) = scannables s /\
  scannedCount (round (fst out)) = scannedCount (round s) /\
  totalCartValue (round (fst out)) = totalCartValue (round s) /\
  (elapsed frames < t ->
   isRunning (round (fst out)) /\
   timeRemaining (round (fst out)) == t - elapsed frames /\
   List.filter isRoundEnd (snd out) = []) /\
  (t <= elapsed frames ->
   isEnded (round (fst out)) /\ timeRemaining (round (fst out)) = 0 /\
   List.filter isRoundEnd (snd out)
   = [ if numGeb (totalCartValue (round s)) goalCartValue
       then WinSound else LoseSound;
       RoundMessage (scannedCount (round s)) (totalCartValue (round s)) ]).
Proof.
  induction frames as [|[delta time] rest IH]; intros s Hs Hrun Hd Hq t out.
  - unfold out, elapsed. simpl.
    pose proof (ri_running _ (reachable_round_inv s Hs) Hrun) as Hpos.
    unfold t.
    split; [done|]. split; [done|]. split; [done|]. split.
    + intros _. split; [done|]. split; [lra|done].
    + intros Hle. lra.
  - pose proof (reachableBy_flags _ _ Hs) as F.
    apply Forall_cons in Hd as [Hd0 Hd]. simpl in Hd0.
    unfold out. rewrite ticks_cons in *. simpl in Hq.
    rewrite scanEvents_app in Hq. apply app_eq_nil in Hq as [Hq1 Hq2].
    pose proof (update_quiet h delta time s F Hq1) as Hu.
    change (elapsed ((delta, time) :: rest)) with (delta + elapsed rest).
    assert (He : 0 <= elapsed rest).
    { clear -Hd. induction Hd as [|f fs H0 _ IHf]; [by unfold elapsed|].
      change (elapsed (f :: fs)) with (fst f + elapsed fs). lra. }
    destruct (Qlt_le_dec 0 (t - delta)) as [Hlive|Hexp].
    + destruct (advanceTimer_running delta s Hrun Hlive) as (w & Hadv).
      rewrite Hadv in Hu.
      assert (Hs1 : reachable (fst (update h delta time s)))
        by (by apply reach_tick).
      specialize (IH (fst (update h delta time s)) Hs1).
      rewrite Hu in *. simpl in *.
      destruct (IH eq_refl Hd Hq2) as (I1 & I2 & I3 & I4 & I5).
      split; [done|]. split; [done|]. split; [done|].
      assert (Hw : List.filter isRoundEnd
                     (if negb (timerWarningPlayed (round s))
                         && Qgtb (timeRemaining (round s)) 10
                         && Qle_bool (timeRemaining (round s) - delta) 10
                         && Qgtb (timeRemaining (round s) - delta) 0
                      then [TimerWarningSound] else []) = [])
        by (by destruct (_ && _)).
      rewrite List.filter_app, Hw. simpl. unfold t in *. split.
      * intros Hlt. destruct I4 as (J1 & J2 & J3); [lra|].
        split; [done|]. split; [rewrite J2; lra|done].
      * intros Hle. apply I5. lra.
    + rewrite (advanceTimer_expired delta s F Hrun Hexp) in Hu.
      assert (F1 : flags_inv (round (fst (update h delta time s))))
        by (by apply flags_inv_update).
      pose proof (ticks_quiet_stopped h rest
                    (fst (update h delta time s)) F1) as Hrest.
      rewrite Hu in *. simpl in *.
      rewrite (Hrest eq_refl Hq2). simpl.
      split; [done|]. split; [done|]. split; [done|]. split.
      * intros Hlt. unfold t in *. lra.
      * intros _. split; [done|]. split; [done|].
        by destruct (numGeb _ _).
Qed.


Lemma quiet_round_times_out_witness :
  scannedCount
    (round (fst (ticks demoHost [(10, 2); (15, 3); (20, 4)]
                   (with_scannables runningScene []))))
  = scannedCount (round (with_scannables runningScene [])).
Proof.
  refine (proj1 (proj2 (quiet_round_times_out demoHost
                          [(10, 2); (15, 3); (20, 4)]
                          (with_scannables runningScene []) _ _ _ _))).
  - apply (reach_host _ runningScene); [|reflexivity].
    apply reach_tick; [apply reach_init | by vm_compute].
  - vm_compute. reflexivity.
  - repeat constructor; by vm_compute.
  - vm_compute. reflexivity.
Defined.

(** ** The text of the toast *)

Lemma updateToastVisual_text delta w :
  toastText (updateToastVisual delta w) = toastText w.
Proof.
  unfold updateToastVisual. destruct (hasToast w); [|done]. simpl.
  destruct (Qgtb _ 0); [|done]. by destruct (Qle_bool _ 0).
Qed.

Lemma roundGateH_toast x x1 :
  roundGateH x = Some x1 -> toastHud (hud x1) = toastHud (hud x).
Proof.
  unfold roundGateH. destruct (negb _ && _).
  - destruct (roundEnded _); [|done]. by intros [= <-].
  - by intros [= <-].
Qed.

Lemma showScanToast_has label w :
  hasToast (showScanToast label w) = hasToast w.
Proof. unfold showScanToast. by destruct (hasToast w) eqn:E. Qed.

Lemma toast_names_last_zone delta time zi z st :
  flags_inv (round (sys (sweepCore st))) ->
  hasToast (toastHud (sweepHud (sweepZoneH delta time zi z st)))
  = hasToast (toastHud (sweepHud st)) /\
  (toast_names_last st -> toast_names_last (sweepZoneH delta time zi z st)).
Proof.
  intros F. unfold sweepZoneH.
  destruct (zoneObject3D z) as [zp|]; [|done].
  match goal with |- context [scanZoneH time zi zp ?rsq ?cands ?st1] =>
    destruct (scanZoneH_cases time zi zp rsq cands st1 F)
      as [->|(i & e & o & x1 & Hg & ->)] end.
  - simpl. split; [apply updateToastVisual_has|].
    intros H Hhas ev Hev. simpl in *.
    rewrite updateToastVisual_has in Hhas.
    rewrite updateToastVisual_text. by apply H.
  - apply roundGateH_toast in Hg. simpl in Hg.
    unfold toast_names_last, honorScanH.
    cbn [sweepHud sweepCore toastHud]. rewrite honorScan_eq. cbn [log].
    rewrite Hg, scanEvents_app, scanEvents_logOf, completed_app.
    set (pid := default "" (productId e)).
    change (completed [(zi, i, pid)])
      with (if negb (aborts pid) then [(zi, i, pid)] else []).
    unfold aborts.
    destruct (getProductLabel pid) as [label|] eqn:Hl; simpl.
    + rewrite showScanToast_has, updateToastVisual_has.
      split; [done|]. intros _ Hhas ev Hev.
      rewrite last_snoc in Hev. injection Hev as <-. simpl.
      rewrite Hl. unfold showScanToast.
      by rewrite updateToastVisual_has, Hhas.
    + rewrite !app_nil_r, updateToastVisual_has, updateToastVisual_text.
      split; [done|]. intros H Hhas ev Hev. by apply H.
Qed.

Lemma toast_names_last_zones delta time zs : forall st,
  0 <= delta -> sweepH_ok st ->
  hasToast (toastHud (sweepHud (sweepZonesH delta time zs st)))
  = hasToast (toastHud (sweepHud st)) /\
  (toast_names_last st -> toast_names_last (sweepZonesH delta time zs st)).
Proof.
  induction zs as [|[zi z] zs IH]; intros st Hd Hok; simpl; [done|].
  destruct (toast_names_last_zone delta time zi z st (proj1 Hok)) as [H1 H2].
  destruct (IH _ Hd (sweepZoneH_ok delta time zi z st Hd Hok)) as [I1 I2].
  destruct (threw _); [done|].
  split; [by rewrite I1|]. intros H. by apply I2, H2.
Qed.

(** X18.  A tick neither creates nor destroys the toast.  After a tick
    the toast, where it exists, carries the label of the last scan of the
    tick that ran to its end.  The label is the name and price of a
    product of the price table, and "Item scanned" for an id that is
    neither in the table nor a property of [Object.prototype]; for an id
    that names such a property and is not in the table the label code
    throws, and the scan shows no toast: on the scene whose first entity
    has the product id "constructor" the tick leaves the toast as it
    was. *)
Theorem toast_names_last_scan h camera delta time x :
  reachableH x -> 0 <= delta ->
  let out := updateH h camera delta time x in
  hasToast (toastHud (hud (fst out))) = hasToast (toastHud (hud x)) /\
  (hasToast (toastHud (hud x)) = true ->
   forall ev, last (completed (scanEvents (snd out))) = Some ev ->
     getProductLabel (evPid ev)
     = Some (toastText (toastHud (hud (fst out))))) /\
  (threw (snd out) = false ->
   completed (scanEvents (snd out)) = scanEvents (snd out)) /\
  (forall pid info, productInfo pid = Some (Entry info) ->
     getProductLabel pid
     = Some (String.append (name info)
               (String.append " — $" (toFixed2 (price info))))) /\
  (forall pid, productInfo pid = None ->
     getProductLabel pid = Some "Item scanned") /\
  (forall pid, pid ∈ objectPrototypeKeys -> productInfoOwn !! pid = None ->
     getProductLabel pid = None) /\
  (scanEvents (snd (updateH demoHost true (1 # 60) 1 protoDisplay))
   = [(0%nat, 0%nat, "constructor")] /\
   toastHud (hud (fst (updateH demoHost true (1 # 60) 1 protoDisplay)))
   = toastHud (hud protoDisplay)).
Proof.
  intros Hx Hd out.
  pose proof (reachableBy_flags _ _ (reachableH_core x Hx)) as F.
  destruct (updateH_sweep h camera delta time x) as (_ & Hh & He).
  pose proof (reachableH_sweepStart_ok camera delta x Hx Hd) as Hok.
  match type of Hh with _ = sweepHud (sweepZonesH _ _ ?zs _) =>
    destruct (toast_names_last_zones delta time zs _ Hd Hok) as [H1 H2] end.
  assert (Hsame : hasToast (toastHud (hud (fst out)))
                  = hasToast (toastHud (hud x))).
  { unfold out. rewrite Hh, H1. simpl.
    by destruct (advanceTimerH_frame delta x F) as (_ & -> & _). }
  split; [exact Hsame|]. split; [|split; [|split; [|split; [|split]]]].
  - intros Hhas ev Hev.
    unfold out in *. rewrite He in Hev. rewrite Hh. apply H2.
    + intros _ ev' Hnil. done.
    + rewrite <- Hh. by rewrite Hsame.
    + exact Hev.
  - intros Hno. unfold out in *.
    rewrite (proj2 (updateH_core h camera delta time x)) in *.
    rewrite update_threw_sweep in Hno. rewrite update_scanEvents.
    pose proof (sweep_inv_sweep time _ (flags_inv_advanceTimer delta _ F)) as I.
    rewrite (si_log _ _ _ _ I) in Hno. by apply completed_all.
  - intros pid info Hinfo. unfold getProductLabel. by rewrite Hinfo.
  - intros pid Hnone. unfold getProductLabel. by rewrite Hnone.
  - intros pid Hin Hown. unfold getProductLabel, productInfo.
    rewrite Hown. by destruct (decide _).
  - by vm_compute.
Qed.

Lemma toast_names_last_scan_witness :
  getProductLabel (evPid (0%nat, 0%nat, "goldBar"))
  = Some (toastText
            (toastHud (hud (fst (updateH demoHost true (1 # 60) 1
                                   demoDisplay))))).
Proof.
  refine (proj1 (proj2 (toast_names_last_scan demoHost true (1 # 60) 1
                          demoDisplay _ _)) _ _ _).
  - apply rh_init.
  - by vm_compute.
  - vm_compute. reflexivity.
  - vm_compute. reflexivity.
Defined.
